(** * teleport/socket: the header wire codec and the packet pool

    A shallow embedding of the generated protocol-buffer codec of [Header]
    (header.pb.go: Marshal, MarshalTo, Size, Unmarshal, skipHeader) and of
    the packet container with its free list (packet.go).

    Conventions.
    - Go's [int] is the 64-bit two's-complement integer of the targets the
      package is built for; [uint64], [int32] and [int] values are kept as
      [Z] with the wrap-around written out at every conversion, shift and
      addition that can leave the range.  An index increment that directly
      follows the guard [iNdEx >= l] cannot wrap and is a plain [+ 1].
    - A byte slice is a [list byte]; a Go [string] is the same (its bytes).
    - A call either returns a value, returns a Go [error], or panics; the
      loops are driven by a fuel argument whose exhaustion is a fourth
      outcome; every result below names the outcome that is reached.  What
      the receiver of [Unmarshal] holds after an error or a panic is not
      tracked. *)

From Stdlib Require Import ZArith Lia Bool.
From Stdlib Require Import Strings.Byte.
From stdpp Require Import base list gmap strings.

Local Open Scope Z_scope.

(** ** Outcomes of a call *)

Inductive error : Type :=
| ErrIntOverflowHeader
| ErrInvalidLengthHeader
| ErrUnexpectedEOF
| ErrEndGroup
| ErrIllegalTag (fieldNum wire : Z)
| ErrWrongWireType (wireType : Z) (field : string)
| ErrIllegalWireType (wireType : Z)
| ErrCodecNotFound (name : string).

Inductive panic : Type :=
| PanicIndex
| PanicSlice
| PanicMakeLen
| PanicUnreachable
| PanicNilDeref
| PanicError (e : error).

Inductive outcome (A : Type) : Type :=
| Ok (a : A)
| Err (e : error)
| Panic (p : panic)
| OutOfFuel.

Arguments Ok {A} a.
Arguments Err {A} e.
Arguments Panic {A} p.
Arguments OutOfFuel {A}.

(** Sequencing: the first outcome that is not a value ends the call.  The
    instance gives the [x ← e; k] notation. *)
#[global] Instance outcome_bind : MBind outcome := fun A B k o =>
  match o with
  | Ok a => k a
  | Err e => Err e
  | Panic p => Panic p
  | OutOfFuel => OutOfFuel
  end.

(** ** Machine integers and bytes *)

Definition uint64 (z : Z) : Z := z mod 2 ^ 64.
Definition int32 (z : Z) : Z := (z + 2 ^ 31) mod 2 ^ 32 - 2 ^ 31.
Definition int (z : Z) : Z := (z + 2 ^ 63) mod 2 ^ 64 - 2 ^ 63.

Definition MaxInt : Z := 2 ^ 63 - 1.

(** The value of a byte, and the conversion [uint8(v)] that keeps the low
    eight bits. *)
Definition u8 (b : byte) : Z := Z.of_N (Byte.to_N b).

Definition uint8 (z : Z) : byte :=
  match Byte.of_N (Z.to_N (z mod 256)) with
  | Some b => b
  | None => x00
  end.

Definition len {A : Type} (s : list A) : Z := Z.of_nat (length s).
Arguments len : simpl never.

(** [dAtA[i]]: a run-time panic outside [0, len). *)
Definition index (dAtA : list byte) (i : Z) : outcome byte :=
  if (i <? 0) || (len dAtA <=? i) then Panic PanicIndex
  else match dAtA !! Z.to_nat i with
       | Some b => Ok b
       | None => Panic PanicIndex
       end.

(** [dAtA[i] = b]. *)
Definition store (dAtA : list byte) (i : Z) (b : byte) : outcome (list byte) :=
  if (i <? 0) || (len dAtA <=? i) then Panic PanicIndex
  else Ok (<[Z.to_nat i := b]> dAtA).

(** [dAtA[i:]] and [dAtA[i:j]]. *)
Definition slice_from (dAtA : list byte) (i : Z) : outcome (list byte) :=
  if (i <? 0) || (len dAtA <? i) then Panic PanicSlice
  else Ok (drop (Z.to_nat i) dAtA).

Definition slice (dAtA : list byte) (i j : Z) : outcome (list byte) :=
  if (i <? 0) || (j <? i) || (len dAtA <? j) then Panic PanicSlice
  else Ok (take (Z.to_nat (j - i)) (drop (Z.to_nat i) dAtA)).

(** [dAtA[:n]]. *)
Definition slice_to (dAtA : list byte) (n : Z) : outcome (list byte) :=
  if (n <? 0) || (len dAtA <? n) then Panic PanicSlice
  else Ok (take (Z.to_nat n) dAtA).

(** [copy(dAtA[i:], src)]: copies [min(len(dAtA)-i, len(src))] bytes and
    returns that count. *)
Definition copy_at (dAtA : list byte) (i : Z) (src : list byte)
  : outcome (list byte * Z) :=
  dst ← slice_from dAtA i;
  let n := Nat.min (length dst) (length src) in
  Ok (take (Z.to_nat i) dAtA ++ take n src ++ drop n dst, Z.of_nat n).

(** [make([]byte, size)]. *)
Definition make (size : Z) : outcome (list byte) :=
  if size <? 0 then Panic PanicMakeLen
  else Ok (replicate (Z.to_nat size) x00).

(** ** The header record (header.pb.go) *)

Record Header : Type := mkHeader {
  Seq : Z;              (* uint64 *)
  Type_ : Z;            (* int32 *)
  Uri : list byte;      (* string *)
  Gzip : Z;             (* int32 *)
  StatusCode : Z;       (* int32 *)
  Status : list byte    (* string *)
}.

Definition set_Seq (m : Header) (v : Z) : Header :=
  mkHeader v (Type_ m) (Uri m) (Gzip m) (StatusCode m) (Status m).
Definition set_Type (m : Header) (v : Z) : Header :=
  mkHeader (Seq m) v (Uri m) (Gzip m) (StatusCode m) (Status m).
Definition set_Uri (m : Header) (s : list byte) : Header :=
  mkHeader (Seq m) (Type_ m) s (Gzip m) (StatusCode m) (Status m).
Definition set_Gzip (m : Header) (v : Z) : Header :=
  mkHeader (Seq m) (Type_ m) (Uri m) v (StatusCode m) (Status m).
Definition set_StatusCode (m : Header) (v : Z) : Header :=
  mkHeader (Seq m) (Type_ m) (Uri m) (Gzip m) v (Status m).
Definition set_Status (m : Header) (s : list byte) : Header :=
  mkHeader (Seq m) (Type_ m) (Uri m) (Gzip m) (StatusCode m) s.

(** [new(Header)], and what [Reset] leaves. *)
Definition Header_zero : Header := mkHeader 0 0 [] 0 0 [].

Definition Header_Reset (m : Header) : Header :=
  let m := set_Seq m 0 in
  let m := set_Type m 0 in
  let m := set_Uri m [] in
  let m := set_Gzip m 0 in
  let m := set_StatusCode m 0 in
  set_Status m [].

(** ** Encoding *)

(** [encodeVarintHeader]: the loop [for v >= 1<<7] runs at most nine times on
    a 64-bit value. *)
Fixpoint encodeVarintHeader_loop (fuel : nat) (dAtA : list byte) (offset v : Z)
  : outcome (list byte * Z) :=
  if 2 ^ 7 <=? v then
    match fuel with
    | O => OutOfFuel
    | S fuel =>
        dAtA ← store dAtA offset (uint8 (Z.lor (Z.land v 0x7f) 0x80));
        encodeVarintHeader_loop fuel dAtA (offset + 1) (Z.shiftr v 7)
    end
  else
    dAtA ← store dAtA offset (uint8 v);
    Ok (dAtA, offset + 1).

Definition encodeVarintHeader (dAtA : list byte) (offset v : Z)
  : outcome (list byte * Z) :=
  encodeVarintHeader_loop 10 dAtA offset v.

(** [encodeFixed64Header] and [encodeFixed32Header]: the bytes of [v], lowest
    first, stored one index after the other. *)
Definition encodeFixed64Header (dAtA : list byte) (offset v : Z)
  : outcome (list byte * Z) :=
  dAtA ← store dAtA offset (uint8 v);
  dAtA ← store dAtA (offset + 1) (uint8 (Z.shiftr v 8));
  dAtA ← store dAtA (offset + 2) (uint8 (Z.shiftr v 16));
  dAtA ← store dAtA (offset + 3) (uint8 (Z.shiftr v 24));
  dAtA ← store dAtA (offset + 4) (uint8 (Z.shiftr v 32));
  dAtA ← store dAtA (offset + 5) (uint8 (Z.shiftr v 40));
  dAtA ← store dAtA (offset + 6) (uint8 (Z.shiftr v 48));
  dAtA ← store dAtA (offset + 7) (uint8 (Z.shiftr v 56));
  Ok (dAtA, offset + 8).

Definition encodeFixed32Header (dAtA : list byte) (offset v : Z)
  : outcome (list byte * Z) :=
  dAtA ← store dAtA offset (uint8 v);
  dAtA ← store dAtA (offset + 1) (uint8 (Z.shiftr v 8));
  dAtA ← store dAtA (offset + 2) (uint8 (Z.shiftr v 16));
  dAtA ← store dAtA (offset + 3) (uint8 (Z.shiftr v 24));
  Ok (dAtA, offset + 4).

(** [sovHeader]: the number of bytes of the varint of [x]. *)
Fixpoint sovHeader_loop (fuel : nat) (x n : Z) : outcome Z :=
  match fuel with
  | O => OutOfFuel
  | S fuel =>
      let n := n + 1 in
      let x := Z.shiftr x 7 in
      if x =? 0 then Ok n else sovHeader_loop fuel x n
  end.

Definition sovHeader (x : Z) : outcome Z := sovHeader_loop 10 x 0.

(** [sozHeader]: the size of the zigzag form of [x]; [int64(x) >> 63] is
    the arithmetic shift. *)
Definition int64 (z : Z) : Z := (z + 2 ^ 63) mod 2 ^ 64 - 2 ^ 63.

Definition sozHeader (x : Z) : outcome Z :=
  sovHeader (uint64 (Z.lxor (uint64 (Z.shiftl x 1))
                            (uint64 (Z.shiftr (int64 x) 63)))).

Definition Size (m : Header) : outcome Z :=
  let n := 0 in
  n ← (if Seq m =? 0 then Ok n
       else s ← sovHeader (uint64 (Seq m)); Ok (int (n + (1 + s))));
  n ← (if Type_ m =? 0 then Ok n
       else s ← sovHeader (uint64 (Type_ m)); Ok (int (n + (1 + s))));
  let l := len (Uri m) in
  n ← (if l >? 0 then s ← sovHeader (uint64 l); Ok (int (n + (1 + l + s)))
       else Ok n);
  n ← (if Gzip m =? 0 then Ok n
       else s ← sovHeader (uint64 (Gzip m)); Ok (int (n + (1 + s))));
  n ← (if StatusCode m =? 0 then Ok n
       else s ← sovHeader (uint64 (StatusCode m)); Ok (int (n + (1 + s))));
  let l := len (Status m) in
  n ← (if l >? 0 then s ← sovHeader (uint64 l); Ok (int (n + (1 + l + s)))
       else Ok n);
  Ok n.

(** One [if] block of [MarshalTo] for an integer field: the tag byte, then
    the varint of the value converted to [uint64]. *)
Definition put_varint_field (tag : byte) (v : Z) (st : list byte * Z)
  : outcome (list byte * Z) :=
  let '(dAtA, i) := st in
  if v =? 0 then Ok (dAtA, i)
  else
    dAtA ← store dAtA i tag;
    let i := i + 1 in
    encodeVarintHeader dAtA i (uint64 v).

(** One [if] block of [MarshalTo] for a string field: the tag byte, the
    varint of the length, then the bytes. *)
Definition put_string_field (tag : byte) (s : list byte) (st : list byte * Z)
  : outcome (list byte * Z) :=
  let '(dAtA, i) := st in
  if len s >? 0 then
    dAtA ← store dAtA i tag;
    let i := i + 1 in
    '(dAtA, i) ← encodeVarintHeader dAtA i (uint64 (len s));
    '(dAtA, n) ← copy_at dAtA i s;
    Ok (dAtA, int (i + n))
  else Ok (dAtA, i).

Definition MarshalTo (m : Header) (dAtA : list byte) : outcome (list byte * Z) :=
  let i := 0 in
  st ← put_varint_field x08 (Seq m) (dAtA, i);
  st ← put_varint_field x10 (Type_ m) st;
  st ← put_string_field x1a (Uri m) st;
  st ← put_varint_field x20 (Gzip m) st;
  st ← put_varint_field x28 (StatusCode m) st;
  st ← put_string_field x32 (Status m) st;
  Ok st.

Definition Marshal (m : Header) : outcome (list byte) :=
  size ← Size m;
  dAtA ← make size;
  '(dAtA, n) ← MarshalTo m dAtA;
  slice_to dAtA n.

(** ** Decoding *)

(** The varint loop that [Unmarshal] and [skipHeader] repeat for every tag
    and value.  [conv] is the integer type the groups are accumulated in:
    [(T(b) & 0x7F) << shift] is computed in [T], so a group shifted past the
    width of [T] is lost. *)
Fixpoint varint_loop (conv : Z -> Z) (fuel : nat) (dAtA : list byte)
    (shift iNdEx acc : Z) : outcome (Z * Z) :=
  if 64 <=? shift then Err ErrIntOverflowHeader
  else if len dAtA <=? iNdEx then Err ErrUnexpectedEOF
  else
    match fuel with
    | O => OutOfFuel
    | S fuel =>
        b ← index dAtA iNdEx;
        let iNdEx := iNdEx + 1 in
        let acc := Z.lor acc (conv (Z.shiftl (Z.land (u8 b) 0x7F) shift)) in
        if u8 b <? 0x80 then Ok (acc, iNdEx)
        else varint_loop conv fuel dAtA (shift + 7) iNdEx acc
    end.

Definition varint_uint64 (dAtA : list byte) (iNdEx : Z) : outcome (Z * Z) :=
  varint_loop uint64 10 dAtA 0 iNdEx 0.
Definition varint_int32 (dAtA : list byte) (iNdEx : Z) : outcome (Z * Z) :=
  varint_loop int32 10 dAtA 0 iNdEx 0.
Definition varint_int (dAtA : list byte) (iNdEx : Z) : outcome (Z * Z) :=
  varint_loop int 10 dAtA 0 iNdEx 0.

Arguments varint_uint64 : simpl never.
Arguments varint_int32 : simpl never.
Arguments varint_int : simpl never.

(** The loop of [skipHeader]'s case 0, which keeps no value. *)
Fixpoint skip_varint_loop (fuel : nat) (dAtA : list byte) (shift iNdEx : Z)
  : outcome Z :=
  if 64 <=? shift then Err ErrIntOverflowHeader
  else if len dAtA <=? iNdEx then Err ErrUnexpectedEOF
  else
    match fuel with
    | O => OutOfFuel
    | S fuel =>
        let iNdEx := iNdEx + 1 in
        b ← index dAtA (iNdEx - 1);
        if u8 b <? 0x80 then Ok iNdEx
        else skip_varint_loop fuel dAtA (shift + 7) iNdEx
    end.

Definition skip_varint (dAtA : list byte) (iNdEx : Z) : outcome Z :=
  skip_varint_loop 10 dAtA 0 iNdEx.

Arguments skip_varint : simpl never.

(** [skipHeader].  Every path through the body of its [for iNdEx < l] loop
    returns, so the body runs at most once; with an empty slice the function
    reaches its final [panic("unreachable")].  [skipGroup] is the inner
    [for] loop of case 3, entered with the current [iNdEx]. *)
Fixpoint skipHeader_fuel (fuel : nat) (dAtA : list byte) : outcome Z :=
  match fuel with
  | O => OutOfFuel
  | S fuel =>
      let l := len dAtA in
      let iNdEx := 0 in
      if iNdEx <? l then
        '(wire, iNdEx) ← varint_uint64 dAtA iNdEx;
        let wireType := int (Z.land wire 0x7) in
        if wireType =? 0 then skip_varint dAtA iNdEx
        else if wireType =? 1 then Ok (int (iNdEx + 8))
        else if wireType =? 2 then
          '(length, iNdEx) ← varint_int dAtA iNdEx;
          let iNdEx := int (iNdEx + length) in
          if length <? 0 then Err ErrInvalidLengthHeader else Ok iNdEx
        else if wireType =? 3 then skipGroup fuel dAtA iNdEx
        else if wireType =? 4 then Ok iNdEx
        else if wireType =? 5 then Ok (int (iNdEx + 4))
        else Err (ErrIllegalWireType wireType)
      else Panic PanicUnreachable
  end
with skipGroup (fuel : nat) (dAtA : list byte) (iNdEx : Z) : outcome Z :=
  match fuel with
  | O => OutOfFuel
  | S fuel =>
      let start := iNdEx in
      '(innerWire, iNdEx) ← varint_uint64 dAtA iNdEx;
      let innerWireType := int (Z.land innerWire 0x7) in
      if innerWireType =? 4 then Ok iNdEx
      else
        sub ← slice_from dAtA start;
        next ← skipHeader_fuel fuel sub;
        skipGroup fuel dAtA (int (start + next))
  end.

(** Each nested call and each turn of the group loop consumes a byte, so
    twice the length bounds the fuel. *)
Definition skipHeader (dAtA : list byte) : outcome Z :=
  skipHeader_fuel (2 * length dAtA + 1) dAtA.

Arguments skipHeader : simpl never.

(** A string field: the length varint, its conversion to [int], the bounds
    check and the slice. *)
Definition read_string (dAtA : list byte) (iNdEx : Z) : outcome (list byte * Z) :=
  let l := len dAtA in
  '(stringLen, iNdEx) ← varint_uint64 dAtA iNdEx;
  let intStringLen := int stringLen in
  if intStringLen <? 0 then Err ErrInvalidLengthHeader
  else
    let postIndex := int (iNdEx + intStringLen) in
    if postIndex >? l then Err ErrUnexpectedEOF
    else
      s ← slice dAtA iNdEx postIndex;
      Ok (s, postIndex).

Arguments read_string : simpl never.

(** One turn of the [for iNdEx < l] loop of [Unmarshal]. *)
Definition Unmarshal_field (dAtA : list byte) (m : Header) (iNdEx : Z)
  : outcome (Header * Z) :=
  let l := len dAtA in
  let preIndex := iNdEx in
  '(wire, iNdEx) ← varint_uint64 dAtA iNdEx;
  let fieldNum := int32 (Z.shiftr wire 3) in
  let wireType := int (Z.land wire 0x7) in
  if wireType =? 4 then Err ErrEndGroup
  else if fieldNum <=? 0 then Err (ErrIllegalTag fieldNum wire)
  else if fieldNum =? 1 then
    if negb (wireType =? 0) then Err (ErrWrongWireType wireType "Seq")
    else '(v, iNdEx) ← varint_uint64 dAtA iNdEx; Ok (set_Seq m v, iNdEx)
  else if fieldNum =? 2 then
    if negb (wireType =? 0) then Err (ErrWrongWireType wireType "Type")
    else '(v, iNdEx) ← varint_int32 dAtA iNdEx; Ok (set_Type m v, iNdEx)
  else if fieldNum =? 3 then
    if negb (wireType =? 2) then Err (ErrWrongWireType wireType "Uri")
    else '(s, iNdEx) ← read_string dAtA iNdEx; Ok (set_Uri m s, iNdEx)
  else if fieldNum =? 4 then
    if negb (wireType =? 0) then Err (ErrWrongWireType wireType "Gzip")
    else '(v, iNdEx) ← varint_int32 dAtA iNdEx; Ok (set_Gzip m v, iNdEx)
  else if fieldNum =? 5 then
    if negb (wireType =? 0) then Err (ErrWrongWireType wireType "StatusCode")
    else '(v, iNdEx) ← varint_int32 dAtA iNdEx; Ok (set_StatusCode m v, iNdEx)
  else if fieldNum =? 6 then
    if negb (wireType =? 2) then Err (ErrWrongWireType wireType "Status")
    else '(s, iNdEx) ← read_string dAtA iNdEx; Ok (set_Status m s, iNdEx)
  else
    let iNdEx := preIndex in
    sub ← slice_from dAtA iNdEx;
    skippy ← skipHeader sub;
    if skippy <? 0 then Err ErrInvalidLengthHeader
    else if int (iNdEx + skippy) >? l then Err ErrUnexpectedEOF
    else Ok (m, int (iNdEx + skippy)).

Fixpoint Unmarshal_loop (fuel : nat) (dAtA : list byte) (m : Header) (iNdEx : Z)
  : outcome Header :=
  if iNdEx <? len dAtA then
    match fuel with
    | O => OutOfFuel
    | S fuel =>
        '(m, iNdEx) ← Unmarshal_field dAtA m iNdEx;
        Unmarshal_loop fuel dAtA m iNdEx
    end
  else if iNdEx >? len dAtA then Err ErrUnexpectedEOF
  else Ok m.

(** Every turn consumes a byte, so the length bounds the fuel. *)
Definition Unmarshal (m : Header) (dAtA : list byte) : outcome Header :=
  Unmarshal_loop (length dAtA) dAtA m 0.

(** ** The wire format as byte strings

    The bytes the encoder is meant to produce, written as plain list
    functions; the theorems below relate them to the buffer-writing code. *)

(** A byte with its high bit set announces a further 7-bit group. *)
Definition is_cont (b : byte) : bool := 0x80 <=? u8 b.

(** Base-128 little-endian groups of [v], at most [n] continuation bytes. *)
Fixpoint varint_bytes (n : nat) (v : Z) : list byte :=
  if 2 ^ 7 <=? v then
    match n with
    | O => [uint8 v]
    | S n => uint8 (Z.lor (Z.land v 0x7f) 0x80) :: varint_bytes n (Z.shiftr v 7)
    end
  else [uint8 v].

Definition varint (v : Z) : list byte := varint_bytes 9 v.

(** The number a sequence of groups stands for, with no width limit. *)
Fixpoint varint_value (bs : list byte) : Z :=
  match bs with
  | [] => 0
  | b :: bs => Z.lor (Z.land (u8 b) 0x7F) (Z.shiftl (varint_value bs) 7)
  end.

(** A signed wrap to [n] bits keeps the low [n] bits and repeats bit [n-1]
    above them. *)
Definition swrap (n z : Z) : Z := (z + 2 ^ (n - 1)) mod 2 ^ n - 2 ^ (n - 1).

(** The three accumulator types of the decoder commute with [|]. *)
Definition lor_hom (conv : Z -> Z) : Prop :=
  forall a b, conv (Z.lor a b) = Z.lor (conv a) (conv b).

(** A field of the header on the wire: nothing when the value is zero or
    empty, else the tag byte followed by the value. *)
Definition varint_field (tag : byte) (v : Z) : list byte :=
  if v =? 0 then [] else tag :: varint (uint64 v).

Definition string_field (tag : byte) (s : list byte) : list byte :=
  if len s >? 0 then tag :: varint (len s) ++ s else [].

Definition wire_bytes (m : Header) : list byte :=
  varint_field x08 (Seq m) ++ varint_field x10 (Type_ m)
  ++ string_field x1a (Uri m) ++ varint_field x20 (Gzip m)
  ++ varint_field x28 (StatusCode m) ++ string_field x32 (Status m).

(** The values a [Header] can hold: the ranges of its integer types, and
    strings short enough for the encoding to fit a slice. *)
Record Header_wf (m : Header) : Prop := mkHeader_wf {
  wf_Seq : 0 <= Seq m < 2 ^ 64;
  wf_Type : - 2 ^ 31 <= Type_ m < 2 ^ 31;
  wf_Gzip : - 2 ^ 31 <= Gzip m < 2 ^ 31;
  wf_StatusCode : - 2 ^ 31 <= StatusCode m < 2 ^ 31;
  wf_size : len (wire_bytes m) <= MaxInt
}.

(** A step of [MarshalTo] that writes [bs] at the cursor and moves the
    cursor behind it. *)
Definition writes (f : list byte * Z -> outcome (list byte * Z)) (bs : list byte)
  : Prop :=
  forall done junk,
    (length bs <= length junk)%nat -> len (done ++ junk) <= MaxInt ->
    f (done ++ junk, len done)
    = Ok (done ++ bs ++ drop (length bs) junk, len done + len bs).

(** ** Fields on the wire

    A record is a sequence of fields, each a tag varint
    [(fieldNumber << 3) | wireType] followed by a value laid out by the wire
    type: 0 a varint, 1 eight bytes, 2 a length varint and that many bytes,
    3 a group of nested fields closed by a tag of wire type 4, 5 four
    bytes.  The encoder of the header only ever emits types 0 and 2; the
    other shapes are what the decoder has to step over. *)
Inductive wire_field : Type :=
| WVarint (fieldNum v : Z)
| WFixed64 (fieldNum : Z) (payload : list byte)
| WBytes (fieldNum : Z) (payload : list byte)
| WGroup (fieldNum : Z) (body : list wire_field)
| WFixed32 (fieldNum : Z) (payload : list byte).

Definition tag_bytes (fieldNum wireType : Z) : list byte :=
  varint (Z.lor (Z.shiftl fieldNum 3) wireType).

Fixpoint wire_field_bytes (u : wire_field) : list byte :=
  match u with
  | WVarint fn v => tag_bytes fn 0 ++ varint v
  | WFixed64 fn p => tag_bytes fn 1 ++ p
  | WBytes fn p => tag_bytes fn 2 ++ varint (len p) ++ p
  | WGroup fn body =>
      tag_bytes fn 3 ++ concat (map wire_field_bytes body) ++ tag_bytes fn 4
  | WFixed32 fn p => tag_bytes fn 5 ++ p
  end.

Definition wire_fieldNum (u : wire_field) : Z :=
  match u with
  | WVarint fn _ | WFixed64 fn _ | WBytes fn _ | WGroup fn _ | WFixed32 fn _ => fn
  end.

(** The tag fits 64 bits, a varint value too, and the fixed payloads have
    their size. *)
Definition fieldNum_ok (fn : Z) : bool := (0 <=? fn) && (fn <? 2 ^ 61).

Fixpoint wire_field_ok (u : wire_field) : bool :=
  match u with
  | WVarint fn v => fieldNum_ok fn && (0 <=? v) && (v <? 2 ^ 64)
  | WFixed64 fn p => fieldNum_ok fn && (length p =? 8)%nat
  | WBytes fn p => fieldNum_ok fn
  | WGroup fn body => fieldNum_ok fn && forallb wire_field_ok body
  | WFixed32 fn p => fieldNum_ok fn && (length p =? 4)%nat
  end.

(** The fuel [skipHeader_fuel] spends on a field, and [skipGroup] on the
    rest of a group's body. *)
Fixpoint skip_need (u : wire_field) : nat :=
  match u with
  | WGroup _ body =>
      S (fold_right (fun u acc => S (Nat.max (skip_need u) acc)) 1%nat body)
  | _ => 1%nat
  end.

Definition group_need (body : list wire_field) : nat :=
  fold_right (fun u acc => S (Nat.max (skip_need u) acc)) 1%nat body.

(** The fields a decoder of [Header] can meet: its six own, present with
    any value, and fields of other numbers. *)
Inductive field : Type :=
| FSeq (v : Z)
| FType (v : Z)
| FUri (s : list byte)
| FGzip (v : Z)
| FStatusCode (v : Z)
| FStatus (s : list byte)
| FUnknown (u : wire_field).

Definition field_bytes (f : field) : list byte :=
  match f with
  | FSeq v => x08 :: varint (uint64 v)
  | FType v => x10 :: varint (uint64 v)
  | FUri s => x1a :: varint (len s) ++ s
  | FGzip v => x20 :: varint (uint64 v)
  | FStatusCode v => x28 :: varint (uint64 v)
  | FStatus s => x32 :: varint (len s) ++ s
  | FUnknown u => wire_field_bytes u
  end.

Definition is_int32 (v : Z) : bool := (- 2 ^ 31 <=? v) && (v <? 2 ^ 31).

Definition field_ok (f : field) : bool :=
  match f with
  | FSeq v => (0 <=? v) && (v <? 2 ^ 64)
  | FType v | FGzip v | FStatusCode v => is_int32 v
  | FUri _ | FStatus _ => true
  | FUnknown u =>
      (7 <=? wire_fieldNum u) && (wire_fieldNum u <? 2 ^ 31) && wire_field_ok u
  end.

Definition apply_field (m : Header) (f : field) : Header :=
  match f with
  | FSeq v => set_Seq m v
  | FType v => set_Type m v
  | FUri s => set_Uri m s
  | FGzip v => set_Gzip m v
  | FStatusCode v => set_StatusCode m v
  | FStatus s => set_Status m s
  | FUnknown _ => m
  end.

Definition fields_bytes (fs : list field) : list byte :=
  concat (map field_bytes fs).

(** The fields [Marshal] emits for a header: the non-zero ones, in field
    order. *)
Definition header_fields (m : Header) : list field :=
  (if Seq m =? 0 then [] else [FSeq (Seq m)])
  ++ (if Type_ m =? 0 then [] else [FType (Type_ m)])
  ++ (if len (Uri m) >? 0 then [FUri (Uri m)] else [])
  ++ (if Gzip m =? 0 then [] else [FGzip (Gzip m)])
  ++ (if StatusCode m =? 0 then [] else [FStatusCode (StatusCode m)])
  ++ (if len (Status m) >? 0 then [FStatus (Status m)] else []).

Definition wire_type (u : wire_field) : Z :=
  match u with
  | WVarint _ _ => 0
  | WFixed64 _ _ => 1
  | WBytes _ _ => 2
  | WGroup _ _ => 3
  | WFixed32 _ _ => 5
  end.

(** What [skipHeader] is to do on a well-formed field followed by anything:
    return the length of the field. *)
Definition skips (u : wire_field) : Prop :=
  wire_field_ok u = true ->
  forall (fuel : nat) (post : list byte),
    (skip_need u <= fuel)%nat ->
    len (wire_field_bytes u ++ post) <= MaxInt ->
    skipHeader_fuel fuel (wire_field_bytes u ++ post)
    = Ok (len (wire_field_bytes u)).

(** ** What a varint loop does on any input

    [leading_cont] counts the continuation bytes a buffer starts with, and
    [groups_acc] is the accumulator after the groups of [bs] have been
    or-ed in from [shift] on.  [varint_outcome] is the result of a loop that
    may still read [d] bytes of [rest]. *)
Fixpoint leading_cont (bs : list byte) : nat :=
  match bs with
  | b :: bs => if is_cont b then S (leading_cont bs) else O
  | [] => O
  end.

Fixpoint groups_acc (conv : Z -> Z) (shift acc : Z) (bs : list byte) : Z :=
  match bs with
  | [] => acc
  | b :: bs =>
      groups_acc conv (shift + 7)
        (Z.lor acc (conv (Z.shiftl (Z.land (u8 b) 0x7F) shift))) bs
  end.

Definition varint_outcome (conv : Z -> Z) (d : nat) (acc : Z) (rest : list byte)
    (iNdEx : Z) : outcome (Z * Z) :=
  let w := take d rest in
  let n := leading_cont w in
  if (n =? d)%nat then Err ErrIntOverflowHeader
  else if (n =? length w)%nat then Err ErrUnexpectedEOF
  else Ok (groups_acc conv (7 * (10 - Z.of_nat d)) acc (take (S n) rest),
           iNdEx + Z.of_nat n + 1).

(** The ten bytes a varint loop started at [iNdEx] can look at. *)
Definition window (dAtA : list byte) (iNdEx : Z) : list byte :=
  take 10 (drop (Z.to_nat iNdEx) dAtA).

(** ** Truncation

    The encoding of a header is the concatenation of six segments, one per
    field number; [keep j h] is [h] with the fields after the first [j]
    left at zero. *)
Definition segments (h : Header) : list (list byte) :=
  [varint_field x08 (Seq h); varint_field x10 (Type_ h);
   string_field x1a (Uri h); varint_field x20 (Gzip h);
   varint_field x28 (StatusCode h); string_field x32 (Status h)].

Definition header_field (h : Header) (j : nat) : field :=
  match j with
  | 0%nat => FSeq (Seq h)
  | 1%nat => FType (Type_ h)
  | 2%nat => FUri (Uri h)
  | 3%nat => FGzip (Gzip h)
  | 4%nat => FStatusCode (StatusCode h)
  | _ => FStatus (Status h)
  end.

Definition keep (j : nat) (h : Header) : Header :=
  mkHeader (if (1 <=? j)%nat then Seq h else 0)
           (if (2 <=? j)%nat then Type_ h else 0)
           (if (3 <=? j)%nat then Uri h else [])
           (if (4 <=? j)%nat then Gzip h else 0)
           (if (5 <=? j)%nat then StatusCode h else 0)
           (if (6 <=? j)%nat then Status h else []).

(** ** The packet container and its free list (packet.go)

    Package [codec] is imported, not part of these sources: its constant
    [NilCodecId] and its lookups [GetByName] and [GetById], each returning a
    [(Codec, error)] pair, are taken as parameters.  Of a [Codec] only the
    methods [Id] and [Name] are used here. *)
Record Codec : Type := mkCodec {
  Codec_Id : byte;
  Codec_Name : string
}.

Record codec_pkg : Type := mkCodecPkg {
  NilCodecId : byte;
  GetByName : string -> option Codec * option error;
  GetById : byte -> option Codec * option error
}.

(** Addresses: a [*Packet] or a [*Header] that is not nil. *)
Definition loc : Type := positive.

(** The headers that have been allocated, by address.  The field [Header]
    of a packet is a pointer into this store: it can be nil, and two
    packets can hold the same pointer. *)
Notation headers := (gmap loc Header).

Section Packet.

(** The values an [interface{}] body can hold; [None] is [nil]. *)
Context {V : Type}.
Variable codec : codec_pkg.

(** A body getter, a function from a header pointer to an [interface{}]:
    called with a pointer, which may be nil, it can read and write the
    headers it reaches, and can panic. *)
Definition BodyGetting : Type :=
  option loc -> headers -> outcome (option V * headers).

(** The struct [Packet].  [PHeader] is its field [Header], a pointer to a
    header ([None] is nil); [next] links the free list. *)
Record Packet : Type := mkPacket {
  HeaderCodec : byte;
  BodyCodec : byte;
  PHeader : option loc;
  Body : option V;
  HeaderLength : Z;
  BodyLength : Z;
  Length : Z;
  bodyGetting : option BodyGetting;
  next : option loc
}.

(** Access through a [*Header]: a nil pointer panics.  No Go pointer holds
    an address at which nothing was allocated; the model panics there as
    well. *)
Definition deref (m : option loc) (hs : headers) : outcome (loc * Header) :=
  match m with
  | None => Panic PanicNilDeref
  | Some l =>
      match hs !! l with
      | Some h => Ok (l, h)
      | None => Panic PanicNilDeref
      end
  end.

(** A [PacketSetting] is a function run on a packet pointer: it can write
    the packet and the headers, and can panic. *)
Definition PacketSetting : Type := Packet -> headers -> outcome (Packet * headers).

Fixpoint apply_settings (p : Packet) (hs : headers) (settings : list PacketSetting)
  : outcome (Packet * headers) :=
  match settings with
  | [] => Ok (p, hs)
  | f :: settings => '(p, hs) ← f p hs; apply_settings p hs settings
  end.

(** [NewPacket] allocates the header with [new(Header)]. *)
Definition NewPacket (bodyGetting : option BodyGetting)
    (settings : list PacketSetting) (hs : headers) : outcome (Packet * headers) :=
  let h := fresh (dom hs) in
  let hs := <[h := Header_zero]> hs in
  let p := {| PHeader := Some h;
              bodyGetting := bodyGetting;
              HeaderCodec := NilCodecId codec;
              BodyCodec := NilCodecId codec;
              Body := None;
              HeaderLength := 0;
              BodyLength := 0;
              Length := 0;
              next := None |} in
  apply_settings p hs settings.

(** [Reset] keeps the header pointer of the packet and resets the header
    behind it, in place: [p.Header.Reset()] panics when the pointer is
    nil. *)
Definition Packet_Reset (p : Packet) (bodyGetting : option BodyGetting)
    (settings : list PacketSetting) (hs : headers) : outcome (Packet * headers) :=
  '(l, h) ← deref (PHeader p) hs;
  let hs := <[l := Header_Reset h]> hs in
  let p := {| next := None;
              bodyGetting := bodyGetting;
              PHeader := PHeader p;
              Body := None;
              HeaderLength := 0;
              BodyLength := 0;
              Length := 0;
              HeaderCodec := NilCodecId codec;
              BodyCodec := NilCodecId codec |} in
  apply_settings p hs settings.

Definition ResetBodyGetting (p : Packet) (bodyGetting : option BodyGetting)
  : Packet :=
  {| HeaderCodec := HeaderCodec p; BodyCodec := BodyCodec p;
     PHeader := PHeader p; Body := Body p;
     HeaderLength := HeaderLength p; BodyLength := BodyLength p;
     Length := Length p; bodyGetting := bodyGetting; next := next p |}.

Definition set_Body (p : Packet) (b : option V) : Packet :=
  {| HeaderCodec := HeaderCodec p; BodyCodec := BodyCodec p;
     PHeader := PHeader p; Body := b;
     HeaderLength := HeaderLength p; BodyLength := BodyLength p;
     Length := Length p; bodyGetting := bodyGetting p; next := next p |}.

Definition set_PHeader (p : Packet) (h : option loc) : Packet :=
  {| HeaderCodec := HeaderCodec p; BodyCodec := BodyCodec p;
     PHeader := h; Body := Body p;
     HeaderLength := HeaderLength p; BodyLength := BodyLength p;
     Length := Length p; bodyGetting := bodyGetting p; next := next p |}.

Definition set_next (p : Packet) (n : option loc) : Packet :=
  {| HeaderCodec := HeaderCodec p; BodyCodec := BodyCodec p;
     PHeader := PHeader p; Body := Body p;
     HeaderLength := HeaderLength p; BodyLength := BodyLength p;
     Length := Length p; bodyGetting := bodyGetting p; next := n |}.

Definition set_HeaderCodec (p : Packet) (id : byte) : Packet :=
  {| HeaderCodec := id; BodyCodec := BodyCodec p;
     PHeader := PHeader p; Body := Body p;
     HeaderLength := HeaderLength p; BodyLength := BodyLength p;
     Length := Length p; bodyGetting := bodyGetting p; next := next p |}.

Definition set_BodyCodec (p : Packet) (id : byte) : Packet :=
  {| HeaderCodec := HeaderCodec p; BodyCodec := id;
     PHeader := PHeader p; Body := Body p;
     HeaderLength := HeaderLength p; BodyLength := BodyLength p;
     Length := Length p; bodyGetting := bodyGetting p; next := next p |}.

(** [loadBody]: the packet and the headers afterwards, and the value
    returned.  The getter is handed the header pointer as it is. *)
Definition loadBody (p : Packet) (hs : headers)
  : outcome (Packet * headers * option V) :=
  match bodyGetting p with
  | Some g =>
      '(b, hs) ← g (PHeader p) hs;
      Ok (set_Body p b, hs, b)
  | None => Ok (set_Body p None, hs, None)
  end.

(** A method call on a [Codec] that may be the nil interface. *)
Definition Codec_call {A : Type} (c : option Codec) (method : Codec -> A)
  : outcome A :=
  match c with
  | Some c => Ok (method c)
  | None => Panic PanicNilDeref
  end.

Definition getCodecByName (codecName : string) : outcome (option Codec) :=
  let '(c, err) := GetByName codec codecName in
  match err with
  | Some e => Panic (PanicError e)
  | None => Ok c
  end.

(** The setters: the packet they leave and how the call ends. *)
Definition SetHeaderCodecByName (p : Packet) (codecName : string)
  : Packet * outcome unit :=
  match c ← getCodecByName codecName; Codec_call c Codec_Id with
  | Ok id => (set_HeaderCodec p id, Ok tt)
  | Err e => (p, Err e)
  | Panic x => (p, Panic x)
  | OutOfFuel => (p, OutOfFuel)
  end.

Definition SetBodyCodecByName (p : Packet) (codecName : string)
  : Packet * outcome unit :=
  match c ← getCodecByName codecName; Codec_call c Codec_Id with
  | Ok id => (set_BodyCodec p id, Ok tt)
  | Err e => (p, Err e)
  | Panic x => (p, Panic x)
  | OutOfFuel => (p, OutOfFuel)
  end.

Definition codec_name_by_id (id : byte) : outcome string :=
  let '(c, err) := GetById codec id in
  match err with
  | Some _ => Ok EmptyString
  | None => Codec_call c Codec_Name
  end.

Definition HeaderCodecName (p : Packet) : outcome string :=
  codec_name_by_id (HeaderCodec p).

Definition BodyCodecName (p : Packet) : outcome string :=
  codec_name_by_id (BodyCodec p).

Definition WithHeaderCodec (codecName : string) : outcome PacketSetting :=
  let '(c, _) := GetByName codec codecName in
  codecId ← Codec_call c Codec_Id;
  Ok (fun p hs => Ok (set_HeaderCodec p codecId, hs)).

Definition WithBodyCodec (codecName : string) : outcome PacketSetting :=
  c ← getCodecByName codecName;
  codecId ← Codec_call c Codec_Id;
  Ok (fun p hs => Ok (set_BodyCodec p codecId, hs)).

(** [p.Header.Gzip = gzipLevel]: a write through the header pointer. *)
Definition WithBodyGzip (gzipLevel : Z) : PacketSetting :=
  fun p hs =>
    '(l, h) ← deref (PHeader p) hs;
    Ok (p, <[l := set_Gzip h gzipLevel]> hs).

(** [packetStack] and the memory it points into: the allocated packets,
    the allocated headers and the head of the free list.  The mutex is held
    for the whole of [GetPacket] and [PutPacket], so each is one atomic
    step; it is not released when [Reset] panics, so nothing can be done
    with the pool after a panic and the model keeps no state there. *)
Record pool : Type := mkPool {
  heap : gmap loc Packet;
  hdrs : headers;
  freePacket : option loc
}.

Definition pool_empty : pool := mkPool ∅ ∅ None.

Definition GetPacket (bodyGetting : option BodyGetting)
    (settings : list PacketSetting) (w : pool) : outcome (loc * pool) :=
  match freePacket w with
  | None =>
      '(pk, hs) ← NewPacket bodyGetting [] (hdrs w);
      let p := fresh (dom (heap w)) in
      Ok (p, mkPool (<[p := pk]> (heap w)) hs None)
  | Some p =>
      match heap w !! p with
      | None => Panic PanicNilDeref
      | Some pk =>
          '(pk', hs) ← Packet_Reset pk bodyGetting settings (hdrs w);
          Ok (p, mkPool (<[p := pk']> (heap w)) hs (next pk))
      end
  end.

Definition PutPacket (p : loc) (w : pool) : outcome pool :=
  match heap w !! p with
  | None => Panic PanicNilDeref
  | Some pk =>
      Ok (mkPool (<[p := set_next (set_Body pk None) (freePacket w)]> (heap w))
                 (hdrs w) (Some p))
  end.

(** A packet on which nothing has been set, with its header at [h]. *)
Definition blank (bodyGetting : option BodyGetting) (h : loc) : Packet :=
  {| PHeader := Some h;
     bodyGetting := bodyGetting;
     HeaderCodec := NilCodecId codec;
     BodyCodec := NilCodecId codec;
     Body := None;
     HeaderLength := 0;
     BodyLength := 0;
     Length := 0;
     next := None |}.

(** What a caller reads from a packet that has been reset and not written
    to: a header with its six fields at zero, no body, the nil codec id
    twice. *)
Definition reads_blank (pk : Packet) (hs : headers) : Prop :=
  exists l h,
    PHeader pk = Some l /\ hs !! l = Some h
    /\ Seq h = 0 /\ Type_ h = 0 /\ Uri h = [] /\ Gzip h = 0
    /\ StatusCode h = 0 /\ Status h = []
    /\ Body pk = None
    /\ HeaderCodec pk = NilCodecId codec /\ BodyCodec pk = NilCodecId codec.

(** Memory safety of Go: the header pointer of a packet is nil or the
    address of an allocated header, and a function run on a packet frees
    no header. *)
Definition valid (pk : Packet) (hs : headers) : Prop :=
  forall l, PHeader pk = Some l -> is_Some (hs !! l).

Definition setting_ok (f : PacketSetting) : Prop :=
  forall p hs p' hs',
    valid p hs -> f p hs = Ok (p', hs') ->
    dom hs ⊆ dom hs' /\ valid p' hs'.

(** The packets of the free list, from its head. *)
Inductive free_chain (h : gmap loc Packet) : option loc -> list loc -> Prop :=
| free_chain_nil : free_chain h None []
| free_chain_cons p pk fl :
    h !! p = Some pk -> free_chain h (next pk) fl ->
    free_chain h (Some p) (p :: fl).

(** Callers and the pool.  A caller gets a packet from the pool; makes a
    packet of its own, with [NewPacket] or as a literal; writes what it
    likes to a packet it holds - any field, the header pointer included,
    set to nil or to the address of any header - and to any header, its
    own or another packet's; or puts back a packet it holds. *)
Inductive pool_step : pool * gset loc -> pool * gset loc -> Prop :=
| step_get w live bodyGetting settings p w' :
    Forall setting_ok settings ->
    GetPacket bodyGetting settings w = Ok (p, w') ->
    pool_step (w, live) (w', {[p]} ∪ live)
| step_new w live pk hs' :
    dom (hdrs w) ⊆ dom hs' -> valid pk hs' ->
    pool_step (w, live)
      (mkPool (<[fresh (dom (heap w)) := pk]> (heap w)) hs' (freePacket w),
       {[fresh (dom (heap w))]} ∪ live)
| step_use w live p pk pk' hs' :
    p ∈ live -> heap w !! p = Some pk ->
    dom (hdrs w) ⊆ dom hs' -> valid pk' hs' ->
    pool_step (w, live) (mkPool (<[p := pk']> (heap w)) hs' (freePacket w), live)
| step_put w live p w' :
    p ∈ live -> PutPacket p w = Ok w' ->
    pool_step (w, live) (w', live ∖ {[p]}).

Inductive pool_reachable : pool * gset loc -> Prop :=
| reach_init : pool_reachable (pool_empty, ∅)
| reach_step st st' : pool_reachable st -> pool_step st st' -> pool_reachable st'.

Definition pool_inv (st : pool * gset loc) : Prop :=
  exists fl, free_chain (heap (fst st)) (freePacket (fst st)) fl
             /\ NoDup fl
             /\ (forall p, p ∈ fl -> p ∉ snd st)
             /\ (forall p, p ∈ snd st -> is_Some (heap (fst st) !! p))
             /\ (forall p pk, heap (fst st) !! p = Some pk -> valid pk (hdrs (fst st))).

End Packet.

Arguments Packet V : clear implicits.
Arguments BodyGetting V : clear implicits.
Arguments PacketSetting V : clear implicits.
Arguments pool V : clear implicits.

(** ** Examples used below *)

Definition field_number (f : field) : Z :=
  match f with
  | FSeq _ => 1
  | FType _ => 2
  | FUri _ => 3
  | FGzip _ => 4
  | FStatusCode _ => 5
  | FStatus _ => 6
  | FUnknown u => wire_fieldNum u
  end.

(** No field of number [k] occurs in [fs]. *)
Definition absent (k : Z) (fs : list field) : Prop :=
  Forall (fun f => field_number f <> k) fs.

(** seq 7, type 1, uri "/ping", gzip 0, status code 200, status "OK". *)
Definition ping : Header :=
  mkHeader 7 1 [x2f; x70; x69; x6e; x67] 0 200 [x4f; x4b].

(** A group of field number 7 holding a varint and a four-byte field. *)
Definition sample_group : wire_field :=
  WGroup 7 [WVarint 1 300; WFixed32 9 [x01; x02; x03; x04]].

(** A codec package that knows no codec at all. *)
Definition no_codecs : codec_pkg :=
  mkCodecPkg x00
    (fun name => (None, Some (ErrCodecNotFound name)))
    (fun _ => (None, Some (ErrCodecNotFound EmptyString))).

(** A packet literal with a body set directly: no header, no body
    getter. *)
Definition with_body : Packet nat :=
  mkPacket x00 x00 None (Some 1%nat) 0 0 0 None None.

(** A packet in use, its header at address 1, and a pool that holds just
    this packet, with [ping] as its header. *)
Definition held : Packet nat :=
  mkPacket x6a x6a (Some 1%positive) (Some 1%nat) 5 2 7 None None.

Definition held_pool : pool nat :=
  mkPool {[1%positive := held]} {[1%positive := ping]} None.

(** A pool from which two packets have been taken, the first of them
    given a body and the header [ping] and put back: the free list holds
    the first packet, header as written, and a caller holds the second. *)
Definition used_pool : pool nat :=
  mkPool {[1%positive := mkPacket x00 x00 (Some 1%positive) None 0 0 0 None None;
           2%positive := mkPacket x00 x00 (Some 2%positive) None 0 0 0 None None]}
         {[1%positive := ping; 2%positive := Header_zero]} (Some 1%positive).

(** ** Names used in the further properties *)

(** [h] laid over [m]: the fields of [h] that are not zero, and those of
    [m] elsewhere. *)
Definition merge (m h : Header) : Header :=
  mkHeader (if Seq h =? 0 then Seq m else Seq h)
           (if Type_ h =? 0 then Type_ m else Type_ h)
           (if len (Uri h) >? 0 then Uri h else Uri m)
           (if Gzip h =? 0 then Gzip m else Gzip h)
           (if StatusCode h =? 0 then StatusCode m else StatusCode h)
           (if len (Status h) >? 0 then Status h else Status m).

(** Two headers that agree in every field but, possibly, the one of number
    [k]. *)
Definition same_except (k : Z) (a b : Header) : Prop :=
  (k <> 1 -> Seq a = Seq b) /\ (k <> 2 -> Type_ a = Type_ b)
  /\ (k <> 3 -> Uri a = Uri b) /\ (k <> 4 -> Gzip a = Gzip b)
  /\ (k <> 5 -> StatusCode a = StatusCode b) /\ (k <> 6 -> Status a = Status b).

(** The name and the wire type [Unmarshal] expects for field numbers 1 to
    6. *)
Definition field_name (fieldNum : Z) : string :=
  if fieldNum =? 1 then "Seq"
  else if fieldNum =? 2 then "Type"
  else if fieldNum =? 3 then "Uri"
  else if fieldNum =? 4 then "Gzip"
  else if fieldNum =? 5 then "StatusCode"
  else "Status".

Definition field_wire_type (fieldNum : Z) : Z :=
  if (fieldNum =? 3) || (fieldNum =? 6) then 2 else 0.

(** A codec package that knows one codec, "json" with id 0x6a. *)
Definition json_codec : Codec := mkCodec x6a "json".

Definition json_only : codec_pkg :=
  mkCodecPkg x00
    (fun name => if String.eqb name "json" then (Some json_codec, None)
                 else (None, Some (ErrCodecNotFound name)))
    (fun id => if Byte.eqb id x6a then (Some json_codec, None)
               else (None, Some (ErrCodecNotFound EmptyString))).

(** The [n] low bytes of [v], lowest first, and the number a little-endian
    byte string stands for. *)
Fixpoint le_bytes (n : nat) (v : Z) : list byte :=
  match n with
  | O => []
  | S n => uint8 v :: le_bytes n (Z.shiftr v 8)
  end.

Fixpoint le_value (bs : list byte) : Z :=
  match bs with
  | [] => 0
  | b :: bs => u8 b + 256 * le_value bs
  end.

(** A step of [MarshalTo] that panics when the buffer has no room for the
    bytes it is to write. *)
Definition panics_short (f : list byte * Z -> outcome (list byte * Z))
    (bs : list byte) : Prop :=
  forall done junk,
    (length junk < length bs)%nat -> len (done ++ junk) <= MaxInt ->
    f (done ++ junk, len done) = Panic PanicIndex.

(* ===================================================================== *)
(** * Properties *)

(** ** Bytes and wrap-around *)

Lemma u8_range (b : byte) : 0 <= u8 b < 256.
Proof.
  unfold u8. pose proof (Byte.to_N_bounded b) as H.
  apply N.leb_le in H. apply N.leb_le in H. lia.
Qed.

Lemma u8_uint8 (z : Z) : u8 (uint8 z) = z mod 256.
Proof.
  unfold u8, uint8.
  pose proof (Z.mod_pos_bound z 256 eq_refl) as Hr.
  destruct (Byte.of_N (Z.to_N (z mod 256))) as [b|] eqn:E.
  - apply Byte.to_of_N in E. rewrite E. lia.
  - apply Byte.of_N_None_iff in E. lia.
Qed.

Lemma u8_uint8_small (z : Z) : 0 <= z < 256 -> u8 (uint8 z) = z.
Proof. intros H. rewrite u8_uint8. apply Z.mod_small. lia. Qed.

Lemma uint8_u8 (b : byte) : uint8 (u8 b) = b.
Proof.
  unfold uint8, u8. rewrite Z.mod_small by apply (u8_range b).
  rewrite N2Z.id, Byte.of_to_N. reflexivity.
Qed.

Lemma uint64_range (z : Z) : 0 <= uint64 z < 2 ^ 64.
Proof. unfold uint64. apply Z.mod_pos_bound. lia. Qed.

Lemma uint64_small (z : Z) : 0 <= z < 2 ^ 64 -> uint64 z = z.
Proof. intros H. unfold uint64. apply Z.mod_small. lia. Qed.

Lemma int_small (z : Z) : - 2 ^ 63 <= z <= MaxInt -> int z = z.
Proof.
  unfold int, MaxInt. intros H. rewrite Z.mod_small; lia.
Qed.

Lemma int32_small (z : Z) : - 2 ^ 31 <= z < 2 ^ 31 -> int32 z = z.
Proof.
  unfold int32. intros H. rewrite Z.mod_small; lia.
Qed.

Lemma swrap_cases (n z : Z) :
  0 < n ->
  (z mod 2 ^ n < 2 ^ (n - 1) /\ swrap n z = z mod 2 ^ n) \/
  (2 ^ (n - 1) <= z mod 2 ^ n /\ swrap n z = z mod 2 ^ n - 2 ^ n).
Proof.
  intros Hn. unfold swrap.
  assert (Hp : 2 ^ n = 2 * 2 ^ (n - 1)).
  { replace n with (Z.succ (n - 1)) at 1 by lia. apply Z.pow_succ_r. lia. }
  assert (Hm : 0 < 2 ^ (n - 1)) by (apply Z.pow_pos_nonneg; lia).
  pose proof (Z.mod_pos_bound z (2 ^ n) ltac:(lia)) as Hu.
  destruct (Z_lt_le_dec (z mod 2 ^ n) (2 ^ (n - 1))) as [Hlt|Hge]; [left|right];
    (split; [assumption|]).
  - rewrite <- (Zplus_mod_idemp_l z). rewrite Z.mod_small; lia.
  - rewrite <- (Zplus_mod_idemp_l z).
    replace (z mod 2 ^ n + 2 ^ (n - 1))
      with (z mod 2 ^ n - 2 ^ (n - 1) + 1 * 2 ^ n) by lia.
    rewrite Z_mod_plus_full. rewrite Z.mod_small; lia.
Qed.

Lemma testbit_top_false (n u : Z) :
  0 < n -> 0 <= u < 2 ^ (n - 1) -> forall i, n - 1 <= i -> Z.testbit u i = false.
Proof.
  intros Hn Hu i Hi.
  rewrite <- (Z.mod_small u (2 ^ (n - 1))) by lia.
  apply Z.mod_pow2_bits_high. lia.
Qed.

Lemma testbit_swrap (n z i : Z) :
  0 < n -> 0 <= i ->
  Z.testbit (swrap n z) i = Z.testbit z (Z.min i (n - 1)).
Proof.
  intros Hn Hi.
  assert (Hp : 2 ^ n = 2 * 2 ^ (n - 1)).
  { replace n with (Z.succ (n - 1)) at 1 by lia. apply Z.pow_succ_r. lia. }
  assert (Hm : 0 < 2 ^ (n - 1)) by (apply Z.pow_pos_nonneg; lia).
  pose proof (Z.mod_pos_bound z (2 ^ n) ltac:(lia)) as Hu.
  assert (Hlow : forall j, 0 <= j < n ->
            Z.testbit (z mod 2 ^ n) j = Z.testbit z j).
  { intros j Hj. apply Z.mod_pow2_bits_low. lia. }
  destruct (swrap_cases n z Hn) as [[Hlt ->]|[Hge ->]].
  - destruct (Z_lt_le_dec i n) as [Hin|Hin].
    + rewrite Hlow by lia.
      destruct (Z.eq_dec i (n - 1)) as [->|]; [rewrite Z.min_id|rewrite Z.min_l by lia];
        reflexivity.
    + rewrite Z.min_r by lia. rewrite <- (Hlow (n - 1)) by lia.
      rewrite !(testbit_top_false n (z mod 2 ^ n)) by lia. reflexivity.
  - (* negative: the complement of a number below 2^(n-1) *)
    set (c := 2 ^ n - 1 - z mod 2 ^ n).
    assert (Hc : 0 <= c < 2 ^ (n - 1)) by (unfold c; lia).
    assert (Heq : z mod 2 ^ n - 2 ^ n = Z.lnot c).
    { unfold Z.lnot, c. lia. }
    assert (Htop : Z.testbit z (n - 1) = true).
    { rewrite <- Hlow by lia.
      replace (z mod 2 ^ n) with (Z.lnot c + 1 * 2 ^ n) by (unfold Z.lnot, c; lia).
      rewrite <- Z.mod_pow2_bits_low with (n := n) by lia.
      rewrite Z_mod_plus_full. rewrite Z.mod_pow2_bits_low by lia.
      rewrite Z.lnot_spec by lia.
      rewrite (testbit_top_false n c) by lia. reflexivity. }
    destruct (Z_lt_le_dec i n) as [Hin|Hin].
    + rewrite Z.min_l by lia.
      rewrite <- Hlow by lia.
      rewrite <- (Z.mod_pow2_bits_low (z mod 2 ^ n - 2 ^ n) n i) by lia.
      replace (z mod 2 ^ n - 2 ^ n) with (z mod 2 ^ n + (-1) * 2 ^ n) by lia.
      rewrite Z_mod_plus_full. rewrite Z.mod_pow2_bits_low by lia. reflexivity.
    + rewrite Z.min_r by lia. rewrite Htop, Heq.
      rewrite Z.lnot_spec by lia.
      rewrite (testbit_top_false n c) by lia. reflexivity.
Qed.

Lemma swrap_lor_hom (n : Z) : 0 < n -> lor_hom (swrap n).
Proof.
  intros Hn a b. apply Z.bits_inj'. intros i Hi.
  rewrite Z.lor_spec, !testbit_swrap, Z.lor_spec by lia. reflexivity.
Qed.

Lemma int32_lor_hom : lor_hom int32.
Proof. exact (swrap_lor_hom 32 ltac:(lia)). Qed.

Lemma int_lor_hom : lor_hom int.
Proof. exact (swrap_lor_hom 64 ltac:(lia)). Qed.

Lemma uint64_lor_hom : lor_hom uint64.
Proof.
  intros a b. unfold uint64. rewrite <- !Z.land_ones by lia.
  apply Z.land_lor_distr_l.
Qed.

Lemma int32_uint64 (v : Z) : - 2 ^ 31 <= v < 2 ^ 31 -> int32 (uint64 v) = v.
Proof.
  intros Hv. unfold int32, uint64.
  replace (v mod 2 ^ 64 + 2 ^ 31) with ((v + 2 ^ 31) + (v mod 2^64 - v)) by lia.
  assert (H : exists k, v mod 2 ^ 64 - v = k * 2 ^ 32).
  { exists (- (v / 2 ^ 64) * 2 ^ 32).
    pose proof (Z.div_mod v (2 ^ 64) ltac:(lia)). lia. }
  destruct H as [k ->]. rewrite Z_mod_plus_full. rewrite Z.mod_small; lia.
Qed.

(** ** Buffers *)

Lemma len_app {A} (a b : list A) : len (a ++ b) = len a + len b.
Proof. unfold len. rewrite length_app. lia. Qed.

Lemma len_cons {A} (x : A) (a : list A) : len (x :: a) = 1 + len a.
Proof. unfold len. simpl. lia. Qed.

Lemma len_nil {A} : len (@nil A) = 0.
Proof. reflexivity. Qed.

Lemma len_nonneg {A} (a : list A) : 0 <= len a.
Proof. unfold len. lia. Qed.

Create HintDb len discriminated.
#[local] Hint Rewrite @len_app @len_cons @len_nil : len.

Ltac len_tac := autorewrite with len in *; try lia.

Lemma index_middle (pre post : list byte) (b : byte) :
  index (pre ++ b :: post) (len pre) = Ok b.
Proof.
  unfold index. pose proof (len_nonneg pre). len_tac.
  pose proof (len_nonneg post).
  destruct (len pre <? 0) eqn:E1; [lia|].
  destruct (len pre + (1 + len post) <=? len pre) eqn:E2; [lia|]. simpl.
  unfold len. rewrite Nat2Z.id. rewrite list_lookup_middle; reflexivity.
Qed.

Lemma store_middle (pre post : list byte) (old b : byte) :
  store (pre ++ old :: post) (len pre) b = Ok (pre ++ b :: post).
Proof.
  unfold store. pose proof (len_nonneg pre). len_tac.
  pose proof (len_nonneg post).
  destruct (len pre <? 0) eqn:E1; [lia|].
  destruct (len pre + (1 + len post) <=? len pre) eqn:E2; [lia|]. simpl.
  unfold len. rewrite Nat2Z.id.
  rewrite insert_app_r_alt by lia. rewrite Nat.sub_diag. reflexivity.
Qed.

(** ** The varint loop on terminated groups *)

Lemma varint_loop_terminated (conv : Z -> Z) (Hc : lor_hom conv) :
  forall (cs : list byte) (t : byte) (pre post : list byte) (fuel : nat) (k a : Z),
    Forall (fun b => is_cont b = true) cs ->
    is_cont t = false ->
    0 <= k -> 7 * (k + len cs) < 64 ->
    (length cs < fuel)%nat ->
    varint_loop conv fuel (pre ++ cs ++ t :: post) (7 * k) (len pre) (conv a)
    = Ok (conv (Z.lor a (Z.shiftl (varint_value (cs ++ [t])) (7 * k))),
          len pre + len cs + 1).
Proof.
  induction cs as [|c cs IH]; intros t pre post fuel k a Hcs Ht Hk Hlim Hfuel.
  - destruct fuel as [|fuel]; [simpl in Hfuel; lia|].
    simpl. len_tac.
    destruct (64 <=? 7 * k) eqn:E1; [lia|].
    pose proof (len_nonneg post).
    destruct (len pre + (1 + len post) <=? len pre) eqn:E2; [lia|].
    replace (pre ++ t :: post) with (pre ++ [] ++ t :: post) by reflexivity.
    simpl. rewrite index_middle. simpl.
    unfold is_cont in Ht. apply Z.leb_gt in Ht.
    destruct (u8 t <? 128) eqn:E3; [|lia].
    rewrite <- Hc. rewrite Z.shiftl_0_l, Z.lor_0_r. do 2 f_equal. lia.
  - destruct fuel as [|fuel]; [simpl in Hfuel; lia|].
    inversion Hcs as [|? ? Hcc Hcs']; subst.
    pose proof (len_nonneg post). pose proof (len_nonneg cs).
    simpl. len_tac.
    destruct (64 <=? 7 * k) eqn:E1; [lia|].
    destruct (len pre + (1 + (len cs + (1 + len post))) <=? len pre) eqn:E2; [lia|].
    rewrite index_middle. simpl.
    unfold is_cont in Hcc. apply Z.leb_le in Hcc.
    destruct (u8 c <? 128) eqn:E3; [lia|].
    rewrite <- Hc.
    replace (pre ++ c :: cs ++ t :: post) with ((pre ++ [c]) ++ cs ++ t :: post)
      by (rewrite <- app_assoc; reflexivity).
    replace (len pre + 1) with (len (pre ++ [c])) by len_tac.
    replace (7 * k + 7) with (7 * (k + 1)) by lia.
    rewrite IH; try assumption; try lia; [|simpl in Hfuel; lia].
    len_tac. f_equal. f_equal; [|lia]. f_equal.
    rewrite <- Z.lor_assoc. f_equal.
    rewrite Z.shiftl_lor. f_equal.
    rewrite Z.shiftl_shiftl by lia. f_equal. lia.
Qed.

(** ** The bytes of a varint *)

Lemma lor_128 (x : Z) : 0 <= x < 128 -> Z.lor x 128 = x + 128.
Proof.
  intros Hx. symmetry. apply Z.add_nocarry_lor.
  apply Z.bits_inj'. intros i Hi. rewrite Z.land_spec, Z.bits_0.
  destruct (Z.eq_dec i 7) as [->|Hne].
  - rewrite (testbit_top_false 8 x) by lia. reflexivity.
  - change 128 with (2 ^ 7). rewrite Z.pow2_bits_false by lia.
    apply andb_false_r.
Qed.

Lemma land_127 (v : Z) : Z.land v 127 = v mod 128.
Proof. change 127 with (Z.ones 7). rewrite Z.land_ones by lia. reflexivity. Qed.

Lemma split7 (v : Z) : Z.lor (Z.land v 127) (Z.shiftl (Z.shiftr v 7) 7) = v.
Proof.
  apply Z.bits_inj'. intros i Hi.
  rewrite Z.lor_spec, Z.land_spec. change 127 with (Z.ones 7).
  destruct (Z_lt_le_dec i 7) as [Hlt|Hge].
  - rewrite Z.ones_spec_low, Z.shiftl_spec_low by lia.
    rewrite andb_true_r, orb_false_r. reflexivity.
  - rewrite Z.ones_spec_high, Z.shiftl_spec, Z.shiftr_spec by lia.
    rewrite andb_false_r. simpl. f_equal. lia.
Qed.

Lemma shiftr7_bound (v : Z) (n : nat) :
  0 <= v < 2 ^ (7 * (Z.of_nat (S n) + 1)) ->
  0 <= Z.shiftr v 7 < 2 ^ (7 * (Z.of_nat n + 1)).
Proof.
  intros Hv. rewrite Z.shiftr_div_pow2 by lia. split.
  - apply Z.div_pos; lia.
  - apply Z.div_lt_upper_bound; [lia|].
    rewrite <- Z.pow_add_r by lia.
    replace (7 + 7 * (Z.of_nat n + 1)) with (7 * (Z.of_nat (S n) + 1)) by lia.
    lia.
Qed.

Lemma shiftr7_zero (v : Z) : 0 <= v -> (Z.shiftr v 7 =? 0) = negb (2 ^ 7 <=? v).
Proof.
  intros Hv. rewrite Z.shiftr_div_pow2 by lia.
  destruct (2 ^ 7 <=? v) eqn:E; simpl.
  - apply Z.eqb_neq. intros H0.
    apply Z.div_small_iff in H0; lia.
  - apply Z.eqb_eq. apply Z.div_small. lia.
Qed.

(** The groups end in exactly one byte with its high bit clear, and stand
    for the value they were cut from. *)
Lemma varint_bytes_spec (n : nat) :
  forall v, 0 <= v < 2 ^ (7 * (Z.of_nat n + 1)) ->
  exists cs t, varint_bytes n v = cs ++ [t]
    /\ Forall (fun b => is_cont b = true) cs
    /\ is_cont t = false
    /\ (length cs <= n)%nat
    /\ varint_value (cs ++ [t]) = v.
Proof.
  assert (Hlast : forall (m : nat) v, 0 <= v -> (2 ^ 7 <=? v) = false ->
    is_cont (uint8 v) = false /\ varint_value ([] ++ [uint8 v]) = v).
  { intros m v Hv E. apply Z.leb_gt in E.
    assert (Hu : u8 (uint8 v) = v) by (apply u8_uint8_small; lia).
    split.
    - unfold is_cont. rewrite Hu. apply Z.leb_gt. lia.
    - simpl. rewrite Hu, Z.shiftl_0_l, Z.lor_0_r, land_127.
      apply Z.mod_small. lia. }
  induction n as [|n IH]; intros v Hv.
  - assert (E : (2 ^ 7 <=? v) = false) by (apply Z.leb_gt; simpl in Hv; lia).
    exists [], (uint8 v). simpl. rewrite E.
    destruct (Hlast 0%nat v ltac:(lia) E) as [H1 H2].
    repeat split; auto.
  - cbn [varint_bytes]. destruct (2 ^ 7 <=? v) eqn:E.
    + destruct (IH (Z.shiftr v 7) (shiftr7_bound v n Hv))
        as (cs & t & Heq & Hcs & Ht & Hlen & Hval).
      set (c := uint8 (Z.lor (Z.land v 127) 128)).
      assert (Hc : u8 c = v mod 128 + 128).
      { unfold c. pose proof (Z.mod_pos_bound v 128 ltac:(lia)).
        rewrite land_127, lor_128 by lia. apply u8_uint8_small. lia. }
      exists (c :: cs), t. rewrite Heq. repeat split; auto.
      * constructor; [|assumption]. unfold is_cont. rewrite Hc.
        pose proof (Z.mod_pos_bound v 128 ltac:(lia)). apply Z.leb_le. lia.
      * simpl. lia.
      * change ((c :: cs) ++ [t]) with (c :: (cs ++ [t])).
        cbn [varint_value]. rewrite Hval, Hc, land_127.
        replace ((v mod 128 + 128) mod 128) with (v mod 128).
        -- rewrite <- land_127. apply split7.
        -- rewrite <- Zplus_mod_idemp_r. change (128 mod 128) with 0.
           rewrite Z.add_0_r. rewrite Z.mod_mod; lia.
    + exists [], (uint8 v).
      destruct (Hlast 0%nat v ltac:(lia) E) as [H1 H2].
      repeat split; auto. simpl. lia.
Qed.

Lemma varint_bytes_nonempty (n : nat) (v : Z) : (1 <= length (varint_bytes n v))%nat.
Proof. destruct n; simpl; destruct (2 ^ 7 <=? v); simpl; lia. Qed.

Lemma varint_bytes_length (n : nat) (v : Z) :
  0 <= v < 2 ^ (7 * (Z.of_nat n + 1)) ->
  (length (varint_bytes n v) <= n + 1)%nat.
Proof.
  intros Hv. destruct (varint_bytes_spec n v Hv) as (cs & t & -> & _ & _ & Hl & _).
  rewrite length_app. simpl. lia.
Qed.

Lemma sovHeader_loop_spec (n : nat) :
  forall (fuel : nat) (x acc : Z),
    0 <= x < 2 ^ (7 * (Z.of_nat n + 1)) -> (n < fuel)%nat ->
    sovHeader_loop fuel x acc = Ok (acc + len (varint_bytes n x)).
Proof.
  induction n as [|n IH]; intros fuel x acc Hx Hfuel.
  - destruct fuel as [|fuel]; [lia|]. simpl.
    rewrite shiftr7_zero by lia.
    assert (E : (2 ^ 7 <=? x) = false) by (apply Z.leb_gt; simpl in Hx; lia).
    change (128 <=? x) with (2 ^ 7 <=? x). rewrite E. reflexivity.
  - destruct fuel as [|fuel]; [lia|]. cbn [sovHeader_loop varint_bytes].
    rewrite shiftr7_zero by lia. destruct (2 ^ 7 <=? x) eqn:E; simpl negb; cbv iota.
    + rewrite IH; [|apply shiftr7_bound; assumption|lia].
      rewrite len_cons. f_equal. lia.
    + reflexivity.
Qed.

Lemma sovHeader_spec (x : Z) :
  0 <= x < 2 ^ 64 -> sovHeader x = Ok (len (varint x)).
Proof.
  intros Hx. unfold sovHeader, varint.
  rewrite (sovHeader_loop_spec 9); [reflexivity| |lia].
  change (7 * (Z.of_nat 9 + 1)) with 70. lia.
Qed.

(** [encodeVarintHeader] overwrites the next bytes of the buffer with the
    groups and returns the offset behind them. *)
Lemma encodeVarintHeader_loop_spec (n : nat) :
  forall (fuel : nat) (done junk : list byte) (v : Z),
    0 <= v < 2 ^ (7 * (Z.of_nat n + 1)) -> (n <= fuel)%nat ->
    (length (varint_bytes n v) <= length junk)%nat ->
    encodeVarintHeader_loop fuel (done ++ junk) (len done) v
    = Ok (done ++ varint_bytes n v ++ drop (length (varint_bytes n v)) junk,
          len done + len (varint_bytes n v)).
Proof.
  assert (Hlast : forall fuel done junk v, (2 ^ 7 <=? v) = false ->
            (1 <= length junk)%nat ->
            encodeVarintHeader_loop fuel (done ++ junk) (len done) v
            = Ok (done ++ [uint8 v] ++ drop 1 junk, len done + 1)).
  { intros fuel done junk v E Hj. destruct junk as [|j junk]; [simpl in Hj; lia|].
    destruct fuel; simpl; rewrite E; rewrite store_middle; simpl;
      rewrite drop_0; reflexivity. }
  induction n as [|n IH]; intros fuel done junk v Hv Hfuel Hlen.
  - assert (E : (2 ^ 7 <=? v) = false) by (apply Z.leb_gt; simpl in Hv; lia).
    simpl in Hlen |- *. rewrite E in Hlen |- *. simpl in Hlen.
    rewrite Hlast by (assumption || lia). reflexivity.
  - cbn [varint_bytes] in Hlen |- *. destruct (2 ^ 7 <=? v) eqn:E.
    + destruct fuel as [|fuel]; [lia|].
      destruct junk as [|j junk]; [simpl in Hlen; lia|].
      cbn [encodeVarintHeader_loop]. rewrite E. rewrite store_middle. simpl.
      replace (done ++ uint8 (Z.lor (Z.land v 127) 128) :: junk)
        with ((done ++ [uint8 (Z.lor (Z.land v 127) 128)]) ++ junk)
        by (rewrite <- app_assoc; reflexivity).
      replace (len done + 1) with (len (done ++ [uint8 (Z.lor (Z.land v 127) 128)]))
        by len_tac.
      rewrite IH; [|apply shiftr7_bound; assumption|lia|simpl in Hlen; lia].
      rewrite <- app_assoc. len_tac. simpl. f_equal. f_equal. lia.
    + simpl in Hlen. rewrite Hlast by (assumption || lia). reflexivity.
Qed.

Lemma encodeVarintHeader_spec (done junk : list byte) (v : Z) :
  0 <= v < 2 ^ 64 -> (length (varint v) <= length junk)%nat ->
  encodeVarintHeader (done ++ junk) (len done) v
  = Ok (done ++ varint v ++ drop (length (varint v)) junk,
        len done + len (varint v)).
Proof.
  intros Hv Hlen. unfold encodeVarintHeader, varint in *.
  apply encodeVarintHeader_loop_spec; [|lia|assumption].
  change (7 * (Z.of_nat 9 + 1)) with 70. lia.
Qed.

(** ** [MarshalTo] writes the wire bytes *)

Lemma writes_nil (f : list byte * Z -> outcome (list byte * Z)) :
  (forall st, f st = Ok st) -> writes f [].
Proof.
  intros Hf done junk _ _. rewrite Hf. simpl. rewrite drop_0. len_tac.
  f_equal. f_equal. lia.
Qed.

Lemma writes_seq f g a b :
  writes f a -> writes g b -> writes (fun st => st' ← f st; g st') (a ++ b).
Proof.
  intros Hf Hg done junk Hlen Hmax. rewrite length_app in Hlen.
  rewrite Hf by (assumption || lia). simpl.
  replace (done ++ a ++ drop (length a) junk)
    with ((done ++ a) ++ drop (length a) junk) by (rewrite <- app_assoc; reflexivity).
  replace (len done + len a) with (len (done ++ a)) by len_tac.
  rewrite Hg.
  - rewrite drop_drop, <- !app_assoc, length_app. len_tac. f_equal. f_equal. lia.
  - rewrite length_drop. lia.
  - revert Hmax. len_tac. unfold len. rewrite length_drop. lia.
Qed.

Lemma writes_varint_field (tag : byte) (v : Z) :
  writes (put_varint_field tag v) (varint_field tag v).
Proof.
  unfold put_varint_field, varint_field. destruct (v =? 0) eqn:E.
  - apply writes_nil. intros [d i]. reflexivity.
  - intros done junk Hlen Hmax. simpl in Hlen.
    destruct junk as [|j junk]; [simpl in Hlen; lia|].
    rewrite store_middle. simpl.
    replace (done ++ tag :: junk) with ((done ++ [tag]) ++ junk)
      by (rewrite <- app_assoc; reflexivity).
    replace (len done + 1) with (len (done ++ [tag])) by len_tac.
    rewrite encodeVarintHeader_spec; [|apply uint64_range|simpl in Hlen; lia].
    rewrite <- app_assoc. len_tac. simpl. f_equal. f_equal. lia.
Qed.

Lemma copy_at_spec (done junk s : list byte) :
  (length s <= length junk)%nat ->
  copy_at (done ++ junk) (len done) s = Ok (done ++ s ++ drop (length s) junk, len s).
Proof.
  intros Hlen. unfold copy_at, slice_from.
  pose proof (len_nonneg done). pose proof (len_nonneg junk). len_tac.
  destruct (len done <? 0) eqn:E1; [lia|].
  destruct (len done + len junk <? len done) eqn:E2; [lia|]. simpl.
  replace (Z.to_nat (len done)) with (length done) by (unfold len; lia).
  rewrite drop_app_length, take_app_length.
  rewrite Nat.min_r by lia. rewrite firstn_all. reflexivity.
Qed.

Lemma writes_string_field (tag : byte) (s : list byte) :
  writes (put_string_field tag s) (string_field tag s).
Proof.
  unfold put_string_field, string_field. destruct (len s >? 0) eqn:E.
  - intros done junk Hlen Hmax. simpl in Hlen. rewrite length_app in Hlen.
    destruct junk as [|j junk]; [simpl in Hlen; lia|].
    rewrite store_middle. simpl.
    replace (done ++ tag :: junk) with ((done ++ [tag]) ++ junk)
      by (rewrite <- app_assoc; reflexivity).
    replace (len done + 1) with (len (done ++ [tag])) by len_tac.
    assert (Hs : 0 <= len s < 2 ^ 64).
    { revert Hmax. len_tac. unfold len, MaxInt. simpl in Hlen. lia. }
    rewrite uint64_small by assumption.
    rewrite encodeVarintHeader_spec; [|assumption|simpl in Hlen; lia]. simpl.
    replace ((done ++ [tag]) ++ varint (len s) ++ drop (length (varint (len s))) junk)
      with ((done ++ [tag] ++ varint (len s)) ++ drop (length (varint (len s))) junk)
      by (rewrite <- !app_assoc; reflexivity).
    replace (len (done ++ [tag]) + len (varint (len s)))
      with (len (done ++ [tag] ++ varint (len s))) by len_tac.
    rewrite copy_at_spec by (rewrite length_drop; simpl in Hlen; lia). simpl.
    rewrite int_small.
    + rewrite drop_drop, <- !app_assoc. simpl. rewrite length_app.
      replace (length (varint (len s)) + length s)%nat
        with (length s + length (varint (len s)))%nat by lia.
      f_equal. f_equal. len_tac.
    + revert Hmax. len_tac. unfold len, MaxInt in *. simpl in Hlen. lia.
  - apply writes_nil. intros [d i]. reflexivity.
Qed.

Lemma MarshalTo_spec (m : Header) (junk : list byte) :
  (length (wire_bytes m) <= length junk)%nat -> len junk <= MaxInt ->
  MarshalTo m junk
  = Ok (wire_bytes m ++ drop (length (wire_bytes m)) junk, len (wire_bytes m)).
Proof.
  intros Hlen Hmax.
  pose proof (writes_seq _ _ _ _ (writes_varint_field x08 (Seq m))
    (writes_seq _ _ _ _ (writes_varint_field x10 (Type_ m))
    (writes_seq _ _ _ _ (writes_string_field x1a (Uri m))
    (writes_seq _ _ _ _ (writes_varint_field x20 (Gzip m))
    (writes_seq _ _ _ _ (writes_varint_field x28 (StatusCode m))
    (writes_seq _ _ _ _ (writes_string_field x32 (Status m))
    (writes_nil (fun st => Ok st) (fun st => eq_refl)))))))) as H.
  rewrite app_nil_r in H. specialize (H [] junk). simpl in H.
  unfold MarshalTo. apply H; assumption.
Qed.

Lemma Size_varint_step (tag : byte) (v n : Z) :
  0 <= n -> n + len (varint_field tag v) <= MaxInt ->
  (if v =? 0 then Ok n else s ← sovHeader (uint64 v); Ok (int (n + (1 + s))))
  = Ok (n + len (varint_field tag v)).
Proof.
  unfold varint_field. intros Hn Hmax. destruct (v =? 0).
  - f_equal. len_tac.
  - rewrite sovHeader_spec by apply uint64_range. simpl.
    revert Hmax. len_tac. intros Hmax.
    pose proof (len_nonneg (varint (uint64 v))).
    rewrite int_small by (unfold MaxInt in *; lia). reflexivity.
Qed.

Lemma Size_string_step (tag : byte) (s : list byte) (n : Z) :
  0 <= n -> n + len (string_field tag s) <= MaxInt ->
  (if len s >? 0 then s' ← sovHeader (uint64 (len s)); Ok (int (n + (1 + len s + s')))
   else Ok n)
  = Ok (n + len (string_field tag s)).
Proof.
  unfold string_field. intros Hn Hmax. destruct (len s >? 0).
  - revert Hmax. len_tac. intros Hmax.
    pose proof (len_nonneg (varint (len s))). pose proof (len_nonneg s).
    rewrite uint64_small by (unfold MaxInt in *; lia).
    rewrite sovHeader_spec by (unfold MaxInt in *; lia). simpl.
    rewrite int_small by (unfold MaxInt in *; lia). f_equal. lia.
  - f_equal. len_tac.
Qed.

Lemma Size_spec (m : Header) :
  len (wire_bytes m) <= MaxInt -> Size m = Ok (len (wire_bytes m)).
Proof.
  unfold wire_bytes, Size. len_tac.
  pose proof (len_nonneg (varint_field x08 (Seq m))).
  pose proof (len_nonneg (varint_field x10 (Type_ m))).
  pose proof (len_nonneg (string_field x1a (Uri m))).
  pose proof (len_nonneg (varint_field x20 (Gzip m))).
  pose proof (len_nonneg (varint_field x28 (StatusCode m))).
  pose proof (len_nonneg (string_field x32 (Status m))).
  intros Hmax.
  rewrite (Size_varint_step x08) by lia. cbn [mbind outcome_bind].
  rewrite (Size_varint_step x10) by lia. cbn [mbind outcome_bind].
  rewrite (Size_string_step x1a) by lia. cbn [mbind outcome_bind].
  rewrite (Size_varint_step x20) by lia. cbn [mbind outcome_bind].
  rewrite (Size_varint_step x28) by lia. cbn [mbind outcome_bind].
  rewrite (Size_string_step x32) by lia. cbn [mbind outcome_bind].
  f_equal. lia.
Qed.

(** [Marshal] returns exactly the wire bytes. *)
Lemma Marshal_spec (m : Header) :
  len (wire_bytes m) <= MaxInt -> Marshal m = Ok (wire_bytes m).
Proof.
  intros Hmax. unfold Marshal. rewrite Size_spec by assumption.
  cbn [mbind outcome_bind]. unfold make.
  pose proof (len_nonneg (wire_bytes m)).
  destruct (len (wire_bytes m) <? 0) eqn:E; [lia|]. cbn [mbind outcome_bind].
  replace (Z.to_nat (len (wire_bytes m))) with (length (wire_bytes m))
    by (unfold len; lia).
  rewrite MarshalTo_spec.
  - cbn [mbind outcome_bind]. unfold slice_to.
    rewrite drop_ge by (rewrite length_replicate; lia).
    rewrite app_nil_r. rewrite E.
    destruct (len (wire_bytes m) <? len (wire_bytes m)) eqn:E2; [lia|]. simpl.
    replace (Z.to_nat (len (wire_bytes m))) with (length (wire_bytes m))
      by (unfold len; lia).
    rewrite firstn_all. reflexivity.
  - rewrite length_replicate. lia.
  - unfold len. rewrite length_replicate. unfold len in Hmax. lia.
Qed.

(** ** Decoding what was encoded *)

Lemma varint_loop_start (conv : Z -> Z) (Hc : lor_hom conv) (H0 : conv 0 = 0)
    (cs : list byte) (t : byte) (pre post : list byte) :
  Forall (fun b => is_cont b = true) cs -> is_cont t = false ->
  (length cs <= 9)%nat ->
  varint_loop conv 10 (pre ++ cs ++ t :: post) 0 (len pre) 0
  = Ok (conv (varint_value (cs ++ [t])), len pre + len cs + 1).
Proof.
  intros Hcs Ht Hlen.
  pose proof (varint_loop_terminated conv Hc cs t pre post 10 0 0 Hcs Ht) as H.
  rewrite H0 in H. change (7 * 0) with 0 in H.
  rewrite Z.shiftl_0_r, Z.lor_0_l in H. apply H; unfold len; lia.
Qed.

Lemma varint_loop_varint (conv : Z -> Z) (Hc : lor_hom conv) (H0 : conv 0 = 0)
    (v : Z) (pre post : list byte) :
  0 <= v < 2 ^ 64 ->
  varint_loop conv 10 (pre ++ varint v ++ post) 0 (len pre) 0
  = Ok (conv v, len pre + len (varint v)).
Proof.
  intros Hv. unfold varint.
  destruct (varint_bytes_spec 9 v) as (cs & t & -> & Hcs & Ht & Hlen & Hval).
  { change (7 * (Z.of_nat 9 + 1)) with 70. lia. }
  replace (pre ++ (cs ++ [t]) ++ post) with (pre ++ cs ++ t :: post)
    by (rewrite <- (app_assoc cs); reflexivity).
  rewrite varint_loop_start by assumption.
  rewrite Hval. len_tac. f_equal. f_equal. lia.
Qed.

Lemma varint_uint64_varint (v : Z) (pre post : list byte) :
  0 <= v < 2 ^ 64 ->
  varint_uint64 (pre ++ varint v ++ post) (len pre)
  = Ok (v, len pre + len (varint v)).
Proof.
  intros Hv. unfold varint_uint64.
  rewrite (varint_loop_varint uint64 uint64_lor_hom eq_refl) by assumption.
  rewrite uint64_small by assumption. reflexivity.
Qed.

Lemma varint_int32_varint (v : Z) (pre post : list byte) :
  - 2 ^ 31 <= v < 2 ^ 31 ->
  varint_int32 (pre ++ varint (uint64 v) ++ post) (len pre)
  = Ok (v, len pre + len (varint (uint64 v))).
Proof.
  intros Hv. unfold varint_int32.
  rewrite (varint_loop_varint int32 int32_lor_hom eq_refl) by apply uint64_range.
  rewrite int32_uint64 by assumption. reflexivity.
Qed.

Lemma varint_int_varint (v : Z) (pre post : list byte) :
  0 <= v <= MaxInt ->
  varint_int (pre ++ varint v ++ post) (len pre)
  = Ok (v, len pre + len (varint v)).
Proof.
  intros Hv. unfold varint_int.
  rewrite (varint_loop_varint int int_lor_hom eq_refl) by (unfold MaxInt in Hv; lia).
  rewrite int_small by (unfold MaxInt in *; lia). reflexivity.
Qed.

Lemma slice_middle (pre s post : list byte) :
  len (pre ++ s ++ post) <= MaxInt ->
  slice (pre ++ s ++ post) (len pre) (len pre + len s) = Ok s.
Proof.
  intros Hmax. unfold slice.
  pose proof (len_nonneg pre). pose proof (len_nonneg s). pose proof (len_nonneg post).
  len_tac.
  destruct (len pre <? 0) eqn:E1; [lia|].
  destruct (len pre + len s <? len pre) eqn:E2; [lia|].
  destruct (len pre + (len s + len post) <? len pre + len s) eqn:E3; [lia|].
  simpl.
  replace (Z.to_nat (len pre)) with (length pre) by (unfold len; lia).
  replace (Z.to_nat (len pre + len s - len pre)) with (length s) by (unfold len; lia).
  rewrite drop_app_length, take_app_length. reflexivity.
Qed.

Lemma slice_from_middle (pre post : list byte) :
  slice_from (pre ++ post) (len pre) = Ok post.
Proof.
  unfold slice_from.
  pose proof (len_nonneg pre). pose proof (len_nonneg post). len_tac.
  destruct (len pre <? 0) eqn:E1; [lia|].
  destruct (len pre + len post <? len pre) eqn:E2; [lia|]. simpl.
  replace (Z.to_nat (len pre)) with (length pre) by (unfold len; lia).
  rewrite drop_app_length. reflexivity.
Qed.

Lemma read_string_spec (s pre post : list byte) :
  len (pre ++ varint (len s) ++ s ++ post) <= MaxInt ->
  read_string (pre ++ varint (len s) ++ s ++ post) (len pre)
  = Ok (s, len pre + len (varint (len s)) + len s).
Proof.
  intros Hmax. unfold read_string.
  pose proof (len_nonneg pre). pose proof (len_nonneg s). pose proof (len_nonneg post).
  pose proof (len_nonneg (varint (len s))).
  assert (Hs : 0 <= len s <= MaxInt) by (revert Hmax; len_tac).
  rewrite varint_uint64_varint by (unfold MaxInt in Hs; lia).
  cbn [mbind outcome_bind].
  rewrite (int_small (len s)) by (unfold MaxInt in *; lia).
  destruct (len s <? 0) eqn:E1; [lia|].
  rewrite int_small by (revert Hmax; len_tac; unfold MaxInt; lia).
  destruct (len pre + len (varint (len s)) + len s >? len (pre ++ varint (len s) ++ s ++ post)) eqn:E2.
  { revert E2. len_tac. }
  replace (pre ++ varint (len s) ++ s ++ post)
    with ((pre ++ varint (len s)) ++ s ++ post) by (rewrite <- app_assoc; reflexivity).
  replace (len pre + len (varint (len s))) with (len (pre ++ varint (len s))) by len_tac.
  rewrite slice_middle; [reflexivity|].
  rewrite <- app_assoc. assumption.
Qed.

(** ** One turn of the decoding loop on a field of the header *)

Lemma Unmarshal_field_Seq dAtA m i i1 i2 v :
  varint_uint64 dAtA i = Ok (8, i1) -> varint_uint64 dAtA i1 = Ok (v, i2) ->
  Unmarshal_field dAtA m i = Ok (set_Seq m v, i2).
Proof. intros H1 H2. unfold Unmarshal_field. rewrite H1. simpl. rewrite H2. reflexivity. Qed.

Lemma Unmarshal_field_Type dAtA m i i1 i2 v :
  varint_uint64 dAtA i = Ok (16, i1) -> varint_int32 dAtA i1 = Ok (v, i2) ->
  Unmarshal_field dAtA m i = Ok (set_Type m v, i2).
Proof. intros H1 H2. unfold Unmarshal_field. rewrite H1. simpl. rewrite H2. reflexivity. Qed.

Lemma Unmarshal_field_Uri dAtA m i i1 i2 s :
  varint_uint64 dAtA i = Ok (26, i1) -> read_string dAtA i1 = Ok (s, i2) ->
  Unmarshal_field dAtA m i = Ok (set_Uri m s, i2).
Proof. intros H1 H2. unfold Unmarshal_field. rewrite H1. simpl. rewrite H2. reflexivity. Qed.

Lemma Unmarshal_field_Gzip dAtA m i i1 i2 v :
  varint_uint64 dAtA i = Ok (32, i1) -> varint_int32 dAtA i1 = Ok (v, i2) ->
  Unmarshal_field dAtA m i = Ok (set_Gzip m v, i2).
Proof. intros H1 H2. unfold Unmarshal_field. rewrite H1. simpl. rewrite H2. reflexivity. Qed.

Lemma Unmarshal_field_StatusCode dAtA m i i1 i2 v :
  varint_uint64 dAtA i = Ok (40, i1) -> varint_int32 dAtA i1 = Ok (v, i2) ->
  Unmarshal_field dAtA m i = Ok (set_StatusCode m v, i2).
Proof. intros H1 H2. unfold Unmarshal_field. rewrite H1. simpl. rewrite H2. reflexivity. Qed.

Lemma Unmarshal_field_Status dAtA m i i1 i2 s :
  varint_uint64 dAtA i = Ok (50, i1) -> read_string dAtA i1 = Ok (s, i2) ->
  Unmarshal_field dAtA m i = Ok (set_Status m s, i2).
Proof. intros H1 H2. unfold Unmarshal_field. rewrite H1. simpl. rewrite H2. reflexivity. Qed.

(** A one-byte tag. *)
Lemma tag_step (t : byte) (w : Z) (pre post : list byte) :
  varint w = [t] -> 0 <= w < 2 ^ 64 ->
  varint_uint64 (pre ++ t :: post) (len pre) = Ok (w, len pre + 1).
Proof.
  intros Ht Hw.
  pose proof (varint_uint64_varint w pre post Hw) as H.
  rewrite Ht in H. exact H.
Qed.

Lemma after_tag (t : byte) (pre rest : list byte) :
  pre ++ t :: rest = (pre ++ [t]) ++ rest /\ len pre + 1 = len (pre ++ [t]).
Proof. split; [rewrite <- app_assoc; reflexivity|len_tac]. Qed.

Lemma is_int32_range (v : Z) : is_int32 v = true -> - 2 ^ 31 <= v < 2 ^ 31.
Proof. unfold is_int32. lia. Qed.

Lemma varint_field_step (t : byte) (w v : Z) (pre post : list byte) (m : Header)
    (m' : Z -> Header) :
  varint w = [t] -> 0 <= w < 2 ^ 64 ->
  (forall dAtA i i1 i2 x,
     varint_uint64 dAtA i = Ok (w, i1) -> varint_int32 dAtA i1 = Ok (x, i2) ->
     Unmarshal_field dAtA m i = Ok (m' x, i2)) ->
  - 2 ^ 31 <= v < 2 ^ 31 ->
  Unmarshal_field (pre ++ (t :: varint (uint64 v)) ++ post) m (len pre)
  = Ok (m' v, len pre + len (t :: varint (uint64 v))).
Proof.
  intros Ht Hw Hf Hv. cbn [app].
  eapply eq_trans; [eapply Hf|].
  - apply tag_step; eassumption.
  - destruct (after_tag t pre (varint (uint64 v) ++ post)) as [-> ->].
    apply varint_int32_varint. assumption.
  - len_tac. f_equal. f_equal. lia.
Qed.

Lemma string_field_step (t : byte) (w : Z) (s pre post : list byte) (m : Header)
    (set : list byte -> Header) :
  varint w = [t] -> 0 <= w < 2 ^ 64 ->
  (forall dAtA i i1 i2 x,
     varint_uint64 dAtA i = Ok (w, i1) -> read_string dAtA i1 = Ok (x, i2) ->
     Unmarshal_field dAtA m i = Ok (set x, i2)) ->
  len (pre ++ (t :: varint (len s) ++ s) ++ post) <= MaxInt ->
  Unmarshal_field (pre ++ (t :: varint (len s) ++ s) ++ post) m (len pre)
  = Ok (set s, len pre + len (t :: varint (len s) ++ s)).
Proof.
  intros Ht Hw Hf Hmax. cbn [app] in *. rewrite <- app_assoc in *.
  eapply eq_trans; [eapply Hf|].
  - apply tag_step; eassumption.
  - destruct (after_tag t pre (varint (len s) ++ s ++ post)) as [He ->].
    rewrite He in *. apply read_string_spec. assumption.
  - len_tac. f_equal. f_equal. lia.
Qed.

(** ** Stepping over a field of an unknown number *)

Ltac if_false :=
  match goal with
  | |- (if ?c then _ else _) = _ =>
      let E := fresh "E" in destruct c eqn:E; [exfalso; lia|clear E]
  end.

Ltac split_andb :=
  repeat match goal with
         | H : _ && _ = true |- _ => apply andb_true_iff in H; destruct H
         end.

Ltac if_true :=
  match goal with
  | |- (if ?c then _ else _) = _ =>
      let E := fresh "E" in destruct c eqn:E; [clear E|exfalso; lia]
  end.

Lemma tag_value (fn wt : Z) :
  0 <= fn -> 0 <= wt < 8 -> Z.lor (Z.shiftl fn 3) wt = 8 * fn + wt.
Proof.
  intros Hfn Hwt. rewrite Z.shiftl_mul_pow2 by lia.
  replace (8 * fn) with (fn * 2 ^ 3) by lia.
  symmetry. apply Z.add_nocarry_lor.
  apply Z.bits_inj'. intros i Hi. rewrite Z.land_spec, Z.bits_0.
  destruct (Z_lt_le_dec i 3) as [Hlt|Hge].
  - rewrite Z.mul_pow2_bits_low by lia. reflexivity.
  - rewrite (testbit_top_false 4 wt) by lia. apply andb_false_r.
Qed.

Lemma tag_split (fn wt : Z) :
  0 <= fn -> 0 <= wt < 8 ->
  Z.shiftr (8 * fn + wt) 3 = fn /\ Z.land (8 * fn + wt) 7 = wt.
Proof.
  intros Hfn Hwt. split.
  - rewrite Z.shiftr_div_pow2 by lia. change (2 ^ 3) with 8.
    symmetry. apply (Z.div_unique _ 8 fn wt); lia.
  - change 7 with (Z.ones 3). rewrite Z.land_ones by lia. change (2 ^ 3) with 8.
    symmetry. apply (Z.mod_unique _ 8 fn wt); lia.
Qed.

Lemma fieldNum_ok_range (fn : Z) : fieldNum_ok fn = true -> 0 <= fn < 2 ^ 61.
Proof. unfold fieldNum_ok. lia. Qed.

Lemma tag_bytes_decode (fn wt : Z) (pre post : list byte) :
  fieldNum_ok fn = true -> 0 <= wt < 8 ->
  varint_uint64 (pre ++ tag_bytes fn wt ++ post) (len pre)
  = Ok (8 * fn + wt, len pre + len (tag_bytes fn wt)).
Proof.
  intros Hfn Hwt. apply fieldNum_ok_range in Hfn.
  unfold tag_bytes. rewrite tag_value by lia.
  apply varint_uint64_varint. lia.
Qed.

Lemma tag_bytes_nonempty (fn wt : Z) : 1 <= len (tag_bytes fn wt).
Proof.
  unfold tag_bytes, varint, len.
  pose proof (varint_bytes_nonempty 9 (Z.lor (Z.shiftl fn 3) wt)). lia.
Qed.

Lemma skip_varint_loop_terminated :
  forall (cs : list byte) (t : byte) (pre post : list byte) (fuel : nat) (k : Z),
    Forall (fun b => is_cont b = true) cs ->
    is_cont t = false ->
    0 <= k -> 7 * (k + len cs) < 64 ->
    (length cs < fuel)%nat ->
    skip_varint_loop fuel (pre ++ cs ++ t :: post) (7 * k) (len pre)
    = Ok (len pre + len cs + 1).
Proof.
  induction cs as [|c cs IH]; intros t pre post fuel k Hcs Ht Hk Hlim Hfuel;
    (destruct fuel as [|fuel]; [simpl in Hfuel; lia|]);
    pose proof (len_nonneg post); pose proof (len_nonneg pre).
  - cbn [skip_varint_loop app]. len_tac. if_false. if_false.
    replace (len pre + 1 - 1) with (len pre) by lia.
    rewrite index_middle. cbn [mbind outcome_bind].
    unfold is_cont in Ht. if_true. f_equal. lia.
  - inversion Hcs as [|? ? Hcc Hcs']; subst. pose proof (len_nonneg cs).
    cbn [skip_varint_loop app]. len_tac. if_false. if_false.
    replace (len pre + 1 - 1) with (len pre) by lia.
    rewrite index_middle. cbn [mbind outcome_bind].
    unfold is_cont in Hcc. if_false.
    replace (pre ++ c :: cs ++ t :: post) with ((pre ++ [c]) ++ cs ++ t :: post)
      by (rewrite <- app_assoc; reflexivity).
    replace (len pre + 1) with (len (pre ++ [c])) by len_tac.
    replace (7 * k + 7) with (7 * (k + 1)) by lia.
    rewrite IH; try assumption; try lia; [|simpl in Hfuel; lia].
    len_tac. f_equal. lia.
Qed.

Lemma skip_varint_varint (v : Z) (pre post : list byte) :
  0 <= v < 2 ^ 64 ->
  skip_varint (pre ++ varint v ++ post) (len pre) = Ok (len pre + len (varint v)).
Proof.
  intros Hv. unfold varint, skip_varint.
  destruct (varint_bytes_spec 9 v) as (cs & t & -> & Hcs & Ht & Hlen & Hval).
  { change (7 * (Z.of_nat 9 + 1)) with 70. lia. }
  replace (pre ++ (cs ++ [t]) ++ post) with (pre ++ cs ++ t :: post)
    by (rewrite <- (app_assoc cs); reflexivity).
  pose proof (skip_varint_loop_terminated cs t pre post 10 0 Hcs Ht) as H.
  change (7 * 0) with 0 in H. rewrite H by (unfold len; lia).
  len_tac. f_equal. lia.
Qed.

Lemma wire_field_bytes_tag (u : wire_field) :
  exists rest, wire_field_bytes u
               = tag_bytes (wire_fieldNum u) (wire_type u) ++ rest.
Proof. destruct u; simpl; eexists; reflexivity. Qed.

Lemma wire_type_cases (u : wire_field) :
  0 <= wire_type u < 8 /\ wire_type u <> 4.
Proof. destruct u; simpl; lia. Qed.

Lemma wire_field_ok_fieldNum (u : wire_field) :
  wire_field_ok u = true -> fieldNum_ok (wire_fieldNum u) = true.
Proof.
  destruct u; simpl; intros H; split_andb; assumption.
Qed.

(** Induction on fields that reaches into the body of a group. *)
Section wire_field_induction.

Variable P : wire_field -> Prop.
Hypothesis HVarint : forall fn v, P (WVarint fn v).
Hypothesis HFixed64 : forall fn p, P (WFixed64 fn p).
Hypothesis HBytes : forall fn p, P (WBytes fn p).
Hypothesis HGroup : forall fn body, Forall P body -> P (WGroup fn body).
Hypothesis HFixed32 : forall fn p, P (WFixed32 fn p).

Fixpoint wire_field_nested_ind (u : wire_field) : P u :=
  match u with
  | WVarint fn v => HVarint fn v
  | WFixed64 fn p => HFixed64 fn p
  | WBytes fn p => HBytes fn p
  | WGroup fn body =>
      HGroup fn body
        ((fix go (l : list wire_field) : Forall P l :=
            match l with
            | [] => Forall_nil_2 P
            | x :: l' => Forall_cons_2 P x l' (wire_field_nested_ind x) (go l')
            end) body)
  | WFixed32 fn p => HFixed32 fn p
  end.

End wire_field_induction.

Lemma skipHeader_fuel_tag (fuel : nat) (fn wt : Z) (rest : list byte) :
  fieldNum_ok fn = true -> 0 <= wt < 8 ->
  skipHeader_fuel (S fuel) (tag_bytes fn wt ++ rest)
  = (let iNdEx := len (tag_bytes fn wt) in
     let dAtA := tag_bytes fn wt ++ rest in
     if wt =? 0 then skip_varint dAtA iNdEx
     else if wt =? 1 then Ok (int (iNdEx + 8))
     else if wt =? 2 then
       '(length, iNdEx) ← varint_int dAtA iNdEx;
       let iNdEx := int (iNdEx + length) in
       if length <? 0 then Err ErrInvalidLengthHeader else Ok iNdEx
     else if wt =? 3 then skipGroup fuel dAtA iNdEx
     else if wt =? 4 then Ok iNdEx
     else if wt =? 5 then Ok (int (iNdEx + 4))
     else Err (ErrIllegalWireType wt)).
Proof.
  intros Hfn Hwt. cbn [skipHeader_fuel].
  pose proof (tag_bytes_nonempty fn wt). pose proof (len_nonneg rest).
  rewrite len_app. if_true.
  pose proof (tag_bytes_decode fn wt [] rest Hfn Hwt) as Ht.
  cbn [app] in Ht. rewrite len_nil in Ht. rewrite Ht. cbn [mbind outcome_bind].
  apply fieldNum_ok_range in Hfn.
  rewrite (proj2 (tag_split fn wt ltac:(lia) Hwt)).
  rewrite (int_small wt) by (unfold MaxInt; lia).
  rewrite Z.add_0_l. reflexivity.
Qed.

Lemma skipGroup_body (fn : Z) (post : list byte) :
  fieldNum_ok fn = true ->
  forall body, Forall skips body -> forallb wire_field_ok body = true ->
  forall (pre : list byte) (fuel : nat),
    (group_need body <= fuel)%nat ->
    len (pre ++ concat (map wire_field_bytes body) ++ tag_bytes fn 4 ++ post) <= MaxInt ->
    skipGroup fuel (pre ++ concat (map wire_field_bytes body) ++ tag_bytes fn 4 ++ post)
      (len pre)
    = Ok (len pre + len (concat (map wire_field_bytes body)) + len (tag_bytes fn 4)).
Proof.
  intros Hfn. induction body as [|u us IH]; intros HP Hok pre fuel Hfuel Hmax.
  - destruct fuel as [|fuel]; [simpl in Hfuel; lia|].
    cbn [skipGroup map concat app].
    rewrite tag_bytes_decode by (assumption || lia). cbn [mbind outcome_bind].
    apply fieldNum_ok_range in Hfn.
    rewrite (proj2 (tag_split fn 4 ltac:(lia) ltac:(lia))).
    change (int 4 =? 4) with true. cbv iota. len_tac. f_equal. lia.
  - destruct fuel as [|fuel]; [simpl in Hfuel; lia|].
    inversion HP as [|? ? Hu Hus]; subst.
    cbn [forallb] in Hok. apply andb_true_iff in Hok. destruct Hok as [Hoku Hokus].
    unfold group_need in Hfuel. cbn [fold_right] in Hfuel.
    fold (group_need us) in Hfuel.
    cbn [skipGroup map concat]. rewrite <- app_assoc.
    destruct (wire_field_bytes_tag u) as [rest Hrest].
    destruct (wire_type_cases u) as [Hwt Hwt4].
    pose proof (wire_field_ok_fieldNum u Hoku) as Hfu.
    rewrite Hrest at 1. rewrite <- app_assoc.
    rewrite tag_bytes_decode by assumption. cbn [mbind outcome_bind].
    pose proof (fieldNum_ok_range _ Hfu) as Hfr.
    rewrite (proj2 (tag_split (wire_fieldNum u) (wire_type u) ltac:(lia) Hwt)).
    rewrite (int_small (wire_type u)) by (unfold MaxInt; lia).
    if_false.
    rewrite slice_from_middle. cbn [mbind outcome_bind].
    assert (Hmax' : len (pre ++ wire_field_bytes u
               ++ concat (map wire_field_bytes us) ++ tag_bytes fn 4 ++ post) <= MaxInt).
    { revert Hmax. cbn [map concat]. rewrite <- app_assoc. trivial. }
    pose proof (len_nonneg pre). pose proof (len_nonneg (wire_field_bytes u)).
    rewrite Hu; [|assumption|lia|revert Hmax'; len_tac].
    cbn [mbind outcome_bind].
    rewrite int_small by (revert Hmax'; len_tac;
      pose proof (len_nonneg (concat (map wire_field_bytes us)));
      pose proof (len_nonneg (tag_bytes fn 4)); pose proof (len_nonneg post);
      unfold MaxInt; lia).
    replace (len pre + len (wire_field_bytes u)) with (len (pre ++ wire_field_bytes u))
      by len_tac.
    rewrite (app_assoc pre).
    rewrite IH; [|assumption|assumption|lia|rewrite <- app_assoc; assumption].
    len_tac. f_equal. lia.
Qed.

Lemma skipHeader_fuel_field (u : wire_field) : skips u.
Proof.
  induction u as [fn v|fn p|fn p|fn body IH|fn p] using wire_field_nested_ind;
    intros Hok fuel post Hfuel Hmax;
    (destruct fuel as [|fuel]; [simpl in Hfuel; lia|]);
    cbn [wire_field_bytes wire_field_ok] in *; split_andb;
    repeat rewrite <- app_assoc in *;
    rewrite skipHeader_fuel_tag by (assumption || lia); cbv zeta;
    cbn [Z.eqb Pos.eqb];
    pose proof (len_nonneg (tag_bytes fn 0)); pose proof (len_nonneg post).
  - pose proof (skip_varint_varint v (tag_bytes fn 0) post ltac:(lia)) as Hsk.
    rewrite Hsk. len_tac. reflexivity.
  - revert Hmax. len_tac. intros Hmax.
    pose proof (len_nonneg (tag_bytes fn 1)).
    assert (Hp : len p = 8).
    { match goal with H : (length p =? _)%nat = true |- _ =>
        apply Nat.eqb_eq in H; unfold len; lia end. }
    rewrite int_small by (unfold MaxInt in *; lia).
    f_equal. lia.
  - assert (Hp : 0 <= len p <= MaxInt).
    { pose proof (len_nonneg p). pose proof (len_nonneg (tag_bytes fn 2)).
      pose proof (len_nonneg (varint (len p))). revert Hmax. len_tac. }
    rewrite varint_int_varint by assumption. cbn [mbind outcome_bind].
    if_false. revert Hmax. len_tac. intros Hmax.
    pose proof (len_nonneg (tag_bytes fn 2)). pose proof (len_nonneg (varint (len p))).
    rewrite int_small by (unfold MaxInt in *; lia). f_equal. lia.
  - pose proof (skipGroup_body fn post ltac:(assumption) body IH ltac:(assumption)
                  (tag_bytes fn 3) fuel) as Hsk.
    rewrite Hsk; [len_tac; f_equal; lia| |assumption].
    cbn [skip_need] in Hfuel. unfold group_need. lia.
  - revert Hmax. len_tac. intros Hmax.
    pose proof (len_nonneg (tag_bytes fn 5)).
    assert (Hp : len p = 4).
    { match goal with H : (length p =? _)%nat = true |- _ =>
        apply Nat.eqb_eq in H; unfold len; lia end. }
    rewrite int_small by (unfold MaxInt in *; lia).
    f_equal. lia.
Qed.

Lemma tag_bytes_length (fn wt : Z) : (1 <= length (tag_bytes fn wt))%nat.
Proof. apply varint_bytes_nonempty. Qed.

Lemma skip_need_bound (u : wire_field) :
  (1 <= length (wire_field_bytes u))%nat
  /\ (skip_need u <= 2 * length (wire_field_bytes u))%nat.
Proof.
  induction u as [fn v|fn p|fn p|fn body IH|fn p] using wire_field_nested_ind;
    cbn [wire_field_bytes skip_need]; rewrite ?length_app;
    try (pose proof (tag_bytes_length fn 0); pose proof (tag_bytes_length fn 1);
         pose proof (tag_bytes_length fn 2); pose proof (tag_bytes_length fn 5); lia).
  pose proof (tag_bytes_length fn 3). pose proof (tag_bytes_length fn 4).
  fold (group_need body).
  assert (Hg : (group_need body <= 2 * length (concat (map wire_field_bytes body)) + 1)%nat).
  { induction IH as [|u us [Hu1 Hu2] _ IHus]; [simpl; lia|].
    unfold group_need in *. cbn [fold_right map concat]. rewrite length_app. lia. }
  lia.
Qed.

Lemma skipHeader_field (u : wire_field) (post : list byte) :
  wire_field_ok u = true ->
  len (wire_field_bytes u ++ post) <= MaxInt ->
  skipHeader (wire_field_bytes u ++ post) = Ok (len (wire_field_bytes u)).
Proof.
  intros Hok Hmax. unfold skipHeader.
  apply skipHeader_fuel_field; [assumption| |assumption].
  rewrite length_app. pose proof (skip_need_bound u). lia.
Qed.

Lemma Unmarshal_field_unknown (u : wire_field) (pre post : list byte) (m : Header) :
  field_ok (FUnknown u) = true ->
  len (pre ++ wire_field_bytes u ++ post) <= MaxInt ->
  Unmarshal_field (pre ++ wire_field_bytes u ++ post) m (len pre)
  = Ok (m, len pre + len (wire_field_bytes u)).
Proof.
  intros Hok Hmax. cbn [field_ok] in Hok. split_andb.
  pose proof (wire_field_ok_fieldNum u ltac:(assumption)) as Hfu.
  destruct (wire_field_bytes_tag u) as [rest Hrest].
  destruct (wire_type_cases u) as [Hwt Hwt4].
  pose proof (len_nonneg pre). pose proof (len_nonneg post).
  pose proof (len_nonneg (wire_field_bytes u)).
  unfold Unmarshal_field. rewrite Hrest at 1. rewrite <- app_assoc.
  rewrite tag_bytes_decode by assumption. cbn [mbind outcome_bind].
  destruct (tag_split (wire_fieldNum u) (wire_type u) ltac:(lia) Hwt) as [-> ->].
  rewrite (int_small (wire_type u)) by (unfold MaxInt; lia).
  rewrite (int32_small (wire_fieldNum u)) by lia.
  do 2 if_false. repeat if_false.
  rewrite slice_from_middle. cbn [mbind outcome_bind].
  rewrite skipHeader_field by (assumption || revert Hmax; len_tac).
  cbn [mbind outcome_bind]. if_false.
  rewrite int_small by (revert Hmax; len_tac; unfold MaxInt; lia).
  destruct (len pre + len (wire_field_bytes u) >? len (pre ++ wire_field_bytes u ++ post)) eqn:E.
  { revert E. len_tac. }
  reflexivity.
Qed.

(** One turn of the loop consumes one well-formed field and applies it. *)
Lemma Unmarshal_field_step (f : field) (pre post : list byte) (m : Header) :
  field_ok f = true ->
  len (pre ++ field_bytes f ++ post) <= MaxInt ->
  Unmarshal_field (pre ++ field_bytes f ++ post) m (len pre)
  = Ok (apply_field m f, len pre + len (field_bytes f)).
Proof.
  intros Hok Hmax.
  destruct f as [v|v|s|v|v|s|u]; cbn [field_bytes apply_field field_ok] in *.
  - cbn [app]. assert (Hv : 0 <= v < 2 ^ 64) by lia.
    rewrite (uint64_small v) by assumption.
    eapply eq_trans; [eapply Unmarshal_field_Seq|].
    + apply (tag_step x08 8); [reflexivity|lia].
    + destruct (after_tag x08 pre (varint v ++ post)) as [-> ->].
      apply varint_uint64_varint. assumption.
    + len_tac. f_equal. f_equal. lia.
  - apply (varint_field_step x10 16 v pre post m (set_Type m));
      [reflexivity|lia| |apply is_int32_range; assumption].
    intros dAtA i i1 i2 x Ha Hb. exact (Unmarshal_field_Type dAtA m i i1 i2 x Ha Hb).
  - apply (string_field_step x1a 26 s pre post m (set_Uri m));
      [reflexivity|lia| |assumption].
    intros dAtA i i1 i2 x Ha Hb. exact (Unmarshal_field_Uri dAtA m i i1 i2 x Ha Hb).
  - apply (varint_field_step x20 32 v pre post m (set_Gzip m));
      [reflexivity|lia| |apply is_int32_range; assumption].
    intros dAtA i i1 i2 x Ha Hb. exact (Unmarshal_field_Gzip dAtA m i i1 i2 x Ha Hb).
  - apply (varint_field_step x28 40 v pre post m (set_StatusCode m));
      [reflexivity|lia| |apply is_int32_range; assumption].
    intros dAtA i i1 i2 x Ha Hb. exact (Unmarshal_field_StatusCode dAtA m i i1 i2 x Ha Hb).
  - apply (string_field_step x32 50 s pre post m (set_Status m));
      [reflexivity|lia| |assumption].
    intros dAtA i i1 i2 x Ha Hb. exact (Unmarshal_field_Status dAtA m i i1 i2 x Ha Hb).
  - apply Unmarshal_field_unknown; assumption.
Qed.

(** ** The decoding loop on a sequence of fields *)

Lemma field_bytes_nonempty (f : field) : (1 <= length (field_bytes f))%nat.
Proof.
  destruct f; cbn [field_bytes length]; try lia.
  apply (skip_need_bound u).
Qed.

Lemma fields_bytes_cons (f : field) (fs : list field) :
  fields_bytes (f :: fs) = field_bytes f ++ fields_bytes fs.
Proof. reflexivity. Qed.

Lemma fields_bytes_app (fs gs : list field) :
  fields_bytes (fs ++ gs) = fields_bytes fs ++ fields_bytes gs.
Proof. unfold fields_bytes. rewrite map_app, concat_app. reflexivity. Qed.

Lemma fields_bytes_length (fs : list field) :
  (length fs <= length (fields_bytes fs))%nat.
Proof.
  induction fs as [|f fs IH]; [simpl; lia|].
  rewrite fields_bytes_cons, length_app. pose proof (field_bytes_nonempty f).
  simpl. lia.
Qed.

Lemma Unmarshal_loop_fields :
  forall (fs : list field) (pre post : list byte) (m : Header) (fuel : nat),
    forallb field_ok fs = true ->
    len (pre ++ fields_bytes fs ++ post) <= MaxInt ->
    (length fs <= fuel)%nat ->
    Unmarshal_loop fuel (pre ++ fields_bytes fs ++ post) m (len pre)
    = Unmarshal_loop (fuel - length fs) (pre ++ fields_bytes fs ++ post)
        (fold_left apply_field fs m) (len pre + len (fields_bytes fs)).
Proof.
  induction fs as [|f fs IH]; intros pre post m fuel Hok Hmax Hfuel.
  - cbn [fold_left length]. rewrite Nat.sub_0_r. unfold fields_bytes at 3.
    cbn [map concat]. rewrite len_nil, Z.add_0_r. reflexivity.
  - destruct fuel as [|fuel]; [simpl in Hfuel; lia|].
    cbn [forallb] in Hok. apply andb_true_iff in Hok. destruct Hok as [Hf Hfs].
    rewrite fields_bytes_cons in *. rewrite <- app_assoc in *.
    pose proof (field_bytes_nonempty f) as Hne.
    pose proof (len_nonneg pre). pose proof (len_nonneg (fields_bytes fs ++ post)).
    cbn [Unmarshal_loop].
    destruct (len pre <? len (pre ++ field_bytes f ++ fields_bytes fs ++ post)) eqn:E.
    2:{ exfalso. rewrite !len_app in E. unfold len in *. apply Z.ltb_ge in E. lia. }
    rewrite Unmarshal_field_step by assumption. cbn [mbind outcome_bind].
    replace (len pre + len (field_bytes f)) with (len (pre ++ field_bytes f)) by len_tac.
    rewrite (app_assoc pre).
    rewrite IH; [|assumption|rewrite <- app_assoc; assumption|simpl in Hfuel; lia].
    cbn [fold_left length]. rewrite !len_app.
    replace (S fuel - S (length fs))%nat with (fuel - length fs)%nat by lia.
    f_equal. lia.
Qed.

(** Decoding a sequence of well-formed fields applies them in order: the
    last occurrence of a field number wins and unknown fields are ignored. *)
Lemma Unmarshal_fields (fs : list field) (m : Header) :
  forallb field_ok fs = true ->
  len (fields_bytes fs) <= MaxInt ->
  Unmarshal m (fields_bytes fs) = Ok (fold_left apply_field fs m).
Proof.
  intros Hok Hmax. unfold Unmarshal.
  pose proof (Unmarshal_loop_fields fs [] [] m (length (fields_bytes fs)) Hok) as H.
  cbn [app] in H. rewrite app_nil_r, len_nil, Z.add_0_l in H.
  rewrite H by (assumption || apply fields_bytes_length).
  destruct (length (fields_bytes fs) - length fs)%nat; cbn [Unmarshal_loop];
    rewrite Z.ltb_irrefl, Z.gtb_ltb, Z.ltb_irrefl; reflexivity.
Qed.

Lemma wire_bytes_fields (m : Header) : wire_bytes m = fields_bytes (header_fields m).
Proof.
  unfold wire_bytes, header_fields, varint_field, string_field.
  rewrite !fields_bytes_app.
  destruct (Seq m =? 0), (Type_ m =? 0), (len (Uri m) >? 0), (Gzip m =? 0),
    (StatusCode m =? 0), (len (Status m) >? 0);
    unfold fields_bytes; cbn [map concat field_bytes]; rewrite ?app_nil_r;
    reflexivity.
Qed.

Lemma len_zero_nil {A} (s : list A) : (len s >? 0) = false -> s = [].
Proof. destruct s; [reflexivity|]. rewrite len_cons. pose proof (len_nonneg s). lia. Qed.

Lemma header_fields_apply (m : Header) :
  fold_left apply_field (header_fields m) Header_zero = m.
Proof.
  destruct m as [seq ty uri gz sc st]. unfold header_fields. cbn [Seq Type_ Uri Gzip StatusCode Status].
  rewrite !fold_left_app.
  destruct (seq =? 0) eqn:E1, (ty =? 0) eqn:E2, (len uri >? 0) eqn:E3,
    (gz =? 0) eqn:E4, (sc =? 0) eqn:E5, (len st >? 0) eqn:E6;
    try apply Z.eqb_eq in E1; try apply Z.eqb_eq in E2;
    try apply Z.eqb_eq in E4; try apply Z.eqb_eq in E5;
    try apply len_zero_nil in E3; try apply len_zero_nil in E6;
    subst; reflexivity.
Qed.

Lemma header_fields_ok (m : Header) :
  Header_wf m -> forallb field_ok (header_fields m) = true.
Proof.
  intros [H1 H2 H3 H4 _]. unfold header_fields.
  rewrite !forallb_app.
  destruct (Seq m =? 0), (Type_ m =? 0), (len (Uri m) >? 0), (Gzip m =? 0),
    (StatusCode m =? 0), (len (Status m) >? 0);
    cbn [forallb field_ok]; unfold is_int32;
    repeat (apply andb_true_iff; split); try reflexivity; lia.
Qed.

Lemma Unmarshal_wire_bytes (h : Header) :
  Header_wf h -> Unmarshal Header_zero (wire_bytes h) = Ok h.
Proof.
  intros Hwf. rewrite wire_bytes_fields.
  rewrite Unmarshal_fields.
  - rewrite header_fields_apply. reflexivity.
  - apply header_fields_ok. assumption.
  - rewrite <- wire_bytes_fields. apply (wf_size h Hwf).
Qed.

(** ** The varint loop on arbitrary input *)

Lemma leading_cont_le (bs : list byte) : (leading_cont bs <= length bs)%nat.
Proof. induction bs as [|b bs IH]; simpl; [lia|]. destruct (is_cont b); simpl; lia. Qed.

Lemma varint_loop_outcome (conv : Z -> Z) :
  forall (d : nat) (rest pre : list byte) (fuel : nat) (acc : Z),
    (d <= 10)%nat -> (d <= fuel)%nat ->
    varint_loop conv fuel (pre ++ rest) (7 * (10 - Z.of_nat d)) (len pre) acc
    = varint_outcome conv d acc rest (len pre).
Proof.
  induction d as [|d IH]; intros rest pre fuel acc Hd Hfuel.
  - unfold varint_outcome. simpl. destruct fuel; reflexivity.
  - pose proof (len_nonneg pre).
    assert (E64 : (64 <=? 7 * (10 - Z.of_nat (S d))) = false) by (apply Z.leb_gt; lia).
    destruct fuel as [|fuel]; [lia|].
    destruct rest as [|b rest].
    + cbn [varint_loop]. rewrite E64, app_nil_r.
      rewrite Z.leb_refl. reflexivity.
    + cbn [varint_loop]. rewrite E64.
      pose proof (len_nonneg rest).
      destruct (len (pre ++ b :: rest) <=? len pre) eqn:E; [revert E; len_tac|].
      rewrite index_middle. cbn [mbind outcome_bind].
      unfold varint_outcome. cbn [take firstn leading_cont length].
      unfold is_cont. destruct (u8 b <? 128) eqn:Eb.
      * replace (128 <=? u8 b) with false by lia.
        cbn [Nat.eqb take firstn groups_acc]. f_equal. f_equal. lia.
      * replace (128 <=? u8 b) with true by lia.
        replace (pre ++ b :: rest) with ((pre ++ [b]) ++ rest)
          by (rewrite <- app_assoc; reflexivity).
        replace (len pre + 1) with (len (pre ++ [b])) by len_tac.
        replace (7 * (10 - Z.of_nat (S d)) + 7) with (7 * (10 - Z.of_nat d)) by lia.
        rewrite IH by lia. unfold varint_outcome.
        cbn [Nat.eqb]. 
        destruct (leading_cont (take d rest) =? d)%nat; [reflexivity|].
        destruct (leading_cont (take d rest) =? length (take d rest))%nat;
          [reflexivity|].
        cbn [take firstn groups_acc].
        replace (7 * (10 - Z.of_nat (S d)) + 7) with (7 * (10 - Z.of_nat d)) by lia.
        f_equal. f_equal. len_tac.
Qed.

Lemma drop_split (dAtA : list byte) (i : Z) :
  0 <= i <= len dAtA ->
  dAtA = take (Z.to_nat i) dAtA ++ drop (Z.to_nat i) dAtA
  /\ len (take (Z.to_nat i) dAtA) = i.
Proof.
  intros Hi. split; [symmetry; apply take_drop|].
  unfold len in *. rewrite length_take. lia.
Qed.

(** Any of the decoder's varint loops, started anywhere in a buffer. *)
Lemma varint_loop_window (conv : Z -> Z) (dAtA : list byte) (iNdEx : Z) :
  0 <= iNdEx <= len dAtA ->
  varint_loop conv 10 dAtA 0 iNdEx 0
  = varint_outcome conv 10 0 (drop (Z.to_nat iNdEx) dAtA) iNdEx.
Proof.
  intros Hi. destruct (drop_split dAtA iNdEx Hi) as [Hsplit Hlen].
  pose proof (varint_loop_outcome conv 10 (drop (Z.to_nat iNdEx) dAtA)
                (take (Z.to_nat iNdEx) dAtA) 10 0 ltac:(lia) ltac:(lia)) as H.
  rewrite <- Hsplit, Hlen in H. exact H.
Qed.

Lemma groups_acc_value (conv : Z -> Z) (Hc : lor_hom conv) :
  forall (bs : list byte) (shift a : Z),
    0 <= shift ->
    groups_acc conv shift (conv a) bs
    = conv (Z.lor a (Z.shiftl (varint_value bs) shift)).
Proof.
  induction bs as [|b bs IH]; intros shift a Hs.
  - simpl. rewrite Z.shiftl_0_l, Z.lor_0_r. reflexivity.
  - cbn [groups_acc varint_value]. rewrite <- Hc. rewrite IH by lia.
    f_equal. rewrite <- Z.lor_assoc. f_equal.
    rewrite Z.shiftl_lor. f_equal.
    rewrite Z.shiftl_shiftl by lia. f_equal. lia.
Qed.

(** ** Truncated input *)

Lemma leading_cont_all (q : list byte) :
  Forall (fun b => is_cont b = true) q -> leading_cont q = length q.
Proof.
  induction 1 as [|b q Hb _ IH]; [reflexivity|]. simpl. rewrite Hb, IH. reflexivity.
Qed.

Lemma varint_loop_all_cont (conv : Z -> Z) (q pre : list byte) :
  Forall (fun b => is_cont b = true) q -> (length q <= 9)%nat ->
  varint_loop conv 10 (pre ++ q) 0 (len pre) 0 = Err ErrUnexpectedEOF.
Proof.
  intros Hq Hlen.
  pose proof (varint_loop_outcome conv 10 q pre 10 0 ltac:(lia) ltac:(lia)) as H.
  change (7 * (10 - Z.of_nat 10)) with 0 in H. rewrite H.
  unfold varint_outcome. rewrite take_ge by lia.
  rewrite leading_cont_all by assumption.
  destruct (length q =? 10)%nat eqn:E; [apply Nat.eqb_eq in E; lia|].
  rewrite Nat.eqb_refl. reflexivity.
Qed.

Lemma varint_strict_prefix (v : Z) (q r : list byte) :
  0 <= v < 2 ^ 64 -> varint v = q ++ r -> r <> [] ->
  Forall (fun b => is_cont b = true) q /\ (length q <= 9)%nat.
Proof.
  intros Hv Heq Hr. unfold varint in Heq.
  destruct (varint_bytes_spec 9 v) as (cs & t & Hcs & Hall & _ & Hlen & _).
  { change (7 * (Z.of_nat 9 + 1)) with 70. lia. }
  rewrite Hcs in Heq.
  assert (Hl : (length q <= length cs)%nat).
  { apply (f_equal length) in Heq. rewrite !length_app in Heq. simpl in Heq.
    destruct r; [congruence|]. simpl in Heq. lia. }
  assert (Hq : q = take (length q) cs).
  { rewrite <- (take_app_le cs [t]) by assumption. rewrite Heq.
    rewrite take_app_length. reflexivity. }
  split; [|lia]. rewrite Hq. apply Forall_take. assumption.
Qed.

Lemma varint_loop_truncated (conv : Z -> Z) (v : Z) (q r pre : list byte) :
  0 <= v < 2 ^ 64 -> varint v = q ++ r -> r <> [] ->
  varint_loop conv 10 (pre ++ q) 0 (len pre) 0 = Err ErrUnexpectedEOF.
Proof.
  intros Hv Heq Hr. destruct (varint_strict_prefix v q r Hv Heq Hr).
  apply varint_loop_all_cont; assumption.
Qed.

Lemma read_string_truncated (s q r pre : list byte) :
  varint (len s) ++ s = q ++ r -> r <> [] ->
  len (pre ++ varint (len s) ++ s) <= MaxInt ->
  read_string (pre ++ q) (len pre) = Err ErrUnexpectedEOF.
Proof.
  intros Heq Hr Hmax.
  pose proof (len_nonneg pre). pose proof (len_nonneg s).
  pose proof (len_nonneg (varint (len s))).
  assert (Hsum : len pre + len (varint (len s)) + len s <= MaxInt)
    by (revert Hmax; len_tac).
  assert (Hs : 0 <= len s < 2 ^ 64) by (unfold MaxInt in *; lia).
  unfold read_string.
  destruct (app_eq_app _ _ _ _ Heq) as [l [[Hv Hrr]|[Hq Hss]]].
  - destruct l as [|b l].
    + rewrite app_nil_r in Hv. subst q. simpl in Hrr. subst r.
      pose proof (varint_uint64_varint (len s) pre [] Hs) as Hd.
      rewrite app_nil_r in Hd. rewrite Hd. cbn [mbind outcome_bind].
      rewrite (int_small (len s)) by (unfold MaxInt in *; lia). if_false.
      rewrite int_small by (unfold MaxInt in *; lia).
      assert (0 < len s).
      { clear -Hr. destruct s as [|x s']; [congruence|].
        rewrite len_cons. pose proof (len_nonneg s'). lia. }
      rewrite len_app. if_true. reflexivity.
    + unfold varint_uint64.
      rewrite (varint_loop_truncated uint64 (len s) q (b :: l) pre Hs Hv ltac:(discriminate)).
      reflexivity.
  - subst q. pose proof (varint_uint64_varint (len s) pre l Hs) as Hd.
    rewrite Hd. cbn [mbind outcome_bind].
    rewrite (int_small (len s)) by (unfold MaxInt in *; lia). if_false.
    rewrite int_small by (unfold MaxInt in *; lia).
    assert (len l < len s).
    { subst s. rewrite len_app. destruct r; [congruence|].
      rewrite len_cons. pose proof (len_nonneg r). lia. }
    pose proof (len_nonneg l).
    rewrite !len_app. if_true. reflexivity.
Qed.

Lemma Unmarshal_field_tag_err dAtA m i i1 w e :
  varint_uint64 dAtA i = Ok (w, i1) ->
  (w = 8 /\ varint_uint64 dAtA i1 = Err e) \/
  ((w = 16 \/ w = 32 \/ w = 40) /\ varint_int32 dAtA i1 = Err e) \/
  ((w = 26 \/ w = 50) /\ read_string dAtA i1 = Err e) ->
  Unmarshal_field dAtA m i = Err e.
Proof.
  intros H1 H2. unfold Unmarshal_field. rewrite H1.
  destruct H2 as [[-> H2]|[[[->|[->| ->]] H2]|[[->| ->] H2]]];
    simpl; rewrite H2; reflexivity.
Qed.

Lemma Unmarshal_field_truncated (h : Header) (j : nat) (q r pre : list byte)
    (m : Header) :
  Header_wf h ->
  field_bytes (header_field h j) = q ++ r -> q <> [] -> r <> [] ->
  len (pre ++ field_bytes (header_field h j)) <= MaxInt ->
  Unmarshal_field (pre ++ q) m (len pre) = Err ErrUnexpectedEOF.
Proof.
  intros [H1 H2 H3 H4 _] Heq Hq Hr Hmax.
  destruct q as [|t q]; [congruence|].
  assert (Hcase :
    (exists w v, varint w = [t] /\ 0 <= w < 2 ^ 64 /\ varint v = q ++ r
       /\ 0 <= v < 2 ^ 64 /\ (w = 8 \/ w = 16 \/ w = 32 \/ w = 40)) \/
    (exists w s, varint w = [t] /\ 0 <= w < 2 ^ 64 /\ varint (len s) ++ s = q ++ r
       /\ len (pre ++ [t] ++ varint (len s) ++ s) <= MaxInt /\ (w = 26 \/ w = 50))).
  { do 6 (try destruct j as [|j]); cbn [header_field field_bytes] in Heq, Hmax;
      injection Heq as <- Heq.
    - left. exists 8, (uint64 (Seq h)). pose proof (uint64_range (Seq h)).
      repeat split; auto; lia.
    - left. exists 16, (uint64 (Type_ h)). pose proof (uint64_range (Type_ h)).
      repeat split; auto; lia.
    - right. exists 26, (Uri h). repeat split; auto; lia.
    - left. exists 32, (uint64 (Gzip h)). pose proof (uint64_range (Gzip h)).
      repeat split; auto; lia.
    - left. exists 40, (uint64 (StatusCode h)).
      pose proof (uint64_range (StatusCode h)). repeat split; auto; lia.
    - right. exists 50, (Status h). repeat split; auto; lia.
    - right. exists 50, (Status h). repeat split; auto; lia. }
  destruct (after_tag t pre q) as [Hsplit Hidx].
  destruct Hcase as [(w & v & Ht & Hw & Hv & Hvr & Hwc)|(w & s & Ht & Hw & Hs & Hsm & Hwc)].
  - eapply Unmarshal_field_tag_err; [apply (tag_step t w); assumption|].
    rewrite Hsplit, Hidx.
    destruct Hwc as [->|Hwc]; [left|right; left]; (split; [tauto|]).
    + apply (varint_loop_truncated uint64 v q r); assumption.
    + apply (varint_loop_truncated int32 v q r); assumption.
  - eapply Unmarshal_field_tag_err; [apply (tag_step t w); assumption|].
    rewrite Hsplit, Hidx. right; right. split; [assumption|].
    apply (read_string_truncated s q r); [assumption|assumption|].
    rewrite <- app_assoc. assumption.
Qed.

Lemma concat_prefix (segs : list (list byte)) :
  forall p s, concat segs = p ++ s -> s <> [] ->
  exists j q r, segs !! j = Some (q ++ r) /\ r <> []
                /\ p = concat (take j segs) ++ q.
Proof.
  induction segs as [|seg segs IH]; intros p s Heq Hs.
  - simpl in Heq. destruct p; [simpl in Heq; congruence|discriminate].
  - cbn [concat] in Heq.
    destruct (app_eq_app _ _ _ _ Heq) as [l [[Hseg Hss]|[Hp Hc]]].
    + destruct l as [|b l].
      * simpl in Hss. rewrite app_nil_r in Hseg. subst seg.
        destruct (IH [] s (eq_sym Hss) Hs) as (j & q & r & Hj & Hr & Hq).
        exists (S j), q, r. repeat split; auto.
        cbn [take firstn concat]. rewrite <- app_assoc, <- Hq, app_nil_r. reflexivity.
      * exists 0%nat, p, (b :: l). subst seg.
        repeat split; try reflexivity; discriminate.
    + destruct (IH l s Hc Hs) as (j & q & r & Hj & Hr & Hq).
      exists (S j), q, r. repeat split; auto.
      cbn [take firstn concat]. rewrite <- app_assoc, <- Hq. assumption.
Qed.

Lemma wire_bytes_segments (h : Header) : wire_bytes h = concat (segments h).
Proof. unfold wire_bytes, segments. cbn [concat]. rewrite app_nil_r. reflexivity. Qed.

Lemma segments_take (h : Header) (j : nat) :
  (j < 6)%nat -> concat (take j (segments h)) = wire_bytes (keep j h).
Proof.
  intros Hj. do 6 (destruct j as [|j]; [reflexivity|]). lia.
Qed.

Lemma segments_lookup (h : Header) (j : nat) (seg : list byte) :
  segments h !! j = Some seg ->
  (j < 6)%nat /\ (seg = [] \/ seg = field_bytes (header_field h j)).
Proof.
  intros Hl. split; [apply lookup_lt_Some in Hl; simpl in Hl; lia|].
  unfold segments in Hl.
  do 6 (destruct j as [|j];
        [cbn in Hl; injection Hl as <-;
         unfold varint_field, string_field; cbn [header_field field_bytes];
         match goal with |- context [if ?c then _ else _] => destruct c end;
         tauto|]).
  discriminate.
Qed.

Lemma segments_split (h : Header) (j : nat) (seg : list byte) :
  segments h !! j = Some seg ->
  wire_bytes h = wire_bytes (keep j h) ++ seg ++ concat (drop (S j) (segments h)).
Proof.
  intros Hl. destruct (segments_lookup h j seg Hl) as [Hj _].
  rewrite wire_bytes_segments, <- segments_take by assumption.
  rewrite <- (take_drop_middle _ _ _ Hl) at 1.
  rewrite concat_app. reflexivity.
Qed.

Lemma keep_wf (h : Header) (j : nat) :
  Header_wf h -> (j < 6)%nat -> Header_wf (keep j h).
Proof.
  intros [H1 H2 H3 H4 H5] Hj.
  destruct (lookup_lt_is_Some_2 (segments h) j ltac:(simpl; lia)) as [seg Hl].
  constructor; cbn [keep Seq Type_ Gzip StatusCode];
    try (match goal with |- context [if ?c then _ else _] => destruct c end; lia).
  rewrite (segments_split h j seg Hl) in H5. revert H5. rewrite !len_app.
  pose proof (len_nonneg seg).
  pose proof (len_nonneg (concat (drop (S j) (segments h)))). lia.
Qed.

(** Decoding a strict prefix of an encoding: the fields before the cut
    are decoded; a cut inside a field is an unexpected end of input. *)
Lemma Unmarshal_prefix (h : Header) (p s : list byte) :
  Header_wf h -> wire_bytes h = p ++ s -> s <> [] ->
  Unmarshal Header_zero p = Err ErrUnexpectedEOF
  \/ exists j, (j < 6)%nat /\ p = wire_bytes (keep j h)
               /\ Unmarshal Header_zero p = Ok (keep j h).
Proof.
  intros Hwf Heq Hs. rewrite wire_bytes_segments in Heq.
  destruct (concat_prefix _ p s Heq Hs) as (j & q & r & Hl & Hr & Hp).
  destruct (segments_lookup h j _ Hl) as [Hj Hseg].
  rewrite segments_take in Hp by assumption.
  pose proof (keep_wf h j Hwf Hj) as Hkwf.
  destruct q as [|t q].
  - right. exists j. rewrite app_nil_r in Hp. subst p.
    repeat split; auto. apply Unmarshal_wire_bytes. assumption.
  - left. destruct Hseg as [Hnil|Hseg]; [discriminate|].
    assert (Hmax : len (wire_bytes (keep j h) ++ field_bytes (header_field h j)) <= MaxInt).
    { pose proof (wf_size h Hwf) as Hsz.
      rewrite (segments_split h j _ Hl) in Hsz. rewrite <- Hseg. revert Hsz.
      rewrite !len_app.
      pose proof (len_nonneg (concat (drop (S j) (segments h)))). lia. }
    subst p. unfold Unmarshal.
    set (fs := header_fields (keep j h)).
    pose proof (Unmarshal_loop_fields fs [] (t :: q) Header_zero
                  (length (wire_bytes (keep j h) ++ t :: q))
                  (header_fields_ok _ Hkwf)) as Hloop.
    cbn [app] in Hloop. rewrite len_nil, Z.add_0_l in Hloop.
    unfold fs in Hloop. rewrite <- wire_bytes_fields in Hloop.
    rewrite header_fields_apply in Hloop.
    assert (Hfuel : (length (header_fields (keep j h))
                     < length (wire_bytes (keep j h) ++ t :: q))%nat).
    { rewrite length_app. pose proof (fields_bytes_length (header_fields (keep j h))).
      rewrite <- wire_bytes_fields in *. simpl. lia. }
    rewrite Hloop; [|revert Hmax; rewrite <- Hseg, !len_app, !len_cons;
                       pose proof (len_nonneg r); lia|lia].
    destruct (length (wire_bytes (keep j h) ++ t :: q)
              - length (header_fields (keep j h)))%nat as [|n] eqn:En; [lia|].
    cbn [Unmarshal_loop].
    pose proof (len_nonneg (wire_bytes (keep j h))). pose proof (len_nonneg q).
    rewrite len_app, len_cons. if_true.
    rewrite (Unmarshal_field_truncated h j (t :: q) r) by
      (assumption || discriminate || (symmetry; assumption)).
    reflexivity.
Qed.

(** ** The packet pool *)

Section PacketProperties.

Context {V : Type}.
Variable codec : codec_pkg.

Lemma Header_Reset_zero (m : Header) : Header_Reset m = Header_zero.
Proof. reflexivity. Qed.

Lemma blank_reads_blank (bg : option (BodyGetting V)) (l : loc) (hs : headers) :
  hs !! l = Some Header_zero -> reads_blank codec (blank codec bg l) hs.
Proof.
  intros Hl. exists l, Header_zero.
  split; [reflexivity|]. split; [exact Hl|]. repeat split.
Qed.

Lemma NewPacket_blank (bg : option (BodyGetting V)) (hs : headers) :
  NewPacket codec bg [] hs
  = Ok (blank codec bg (fresh (dom hs)), <[fresh (dom hs) := Header_zero]> hs).
Proof. reflexivity. Qed.

(** [Reset] on a packet that has a header: the header is zeroed where it
    is, and the settings run on a blank packet that points to it. *)
Lemma Packet_Reset_blank (pk : Packet V) bg settings (hs : headers) l h :
  PHeader pk = Some l -> hs !! l = Some h ->
  Packet_Reset codec pk bg settings hs
  = apply_settings (blank codec bg l) (<[l := Header_zero]> hs) settings.
Proof.
  intros Hl Hh. unfold Packet_Reset, deref. rewrite Hl, Hh.
  cbn [mbind outcome_bind]. reflexivity.
Qed.

Lemma Packet_Reset_nil (pk : Packet V) bg settings (hs : headers) :
  PHeader pk = None -> Packet_Reset codec pk bg settings hs = Panic PanicNilDeref.
Proof. intros Hl. unfold Packet_Reset, deref. rewrite Hl. reflexivity. Qed.

Lemma valid_mono (pk : Packet V) (hs hs' : headers) :
  dom hs ⊆ dom hs' -> valid pk hs -> valid pk hs'.
Proof.
  intros Hd Hv l Hl. apply elem_of_dom. apply Hd. apply elem_of_dom.
  exact (Hv l Hl).
Qed.

Lemma dom_insert_mono (hs : headers) (l : loc) (x : Header) :
  dom hs ⊆ dom (<[l := x]> hs).
Proof.
  intros k Hk. apply elem_of_dom. apply elem_of_dom in Hk.
  destruct (decide (l = k)) as [->|Hne];
    [rewrite lookup_insert_eq; eauto|].
  rewrite lookup_insert_ne by assumption. exact Hk.
Qed.

Lemma apply_settings_ok (settings : list (PacketSetting V)) :
  Forall setting_ok settings ->
  forall p hs p' hs',
    valid p hs -> apply_settings p hs settings = Ok (p', hs') ->
    dom hs ⊆ dom hs' /\ valid p' hs'.
Proof.
  induction 1 as [|f fs Hf Hfs IH]; intros p hs p' hs' Hv Ha;
    cbn [apply_settings] in Ha.
  - injection Ha as <- <-. split; [reflexivity|exact Hv].
  - destruct (f p hs) as [[p1 hs1]| | |] eqn:E; cbn [mbind outcome_bind] in Ha;
      try discriminate.
    destruct (Hf _ _ _ _ Hv E) as [Hd1 Hv1].
    destruct (IH _ _ _ _ Hv1 Ha) as [Hd2 Hv2].
    split; [etransitivity; eassumption|exact Hv2].
Qed.

(** The settings of the package keep the memory as Go does. *)
Lemma WithBodyGzip_ok (gzipLevel : Z) : setting_ok (WithBodyGzip (V:=V) gzipLevel).
Proof.
  intros p hs p' hs' Hv Hf. unfold WithBodyGzip, deref in Hf.
  destruct (PHeader p) as [l|] eqn:Hl; [|discriminate].
  destruct (hs !! l) as [h|] eqn:Hh; [|discriminate].
  cbn [mbind outcome_bind] in Hf. injection Hf as <- <-.
  assert (Hd : dom hs ⊆ dom (<[l := set_Gzip h gzipLevel]> hs))
    by apply dom_insert_mono.
  split; [exact Hd|exact (valid_mono _ _ _ Hd Hv)].
Qed.

Lemma WithHeaderCodec_ok (codecName : string) (f : PacketSetting V) :
  WithHeaderCodec codec codecName = Ok f -> setting_ok f.
Proof.
  unfold WithHeaderCodec. destruct (GetByName codec codecName) as [c e].
  destruct c as [c|]; [|discriminate]. cbn. intros [= <-].
  intros p hs p' hs' Hv [= <- <-]. split; [reflexivity|exact Hv].
Qed.

Lemma WithBodyCodec_ok (codecName : string) (f : PacketSetting V) :
  WithBodyCodec codec codecName = Ok f -> setting_ok f.
Proof.
  unfold WithBodyCodec, getCodecByName.
  destruct (GetByName codec codecName) as [c e].
  destruct e as [e|]; [discriminate|].
  destruct c as [c|]; [|discriminate]. cbn. intros [= <-].
  intros p hs p' hs' Hv [= <- <-]. split; [reflexivity|exact Hv].
Qed.

Lemma free_chain_insert (h : gmap loc (Packet V)) o fl p x :
  free_chain h o fl -> p ∉ fl -> free_chain (<[p := x]> h) o fl.
Proof.
  induction 1 as [|q pk fl Hq Hc IH]; intros Hp.
  - constructor.
  - apply not_elem_of_cons in Hp. destruct Hp as [Hne Hp].
    econstructor; [|apply IH; assumption].
    rewrite lookup_insert_ne by congruence. assumption.
Qed.

Lemma free_chain_dom (h : gmap loc (Packet V)) o fl :
  free_chain h o fl -> forall q, q ∈ fl -> is_Some (h !! q).
Proof.
  induction 1 as [|p pk fl Hp Hc IH]; intros q Hq; [inversion Hq|].
  apply elem_of_cons in Hq. destruct Hq as [->|Hq]; [eauto|apply IH; assumption].
Qed.

Lemma pool_inv_init : pool_inv (@pool_empty V, ∅).
Proof.
  exists []. split; [constructor|]. split; [constructor|].
  split; [intros p Hp; inversion Hp|].
  split; [intros p Hp; set_solver|].
  intros p pk Hp. cbn in Hp. rewrite lookup_empty in Hp. discriminate.
Qed.

(** What a successful [GetPacket] has done, by the branch it took. *)
Lemma GetPacket_cases (w : pool V) bg settings p w' :
  GetPacket codec bg settings w = Ok (p, w') ->
  (freePacket w = None
   /\ p = fresh (dom (heap w))
   /\ w' = mkPool (<[p := blank codec bg (fresh (dom (hdrs w)))]> (heap w))
                  (<[fresh (dom (hdrs w)) := Header_zero]> (hdrs w)) None)
  \/ (exists pk l h pk' hs',
        freePacket w = Some p /\ heap w !! p = Some pk
        /\ PHeader pk = Some l /\ hdrs w !! l = Some h
        /\ apply_settings (blank codec bg l) (<[l := Header_zero]> (hdrs w)) settings
           = Ok (pk', hs')
        /\ w' = mkPool (<[p := pk']> (heap w)) hs' (next pk)).
Proof.
  unfold GetPacket. destruct (freePacket w) as [q|] eqn:Hfree.
  - destruct (heap w !! q) as [pk|] eqn:Hq; [|discriminate].
    destruct (PHeader pk) as [l|] eqn:Hl;
      [|rewrite Packet_Reset_nil by assumption; discriminate].
    destruct (hdrs w !! l) as [h|] eqn:Hh.
    + rewrite (Packet_Reset_blank pk bg settings (hdrs w) l h Hl Hh).
      destruct (apply_settings _ _ settings) as [[pk' hs']| | |] eqn:Ha;
        cbn [mbind outcome_bind]; try discriminate.
      intros [= <- <-]. right. exists pk, l, h, pk', hs'. repeat split; assumption.
    + unfold Packet_Reset, deref. rewrite Hl, Hh. discriminate.
  - rewrite NewPacket_blank. cbn [mbind outcome_bind]. intros [= <- <-].
    left. repeat split.
Qed.

Lemma pool_inv_step (st st' : pool V * gset loc) :
  pool_inv st -> pool_step codec st st' -> pool_inv st'.
Proof.
  intros (fl & Hc & Hnd & Hdis & Hlive & Hval) Hstep.
  destruct Hstep as [w live bg settings p w' Hok Hget|w live pk hs' Hd Hv
                    |w live p pk pk' hs' Hp Hpk Hd Hv|w live p w' Hp Hput];
    unfold pool_inv; cbn [fst snd] in *.
  - destruct (GetPacket_cases _ _ _ _ _ Hget)
      as [(Hfree & -> & ->)|(pk & l & h & pk' & hs' & Hfree & Hq & Hl & Hh & Ha & ->)];
      cbn [heap hdrs freePacket].
    + rewrite Hfree in Hc. inversion Hc; subst. exists [].
      split; [constructor|]. split; [constructor|].
      split; [intros p Hp; inversion Hp|].
      assert (Hd : dom (hdrs w) ⊆ dom (<[fresh (dom (hdrs w)) := Header_zero]> (hdrs w)))
        by apply dom_insert_mono.
      split.
      * intros p Hpl. apply elem_of_union in Hpl. destruct Hpl as [Hpl|Hpl].
        -- apply elem_of_singleton in Hpl. subst. rewrite lookup_insert_eq. eauto.
        -- destruct (decide (fresh (dom (heap w)) = p)) as [->|Hne];
             [rewrite lookup_insert_eq; eauto|].
           rewrite lookup_insert_ne by assumption. apply Hlive. assumption.
      * intros p pk Hp.
        destruct (decide (fresh (dom (heap w)) = p)) as [<-|Hne].
        -- rewrite lookup_insert_eq in Hp. injection Hp as <-.
           intros l Hl. cbn in Hl. injection Hl as <-.
           rewrite lookup_insert_eq. eauto.
        -- rewrite lookup_insert_ne in Hp by assumption.
           exact (valid_mono _ _ _ Hd (Hval p pk Hp)).
    + rewrite Hfree in Hc.
      inversion Hc as [|q' pk0 fl' Hq' Hc' Heq]; subst.
      rewrite Hq in Hq'. injection Hq' as <-.
      apply NoDup_cons in Hnd. destruct Hnd as [Hnotin Hnd].
      assert (Hd0 : dom (hdrs w) ⊆ dom (<[l := Header_zero]> (hdrs w)))
        by apply dom_insert_mono.
      assert (Hv0 : valid (blank codec bg l) (<[l := Header_zero]> (hdrs w))).
      { intros l' Hl'. cbn in Hl'. injection Hl' as <-.
        rewrite lookup_insert_eq. eauto. }
      destruct (apply_settings_ok settings Hok _ _ _ _ Hv0 Ha) as [Hd1 Hv1].
      exists fl'.
      split; [apply free_chain_insert; assumption|].
      split; [assumption|].
      split.
      * intros q Hqfl Hql. apply elem_of_union in Hql. destruct Hql as [Hql|Hql].
        -- apply elem_of_singleton in Hql. subst. contradiction.
        -- apply (Hdis q); [right; assumption|assumption].
      * split.
        -- intros q Hql. apply elem_of_union in Hql. destruct Hql as [Hql|Hql].
           ++ apply elem_of_singleton in Hql. subst. rewrite lookup_insert_eq. eauto.
           ++ destruct (decide (p = q)) as [->|Hne];
                [rewrite lookup_insert_eq; eauto|].
              rewrite lookup_insert_ne by assumption. apply Hlive. assumption.
        -- intros q pkq Hqq. destruct (decide (p = q)) as [->|Hne].
           ++ rewrite lookup_insert_eq in Hqq. injection Hqq as <-. exact Hv1.
           ++ rewrite lookup_insert_ne in Hqq by assumption.
              apply (valid_mono _ (hdrs w)); [etransitivity; eassumption|].
              exact (Hval q pkq Hqq).
  - assert (Hnew : heap w !! fresh (dom (heap w)) = None)
      by (apply not_elem_of_dom, is_fresh).
    exists fl. cbn [heap hdrs freePacket].
    split.
    { apply free_chain_insert; [assumption|]. intros Hin.
      destruct (free_chain_dom _ _ _ Hc _ Hin) as [x Hx]. congruence. }
    split; [assumption|]. split.
    { intros q Hq Hql. apply elem_of_union in Hql. destruct Hql as [Hql|Hql].
      - apply elem_of_singleton in Hql. subst.
        destruct (free_chain_dom _ _ _ Hc _ Hq) as [x Hx]. congruence.
      - exact (Hdis q Hq Hql). }
    split.
    + intros q Hql. apply elem_of_union in Hql. destruct Hql as [Hql|Hql].
      * apply elem_of_singleton in Hql. subst. rewrite lookup_insert_eq. eauto.
      * destruct (decide (fresh (dom (heap w)) = q)) as [<-|Hne];
          [rewrite lookup_insert_eq; eauto|].
        rewrite lookup_insert_ne by assumption. apply Hlive. assumption.
    + intros q pkq Hqq. destruct (decide (fresh (dom (heap w)) = q)) as [<-|Hne].
      * rewrite lookup_insert_eq in Hqq. injection Hqq as <-. exact Hv.
      * rewrite lookup_insert_ne in Hqq by assumption.
        exact (valid_mono _ _ _ Hd (Hval q pkq Hqq)).
  - exists fl. cbn [heap hdrs freePacket].
    split; [apply free_chain_insert; [assumption|]; intros Hin; exact (Hdis p Hin Hp)|].
    split; [assumption|]. split; [assumption|]. split.
    + intros q Hq. destruct (decide (p = q)) as [->|Hne];
        [rewrite lookup_insert_eq; eauto|].
      rewrite lookup_insert_ne by assumption. apply Hlive. assumption.
    + intros q pkq Hqq. destruct (decide (p = q)) as [->|Hne].
      * rewrite lookup_insert_eq in Hqq. injection Hqq as <-. exact Hv.
      * rewrite lookup_insert_ne in Hqq by assumption.
        exact (valid_mono _ _ _ Hd (Hval q pkq Hqq)).
  - unfold PutPacket in Hput. destruct (heap w !! p) as [pk|] eqn:Hpk; [|discriminate].
    injection Hput as <-. cbn [heap hdrs freePacket].
    assert (Hnotin : p ∉ fl) by (intros Hin; exact (Hdis p Hin Hp)).
    exists (p :: fl).
    split; [econstructor; [apply lookup_insert_eq|]; cbn [next set_next];
            apply free_chain_insert; assumption|].
    split; [apply NoDup_cons; split; assumption|].
    split.
    + intros q Hq Hql. apply elem_of_difference in Hql. destruct Hql as [Hql Hqp].
      apply elem_of_cons in Hq. destruct Hq as [->|Hq].
      * apply Hqp. apply elem_of_singleton. reflexivity.
      * exact (Hdis q Hq Hql).
    + split.
      * intros q Hql. apply elem_of_difference in Hql. destruct Hql as [Hql Hqp].
        rewrite lookup_insert_ne
          by (intros ->; apply Hqp; apply elem_of_singleton; reflexivity).
        apply Hlive. assumption.
      * intros q pkq Hqq. destruct (decide (p = q)) as [->|Hne].
        -- rewrite lookup_insert_eq in Hqq. injection Hqq as <-.
           intros l Hl. cbn in Hl. exact (Hval q pk Hpk l Hl).
        -- rewrite lookup_insert_ne in Hqq by assumption. exact (Hval q pkq Hqq).
Qed.

Lemma pool_reachable_inv (st : pool V * gset loc) :
  pool_reachable codec st -> pool_inv st.
Proof.
  induction 1 as [|st st' _ IH Hstep]; [apply pool_inv_init|].
  eapply pool_inv_step; eassumption.
Qed.

Lemma free_chain_head (h : gmap loc (Packet V)) q fl :
  free_chain h (Some q) fl -> (q ∈ fl) /\ is_Some (h !! q).
Proof. inversion 1; subst. split; [left|eauto]. Qed.

(** A packet that [GetPacket] returns is held by no caller, and holds what
    the settings of the call, or none of them, have made of a packet that
    reads blank. *)
Lemma GetPacket_inv (st : pool V * gset loc) bg settings p w' :
  pool_inv st ->
  GetPacket codec bg settings (fst st) = Ok (p, w') ->
  (p ∉ snd st)
  /\ (forall q, q <> p -> heap w' !! q = heap (fst st) !! q)
  /\ exists pk0 hs0 applied pk,
       reads_blank codec pk0 hs0
       /\ (forall l, PHeader pk0 <> Some l -> hs0 !! l = hdrs (fst st) !! l)
       /\ (applied = settings \/ applied = [])
       /\ apply_settings pk0 hs0 applied = Ok (pk, hdrs w')
       /\ heap w' !! p = Some pk.
Proof.
  intros (fl & Hc & Hnd & Hdis & Hlive & Hval) Hget.
  destruct st as [w live]. cbn [fst snd] in *.
  destruct (GetPacket_cases _ _ _ _ _ Hget)
    as [(Hfree & -> & ->)|(pk & l & h & pk' & hs' & Hfree & Hq & Hl & Hh & Ha & ->)];
    cbn [heap hdrs freePacket].
  - split.
    { intros Hin. apply Hlive in Hin. apply elem_of_dom in Hin.
      exact (is_fresh (dom (heap w)) Hin). }
    split; [intros q Hq; apply lookup_insert_ne; congruence|].
    eexists _, _, [], _. split; [apply blank_reads_blank, lookup_insert_eq|].
    split; [intros l Hl; apply lookup_insert_ne; cbn in Hl; congruence|].
    split; [right; reflexivity|]. split; [reflexivity|apply lookup_insert_eq].
  - rewrite Hfree in Hc. destruct (free_chain_head _ _ _ Hc) as [Hin _].
    split; [apply Hdis; assumption|].
    split; [intros q Hne; apply lookup_insert_ne; congruence|].
    eexists _, _, settings, pk'.
    split; [apply blank_reads_blank, lookup_insert_eq|].
    split; [intros l' Hl'; apply lookup_insert_ne; cbn in Hl'; congruence|].
    split; [left; reflexivity|]. split; [exact Ha|apply lookup_insert_eq].
Qed.

(** Without settings [GetPacket] returns a packet that reads blank, unless
    the packet at the head of the free list was put back with a nil header
    pointer: then [Reset] panics. *)
Lemma GetPacket_no_settings (st : pool V * gset loc) bg :
  pool_inv st ->
  (exists p w' pk,
     GetPacket codec bg [] (fst st) = Ok (p, w')
     /\ (p ∉ snd st) /\ heap w' !! p = Some pk /\ reads_blank codec pk (hdrs w'))
  \/ (GetPacket codec bg [] (fst st) = Panic PanicNilDeref
      /\ exists q pk, freePacket (fst st) = Some q
                      /\ heap (fst st) !! q = Some pk /\ PHeader pk = None).
Proof.
  intros Hinv. pose proof Hinv as (fl & Hc & Hnd & Hdis & Hlive & Hval).
  destruct st as [w live]. cbn [fst snd] in *.
  assert (Hok : forall p w', GetPacket codec bg [] w = Ok (p, w') ->
            exists pk, (p ∉ live) /\ heap w' !! p = Some pk
                       /\ reads_blank codec pk (hdrs w')).
  { intros p w' Hget.
    destruct (GetPacket_inv (w, live) bg [] p w' Hinv Hget)
      as (Hp & _ & pk0 & hs0 & applied & pk & Hb & _ & Happ & Ha & Hpk).
    assert (applied = []) as -> by (destruct Happ; assumption).
    cbn [apply_settings] in Ha. injection Ha as <- <-.
    exists pk0. repeat split; assumption. }
  unfold GetPacket in *. destruct (freePacket w) as [q|] eqn:Hfree.
  - destruct (free_chain_head _ _ _ Hc) as [_ [pk Hq]]. rewrite Hq in *.
    destruct (PHeader pk) as [l|] eqn:Hl.
    + destruct (Hval q pk Hq l Hl) as [h Hh].
      rewrite (Packet_Reset_blank pk bg [] (hdrs w) l h Hl Hh) in *.
      cbn [apply_settings mbind outcome_bind] in *.
      left. destruct (Hok _ _ eq_refl) as (pk' & H1 & H2 & H3).
      eexists _, _, pk'. split; [reflexivity|]. repeat split; assumption.
    + right. rewrite Packet_Reset_nil by assumption.
      split; [reflexivity|]. exists q, pk. repeat split; assumption.
  - left. rewrite NewPacket_blank in *. cbn [mbind outcome_bind] in *.
    destruct (Hok _ _ eq_refl) as (pk' & H1 & H2 & H3).
    eexists _, _, pk'. split; [reflexivity|]. repeat split; assumption.
Qed.

Lemma PutPacket_inv (st : pool V * gset loc) (p : loc) :
  pool_inv st -> p ∈ snd st ->
  exists w' pk, PutPacket p (fst st) = Ok w'
    /\ heap w' !! p = Some pk /\ Body pk = None /\ freePacket w' = Some p.
Proof.
  intros (fl & Hc & Hnd & Hdis & Hlive & Hval) Hp.
  destruct (Hlive p Hp) as [pk Hpk]. unfold PutPacket. rewrite Hpk.
  eexists _, _. split; [reflexivity|]. cbn [heap freePacket].
  rewrite lookup_insert_eq. repeat split.
Qed.

End PacketProperties.

(** ** Whole buffers *)

Lemma Unmarshal_single (dAtA : list byte) (m m' : Header) :
  dAtA <> [] -> Unmarshal_field dAtA m 0 = Ok (m', len dAtA) ->
  Unmarshal m dAtA = Ok m'.
Proof.
  intros Hne Hf. unfold Unmarshal.
  destruct dAtA as [|b dAtA]; [congruence|]. cbn [length Unmarshal_loop].
  pose proof (len_nonneg dAtA). rewrite len_cons at 1. if_true.
  rewrite Hf. cbn [mbind outcome_bind].
  destruct (length dAtA); cbn [Unmarshal_loop];
    rewrite Z.ltb_irrefl, Z.gtb_ltb, Z.ltb_irrefl; reflexivity.
Qed.

(** An int32 field given as a terminated varint of at most ten bytes, with
    any well-formed fields before and behind it. *)
Lemma int32_field_overlong (t : byte) (w : Z) (set : Header -> Z -> Header)
    (m : Header) (fs1 fs2 : list field) (cs : list byte) (l : byte) :
  varint w = [t] -> 0 <= w < 2 ^ 64 ->
  (forall dAtA m i i1 i2 x,
     varint_uint64 dAtA i = Ok (w, i1) -> varint_int32 dAtA i1 = Ok (x, i2) ->
     Unmarshal_field dAtA m i = Ok (set m x, i2)) ->
  Forall (fun b => is_cont b = true) cs -> is_cont l = false ->
  (length cs <= 9)%nat ->
  forallb field_ok fs1 = true -> forallb field_ok fs2 = true ->
  len (fields_bytes fs1) + len cs + 2 + len (fields_bytes fs2) <= MaxInt ->
  Unmarshal m (fields_bytes fs1 ++ (t :: cs ++ [l]) ++ fields_bytes fs2)
  = Ok (fold_left apply_field fs2
          (set (fold_left apply_field fs1 m) (int32 (varint_value (cs ++ [l]))))).
Proof.
  intros Ht Hw Hset Hcs Hl Hlen Hok1 Hok2 Hmax.
  set (F1 := fields_bytes fs1) in *. set (F2 := fields_bytes fs2) in *.
  pose proof (len_nonneg F1) as HF1. pose proof (len_nonneg F2) as HF2.
  pose proof (len_nonneg cs) as Hcs0.
  assert (Hlen_all : len (F1 ++ (t :: cs ++ [l]) ++ F2) = len F1 + len cs + 2 + len F2).
  { rewrite !len_app, len_cons, len_app, len_cons, len_nil. lia. }
  pose proof (fields_bytes_length fs1) as Hn1. fold F1 in Hn1.
  pose proof (fields_bytes_length fs2) as Hn2. fold F2 in Hn2.
  unfold Unmarshal.
  pose proof (Unmarshal_loop_fields fs1 [] ((t :: cs ++ [l]) ++ F2) m
                (length (F1 ++ (t :: cs ++ [l]) ++ F2)) Hok1) as Hrun.
  cbn [app] in Hrun. rewrite len_nil, Z.add_0_l in Hrun. fold F1 in Hrun.
  cbn [app]. rewrite Hrun;
    [|cbn [app] in Hlen_all; lia
     |rewrite length_app; cbn [length]; lia].
  clear Hrun.
  destruct (length (F1 ++ t :: (cs ++ [l]) ++ F2) - length fs1)%nat as [|k] eqn:Ek;
    [rewrite length_app in Ek; cbn [length] in Ek; lia|].
  cbn [Unmarshal_loop].
  destruct (len F1 <? len (F1 ++ t :: (cs ++ [l]) ++ F2)) eqn:Elt;
    [|cbn [app] in Hlen_all; lia].
  change (t :: (cs ++ [l]) ++ F2) with ((t :: cs ++ [l]) ++ F2) in *.
  assert (Hfield : forall m0,
            Unmarshal_field (F1 ++ (t :: cs ++ [l]) ++ F2) m0 (len F1)
            = Ok (set m0 (int32 (varint_value (cs ++ [l]))),
                  len (F1 ++ t :: cs ++ [l]))).
  { intros m0.
    replace (F1 ++ (t :: cs ++ [l]) ++ F2) with (F1 ++ t :: cs ++ l :: F2)
      by (cbn [app]; rewrite <- app_assoc; reflexivity).
    eapply eq_trans; [eapply Hset|].
    - exact (tag_step t w F1 (cs ++ l :: F2) Ht Hw).
    - destruct (after_tag t F1 (cs ++ l :: F2)) as [-> ->].
      unfold varint_int32.
      exact (varint_loop_start int32 int32_lor_hom eq_refl cs l (F1 ++ [t]) F2
               Hcs Hl Hlen).
    - f_equal. f_equal. rewrite !len_app, !len_cons, len_app, len_cons, !len_nil. lia. }
  rewrite Hfield. cbn [mbind outcome_bind].
  replace (F1 ++ (t :: cs ++ [l]) ++ F2) with ((F1 ++ t :: cs ++ [l]) ++ F2 ++ [])
    by (rewrite app_nil_r, <- app_assoc; reflexivity).
  pose proof (Unmarshal_loop_fields fs2 (F1 ++ t :: cs ++ [l]) []
                (set (fold_left apply_field fs1 m) (int32 (varint_value (cs ++ [l]))))
                k Hok2) as Hrun.
  fold F2 in Hrun. rewrite Hrun;
    [|rewrite app_nil_r, <- app_assoc; lia
     |rewrite !length_app in Ek; cbn [length] in Ek; rewrite length_app in Ek;
      cbn [length] in Ek; lia].
  clear Hrun.
  match goal with
  | |- Unmarshal_loop ?k ?d ?m0 ?i = _ =>
      assert (Hend : i = len d)
        by (rewrite !len_app, len_nil; lia);
      rewrite Hend; destruct k; cbn [Unmarshal_loop];
      rewrite Z.ltb_irrefl, Z.gtb_ltb, Z.ltb_irrefl; reflexivity
  end.
Qed.

Lemma same_except_fold (k : Z) (fs : list field) :
  forall a b, same_except k a b ->
    same_except k (fold_left apply_field fs a) (fold_left apply_field fs b).
Proof.
  induction fs as [|f fs IH]; intros a b Hab; [exact Hab|].
  cbn [fold_left]. apply IH.
  destruct Hab as (H1 & H2 & H3 & H4 & H5 & H6).
  destruct f; cbn [apply_field]; unfold same_except; cbn; repeat split;
    try assumption; try (intros _; reflexivity); try reflexivity.
Qed.

Lemma int32_range (v : Z) : - 2 ^ 31 <= int32 v < 2 ^ 31.
Proof.
  unfold int32. pose proof (Z.mod_pos_bound (v + 2 ^ 31) (2 ^ 32) ltac:(lia)). lia.
Qed.

Lemma int32_low_bits (v : Z) : int32 v mod 2 ^ 32 = v mod 2 ^ 32.
Proof.
  unfold int32.
  replace ((v + 2 ^ 31) mod 2 ^ 32 - 2 ^ 31)
    with (v + (- ((v + 2 ^ 31) / 2 ^ 32)) * 2 ^ 32).
  - apply Z_mod_plus_full.
  - pose proof (Z.div_mod (v + 2 ^ 31) (2 ^ 32) ltac:(lia)). lia.
Qed.

Lemma fold_apply_absent {A : Type} (proj : Header -> A) (k : Z) :
  (forall m f, field_number f <> k -> proj (apply_field m f) = proj m) ->
  forall fs m, absent k fs -> proj (fold_left apply_field fs m) = proj m.
Proof.
  intros Hp. induction fs as [|f fs IH]; intros m Habs; [reflexivity|].
  inversion Habs as [|? ? Hf Hfs]; subst. cbn [fold_left].
  rewrite IH by assumption. apply Hp. assumption.
Qed.

Lemma unknown_transparent (fs1 fs2 : list field) (u : wire_field) (m : Header) :
  fold_left apply_field (fs1 ++ FUnknown u :: fs2) m
  = fold_left apply_field (fs1 ++ fs2) m.
Proof. rewrite !fold_left_app. reflexivity. Qed.

(* ===================================================================== *)
(** * The header codec: encoding and decoding *)

(** C1.  Round trip: for every header whose fields lie in the ranges of
    their Go types (any [uint64] sequence number, any [int32] type, gzip
    level and status code, negative ones included, any strings whose
    encoding fits a slice), [Marshal] succeeds and [Unmarshal] of its bytes
    into a new header succeeds and gives the header back. *)
Theorem Unmarshal_Marshal (h : Header) :
  Header_wf h ->
  (dAtA ← Marshal h; Unmarshal Header_zero dAtA) = Ok h.
Proof.
  intros Hwf. rewrite Marshal_spec by apply (wf_size h Hwf).
  cbn [mbind outcome_bind]. apply Unmarshal_wire_bytes. assumption.
Qed.

Lemma ping_wf : Header_wf ping.
Proof.
  constructor; cbn [ping Seq Type_ Gzip StatusCode]; try lia.
  apply Z.leb_le. vm_compute. reflexivity.
Defined.

Lemma Unmarshal_Marshal_witness :
  Header_wf ping /\ (dAtA ← Marshal ping; Unmarshal Header_zero dAtA) = Ok ping.
Proof. split; [exact ping_wf|apply (Unmarshal_Marshal ping); exact ping_wf]. Defined.

(** C2.  Zero omission: the all-zero header encodes to no bytes; the
    encoding of any header is the concatenation of one segment per field,
    and the segment of a field at zero (or empty) is empty; decoding a
    sequence of fields leaves every header field whose number does not
    occur in the input as the receiver had it, hence at zero in a new
    header. *)
Theorem zero_omission (h : Header) (fs : list field) :
  Header_wf h -> forallb field_ok fs = true -> len (fields_bytes fs) <= MaxInt ->
  Marshal Header_zero = Ok []
  /\ Marshal h = Ok (concat (segments h))
  /\ (Seq h = 0 -> segments h !! 0%nat = Some [])
  /\ (Type_ h = 0 -> segments h !! 1%nat = Some [])
  /\ (Uri h = [] -> segments h !! 2%nat = Some [])
  /\ (Gzip h = 0 -> segments h !! 3%nat = Some [])
  /\ (StatusCode h = 0 -> segments h !! 4%nat = Some [])
  /\ (Status h = [] -> segments h !! 5%nat = Some [])
  /\ exists m, Unmarshal Header_zero (fields_bytes fs) = Ok m
       /\ (absent 1 fs -> Seq m = 0)
       /\ (absent 2 fs -> Type_ m = 0)
       /\ (absent 3 fs -> Uri m = [])
       /\ (absent 4 fs -> Gzip m = 0)
       /\ (absent 5 fs -> StatusCode m = 0)
       /\ (absent 6 fs -> Status m = []).
Proof.
  intros Hwf Hok Hmax.
  split; [reflexivity|].
  split; [rewrite <- wire_bytes_segments; apply Marshal_spec, (wf_size h Hwf)|].
  unfold segments, varint_field, string_field. cbn [lookup list_lookup].
  repeat (split; [intros ->; reflexivity|]).
  exists (fold_left apply_field fs Header_zero).
  split; [apply Unmarshal_fields; assumption|].
  repeat split; intros Habs.
  - apply (fold_apply_absent Seq 1); [|assumption].
    intros m [] Hf; cbn in *; congruence.
  - apply (fold_apply_absent Type_ 2); [|assumption].
    intros m [] Hf; cbn in *; congruence.
  - apply (fold_apply_absent Uri 3); [|assumption].
    intros m [] Hf; cbn in *; congruence.
  - apply (fold_apply_absent Gzip 4); [|assumption].
    intros m [] Hf; cbn in *; congruence.
  - apply (fold_apply_absent StatusCode 5); [|assumption].
    intros m [] Hf; cbn in *; congruence.
  - apply (fold_apply_absent Status 6); [|assumption].
    intros m [] Hf; cbn in *; congruence.
Qed.

Lemma zero_omission_witness :
  Header_wf ping /\ forallb field_ok [FType 1; FUnknown sample_group] = true
  /\ len (fields_bytes [FType 1; FUnknown sample_group]) <= MaxInt
  /\ Marshal ping = Ok (concat (segments ping)).
Proof.
  assert (H2 : forallb field_ok [FType 1; FUnknown sample_group] = true)
    by (vm_compute; reflexivity).
  assert (H3 : len (fields_bytes [FType 1; FUnknown sample_group]) <= MaxInt)
    by (apply Z.leb_le; vm_compute; reflexivity).
  split; [exact ping_wf|]. split; [exact H2|]. split; [exact H3|].
  exact (proj1 (proj2 (zero_omission ping _ ping_wf H2 H3))).
Defined.

(** C3.  Truncation: decoding a strict prefix of the encoding of a header
    either fails with the unexpected-end-of-input error, or succeeds; it
    succeeds only when the prefix is itself the encoding of the header cut
    after its first [j] field numbers, and then yields exactly that header,
    the later fields left at zero. *)
Theorem Unmarshal_truncated (h : Header) (p s : list byte) :
  Header_wf h -> Marshal h = Ok (p ++ s) -> s <> [] ->
  Unmarshal Header_zero p = Err ErrUnexpectedEOF
  \/ exists j, (j < 6)%nat /\ Marshal (keep j h) = Ok p
               /\ Unmarshal Header_zero p = Ok (keep j h).
Proof.
  intros Hwf Hm Hs. rewrite Marshal_spec in Hm by apply (wf_size h Hwf).
  injection Hm as Hm.
  destruct (Unmarshal_prefix h p s Hwf Hm Hs) as [He|(j & Hj & Hp & Hu)];
    [left; assumption|right].
  exists j. repeat split; try assumption.
  rewrite Hp. apply Marshal_spec. apply (wf_size _ (keep_wf h j Hwf Hj)).
Qed.

Lemma Unmarshal_truncated_witness :
  Header_wf ping
  /\ Marshal ping = Ok ([x08; x07; x10] ++ [x01; x1a; x05; x2f; x70; x69; x6e; x67;
                                            x28; xc8; x01; x32; x02; x4f; x4b])
  /\ (Unmarshal Header_zero [x08; x07; x10] = Err ErrUnexpectedEOF
      \/ exists j, (j < 6)%nat /\ Marshal (keep j ping) = Ok [x08; x07; x10]
                   /\ Unmarshal Header_zero [x08; x07; x10] = Ok (keep j ping)).
Proof.
  assert (Hm : Marshal ping
               = Ok ([x08; x07; x10] ++ [x01; x1a; x05; x2f; x70; x69; x6e; x67;
                                         x28; xc8; x01; x32; x02; x4f; x4b]))
    by (vm_compute; reflexivity).
  split; [exact ping_wf|]. split; [exact Hm|].
  apply (Unmarshal_truncated ping _ _ ping_wf Hm). discriminate.
Defined.

(** C4.  Unknown fields: put one well-formed field of a number from 7
    up (any of the wire types 0, 1, 2, 3 and 5, groups nested to any depth)
    at any field boundary of the encoding of a header, the end included;
    [Unmarshal] of the result into a new header succeeds and gives the
    header back. *)
Theorem Unmarshal_unknown_field (h : Header) (fs1 fs2 : list field)
    (u : wire_field) :
  Header_wf h -> header_fields h = fs1 ++ fs2 ->
  field_ok (FUnknown u) = true ->
  len (fields_bytes fs1 ++ wire_field_bytes u ++ fields_bytes fs2) <= MaxInt ->
  Marshal h = Ok (fields_bytes fs1 ++ fields_bytes fs2)
  /\ Unmarshal Header_zero (fields_bytes fs1 ++ wire_field_bytes u ++ fields_bytes fs2)
     = Ok h.
Proof.
  intros Hwf Hsplit Hu Hmax. split.
  - rewrite <- fields_bytes_app, <- Hsplit, <- wire_bytes_fields.
    apply Marshal_spec, (wf_size h Hwf).
  - pose proof (header_fields_ok h Hwf) as Hok. rewrite Hsplit in Hok.
    rewrite forallb_app in Hok. apply andb_true_iff in Hok. destruct Hok as [Ho1 Ho2].
    replace (fields_bytes fs1 ++ wire_field_bytes u ++ fields_bytes fs2)
      with (fields_bytes (fs1 ++ FUnknown u :: fs2)) in *
      by (rewrite fields_bytes_app, fields_bytes_cons; reflexivity).
    rewrite Unmarshal_fields.
    + rewrite unknown_transparent, <- Hsplit, header_fields_apply. reflexivity.
    + rewrite forallb_app. cbn [forallb]. rewrite Ho1, Hu, Ho2. reflexivity.
    + assumption.
Qed.

Lemma Unmarshal_unknown_field_witness :
  Header_wf ping /\ header_fields ping = header_fields ping ++ []
  /\ field_ok (FUnknown sample_group) = true
  /\ Unmarshal Header_zero
       (fields_bytes (header_fields ping) ++ wire_field_bytes sample_group
        ++ fields_bytes []) = Ok ping.
Proof.
  assert (H2 : header_fields ping = header_fields ping ++ [])
    by (rewrite app_nil_r; reflexivity).
  assert (H3 : field_ok (FUnknown sample_group) = true) by (vm_compute; reflexivity).
  split; [exact ping_wf|]. split; [exact H2|]. split; [exact H3|].
  apply (Unmarshal_unknown_field ping _ [] sample_group ping_wf H2 H3).
  apply Z.leb_le. vm_compute. reflexivity.
Defined.

(** C5 as amended.  A varint loop of the decoder, started at any offset of
    a buffer, fails with the integer-overflow error exactly when the ten
    bytes at that offset all have their high bit set (ten continuation bytes
    are consumed and the shift reaches 70; an eleventh byte is never looked
    at); it fails with unexpected-end-of-input exactly when the buffer ends
    after fewer than ten bytes that all have their high bit set; and it
    returns a value exactly when a byte with its high bit clear is among the
    first ten, so that a terminated varint of at most ten bytes never gives
    the overflow error. *)
Theorem varint_loop_outcomes (conv : Z -> Z) (dAtA : list byte) (iNdEx : Z) :
  0 <= iNdEx <= len dAtA ->
  let w := window dAtA iNdEx in
  (varint_loop conv 10 dAtA 0 iNdEx 0 = Err ErrIntOverflowHeader
   <-> leading_cont w = 10%nat)
  /\ (varint_loop conv 10 dAtA 0 iNdEx 0 = Err ErrUnexpectedEOF
      <-> leading_cont w = length w /\ (length w < 10)%nat)
  /\ ((exists r, varint_loop conv 10 dAtA 0 iNdEx 0 = Ok r)
      <-> (leading_cont w < length w)%nat).
Proof.
  intros Hi w. rewrite varint_loop_window by assumption.
  unfold varint_outcome. fold (window dAtA iNdEx). fold w.
  pose proof (leading_cont_le w) as Hle.
  assert (Hw : (length w <= 10)%nat) by (unfold w, window; rewrite length_take; lia).
  destruct (leading_cont w =? 10)%nat eqn:E1;
    [apply Nat.eqb_eq in E1|apply Nat.eqb_neq in E1].
  - split; [split; intros _; [assumption|reflexivity]|].
    split; [split; [discriminate|intros [_ Hlt]; lia]|].
    split; [intros [r Hr]; discriminate|lia].
  - split; [split; [|contradiction]|].
    { destruct (leading_cont w =? length w)%nat; discriminate. }
    destruct (leading_cont w =? length w)%nat eqn:E2;
      [apply Nat.eqb_eq in E2|apply Nat.eqb_neq in E2].
    + split; [split; intros _; [split; [assumption|lia]|reflexivity]|].
      split; [intros [r Hr]; discriminate|lia].
    + split; [split; [discriminate|intros [Heq _]; contradiction]|].
      split; [lia|intros _; eexists; reflexivity].
Qed.

Lemma varint_loop_outcomes_witness :
  0 <= 1 <= len [x08; xac; x02]
  /\ ((exists r, varint_loop uint64 10 [x08; xac; x02] 0 1 0 = Ok r)
      <-> (leading_cont (window [x08; xac; x02] 1)
           < length (window [x08; xac; x02] 1))%nat).
Proof.
  assert (H : 0 <= 1 <= len [x08; xac; x02]) by (unfold len; simpl; lia).
  split; [exact H|].
  exact (proj2 (proj2 (varint_loop_outcomes uint64 [x08; xac; x02] 1 H))).
Defined.

(** Ten continuation bytes that fill the buffer to its end: the loop has
    consumed ten continuation bytes, not more, and the buffer is exhausted
    in the middle of the varint, yet the error is the overflow one. *)
Lemma overflow_at_ten_continuation_bytes :
  let dAtA := replicate 10 x80 in
  Unmarshal Header_zero dAtA = Err ErrIntOverflowHeader
  /\ varint_uint64 dAtA 0 = Err ErrIntOverflowHeader
  /\ varint_uint64 dAtA 0 <> Err ErrUnexpectedEOF
  /\ leading_cont dAtA = length dAtA
  /\ ~ (10 < leading_cont dAtA)%nat.
Proof.
  cbv zeta. split; [vm_compute; reflexivity|].
  split; [vm_compute; reflexivity|].
  split; [vm_compute; discriminate|].
  split; [vm_compute; reflexivity|].
  vm_compute. lia.
Qed.

(** C10.  An int32 field (Type, Gzip, StatusCode) given as a terminated
    varint of at most ten bytes, anywhere among well-formed fields, decodes
    without error, and the header that [Unmarshal] returns holds in that
    field the low 32 bits of the varint's value, read as a signed number:
    whatever the groups carry from bit 32 up is dropped.  The other five
    fields are what they would be without that field in the buffer. *)
Theorem Unmarshal_int32_low_bits (m : Header) (fs1 fs2 : list field)
    (cs : list byte) (l : byte) :
  Forall (fun b => is_cont b = true) cs -> is_cont l = false ->
  (length cs <= 9)%nat ->
  forallb field_ok fs1 = true -> forallb field_ok fs2 = true ->
  len (fields_bytes fs1) + len cs + 2 + len (fields_bytes fs2) <= MaxInt ->
  let v := varint_value (cs ++ [l]) in
  let without := fold_left apply_field (fs1 ++ fs2) m in
  (exists m',
     Unmarshal m (fields_bytes fs1 ++ (x10 :: cs ++ [l]) ++ fields_bytes fs2) = Ok m'
     /\ (absent 2 fs2 -> Type_ m' = int32 v)
     /\ same_except 2 m' without)
  /\ (exists m',
        Unmarshal m (fields_bytes fs1 ++ (x20 :: cs ++ [l]) ++ fields_bytes fs2) = Ok m'
        /\ (absent 4 fs2 -> Gzip m' = int32 v)
        /\ same_except 4 m' without)
  /\ (exists m',
        Unmarshal m (fields_bytes fs1 ++ (x28 :: cs ++ [l]) ++ fields_bytes fs2) = Ok m'
        /\ (absent 5 fs2 -> StatusCode m' = int32 v)
        /\ same_except 5 m' without)
  /\ int32 v mod 2 ^ 32 = v mod 2 ^ 32
  /\ - 2 ^ 31 <= int32 v < 2 ^ 31.
Proof.
  intros Hcs Hl Hlen Hok1 Hok2 Hmax v without.
  unfold without. rewrite fold_left_app.
  split; [|split; [|split; [|split]]].
  - eexists. split; [|split].
    + apply (int32_field_overlong x10 16 set_Type); try assumption;
        [reflexivity|lia|].
      intros dAtA m0 i i1 i2 x Ha Hb.
      exact (Unmarshal_field_Type dAtA m0 i i1 i2 x Ha Hb).
    + intros Habs.
      rewrite (fold_apply_absent Type_ 2); [reflexivity| |exact Habs].
      intros m0 f Hf. destruct f; cbn in *; congruence.
    + apply same_except_fold. unfold same_except. cbn. repeat split; congruence.
  - eexists. split; [|split].
    + apply (int32_field_overlong x20 32 set_Gzip); try assumption;
        [reflexivity|lia|].
      intros dAtA m0 i i1 i2 x Ha Hb.
      exact (Unmarshal_field_Gzip dAtA m0 i i1 i2 x Ha Hb).
    + intros Habs.
      rewrite (fold_apply_absent Gzip 4); [reflexivity| |exact Habs].
      intros m0 f Hf. destruct f; cbn in *; congruence.
    + apply same_except_fold. unfold same_except. cbn. repeat split; congruence.
  - eexists. split; [|split].
    + apply (int32_field_overlong x28 40 set_StatusCode); try assumption;
        [reflexivity|lia|].
      intros dAtA m0 i i1 i2 x Ha Hb.
      exact (Unmarshal_field_StatusCode dAtA m0 i i1 i2 x Ha Hb).
    + intros Habs.
      rewrite (fold_apply_absent StatusCode 5); [reflexivity| |exact Habs].
      intros m0 f Hf. destruct f; cbn in *; congruence.
    + apply same_except_fold. unfold same_except. cbn. repeat split; congruence.
  - apply int32_low_bits.
  - apply int32_range.
Qed.

(** Sequence number 7, then a Type of six bytes carrying the 36-bit value
    2^36 - 1, then status code 200: the Type read back is -1, the other
    fields are those of the two fields around it. *)
Lemma Unmarshal_int32_low_bits_witness :
  Forall (fun b => is_cont b = true) [xff; xff; xff; xff; xff]
  /\ is_cont x01 = false
  /\ varint_value ([xff; xff; xff; xff; xff] ++ [x01]) = 2 ^ 36 - 1
  /\ exists m',
       Unmarshal Header_zero
         ([x08; x07] ++ (x10 :: [xff; xff; xff; xff; xff] ++ [x01]) ++ [x28; xc8; x01])
       = Ok m'
       /\ Type_ m' = -1 /\ Seq m' = 7 /\ StatusCode m' = 200.
Proof.
  assert (H1 : Forall (fun b => is_cont b = true) [xff; xff; xff; xff; xff])
    by (repeat constructor).
  assert (H2 : is_cont x01 = false) by reflexivity.
  assert (H3 : absent 2 [FStatusCode 200])
    by (repeat constructor; discriminate).
  split; [exact H1|]. split; [exact H2|]. split; [vm_compute; reflexivity|].
  destruct (proj1 (Unmarshal_int32_low_bits Header_zero [FSeq 7] [FStatusCode 200]
                     _ x01 H1 H2 ltac:(simpl; lia) eq_refl eq_refl
                     ltac:(vm_compute; discriminate)))
    as (m' & Hm & Ht & Hs).
  exists m'. split; [exact Hm|]. split; [exact (Ht H3)|].
  destruct Hs as (Hseq & _ & _ & _ & Hsc & _).
  split; [exact (Hseq ltac:(discriminate))|exact (Hsc ltac:(discriminate))].
Defined.

(* ===================================================================== *)
(** * Packets and their pool *)

(** C6 as amended.  When the lookup of a codec name returns an error,
    [SetHeaderCodecByName] and [SetBodyCodecByName] panic with that error
    (no error value is returned to the caller), and the packet, its codec
    ids included, is as it was before the call. *)
Theorem set_codec_by_unknown_name {V : Type} (codec : codec_pkg) (p : Packet V)
    (codecName : string) (c : option Codec) (e : error) :
  GetByName codec codecName = (c, Some e) ->
  SetHeaderCodecByName codec p codecName = (p, Panic (PanicError e))
  /\ SetBodyCodecByName codec p codecName = (p, Panic (PanicError e)).
Proof.
  intros Hget. unfold SetHeaderCodecByName, SetBodyCodecByName, getCodecByName.
  rewrite Hget. split; reflexivity.
Qed.

Lemma set_codec_by_unknown_name_witness :
  GetByName no_codecs "json" = (None, Some (ErrCodecNotFound "json"))
  /\ SetHeaderCodecByName no_codecs with_body "json"
     = (with_body, Panic (PanicError (ErrCodecNotFound "json"))).
Proof.
  assert (H : GetByName no_codecs "json" = (None, Some (ErrCodecNotFound "json")))
    by reflexivity.
  split; [exact H|].
  exact (proj1 (set_codec_by_unknown_name no_codecs with_body "json" None _ H)).
Defined.

(** With no codec registered under the name, the call does not end by
    returning an error: it panics. *)
Lemma set_codec_by_unknown_name_panics :
  snd (SetHeaderCodecByName no_codecs with_body "json")
  = Panic (PanicError (ErrCodecNotFound "json"))
  /\ (forall e, snd (SetHeaderCodecByName no_codecs with_body "json") <> Err e)
  /\ snd (SetBodyCodecByName no_codecs with_body "json")
     = Panic (PanicError (ErrCodecNotFound "json")).
Proof.
  split; [reflexivity|]. split; [intros e; discriminate|reflexivity].
Qed.

(** C7.  In every state that callers and the pool can reach - callers
    getting packets, making packets of their own, writing what they like to
    the packets they hold (the header pointer included) and to any header,
    and putting back only packets they hold: a packet that [GetPacket] returns is held by no
    caller, no other packet has changed, and it holds what the settings of
    the call, or none of them, have made of a packet that reads blank - the
    six header fields zero or empty, the body nil, both codec ids the nil
    id - in a store where no other header has changed; without settings
    [GetPacket] returns such a packet, unless the packet at the head of the
    free list was put back with a nil header pointer, in which case it
    panics and hands out nothing; and [PutPacket] of a held packet leaves
    its body nil and the packet at the head of the free list. *)
Theorem pool_correct {V : Type} (codec : codec_pkg) (st : pool V * gset loc) :
  pool_reachable codec st ->
  (forall bodyGetting settings p w',
     GetPacket codec bodyGetting settings (fst st) = Ok (p, w') ->
     (p ∉ snd st)
     /\ (forall q, q <> p -> heap w' !! q = heap (fst st) !! q)
     /\ exists pk0 hs0 applied pk,
          reads_blank codec pk0 hs0
          /\ (forall l, PHeader pk0 <> Some l -> hs0 !! l = hdrs (fst st) !! l)
          /\ (applied = settings \/ applied = [])
          /\ apply_settings pk0 hs0 applied = Ok (pk, hdrs w')
          /\ heap w' !! p = Some pk)
  /\ (forall bodyGetting,
        (exists p w' pk,
           GetPacket codec bodyGetting [] (fst st) = Ok (p, w')
           /\ (p ∉ snd st) /\ heap w' !! p = Some pk
           /\ reads_blank codec pk (hdrs w'))
        \/ (GetPacket codec bodyGetting [] (fst st) = Panic PanicNilDeref
            /\ exists q pk, freePacket (fst st) = Some q
                            /\ heap (fst st) !! q = Some pk /\ PHeader pk = None))
  /\ (forall p, p ∈ snd st ->
        exists w' pk, PutPacket p (fst st) = Ok w'
          /\ heap w' !! p = Some pk /\ Body pk = None /\ freePacket w' = Some p).
Proof.
  intros Hr. apply pool_reachable_inv in Hr.
  split; [|split].
  - intros bg settings p w' Hget. exact (GetPacket_inv codec st bg settings p w' Hr Hget).
  - intros bg. exact (GetPacket_no_settings codec st bg Hr).
  - intros p Hp. apply PutPacket_inv; assumption.
Qed.

(** Two packets are taken; the holder of the first sets a body, fills the
    header and puts the packet back. *)
Lemma used_pool_reachable : pool_reachable no_codecs (used_pool, {[2%positive]}).
Proof.
  set (b1 := blank (V:=nat) no_codecs None 1%positive).
  set (b2 := blank (V:=nat) no_codecs None 2%positive).
  set (w1 := mkPool {[1%positive := b1]} {[1%positive := Header_zero]} None).
  set (w2 := mkPool {[1%positive := b1; 2%positive := b2]}
                    {[1%positive := Header_zero; 2%positive := Header_zero]} None).
  set (w3 := mkPool (<[1%positive := set_Body b1 (Some 1%nat)]> (heap w2))
                    {[1%positive := ping; 2%positive := Header_zero]}
                    (freePacket w2)).
  set (w4 := mkPool (<[1%positive := set_next (set_Body (set_Body b1 (Some 1%nat)) None)
                                       (freePacket w3)]> (heap w3))
                    (hdrs w3) (Some 1%positive)).
  set (l1 := {[1%positive]} ∪ (∅ : gset loc)).
  set (l2 := {[2%positive]} ∪ l1).
  assert (H1 : pool_reachable no_codecs (w1, l1)).
  { eapply reach_step; [apply reach_init|].
    apply (step_get no_codecs pool_empty ∅ None [] 1%positive w1); [constructor|].
    vm_compute. reflexivity. }
  assert (H2 : pool_reachable no_codecs (w2, l2)).
  { eapply reach_step; [exact H1|].
    apply (step_get no_codecs w1 l1 None [] 2%positive w2); [constructor|].
    vm_compute. reflexivity. }
  assert (H3 : pool_reachable no_codecs (w3, l2)).
  { eapply reach_step; [exact H2|].
    apply (step_use no_codecs w2 l2 1%positive b1 (set_Body b1 (Some 1%nat))
             {[1%positive := ping; 2%positive := Header_zero]}).
    - unfold l2, l1. set_solver.
    - vm_compute. reflexivity.
    - cbn [hdrs w2]. rewrite !dom_insert_L. reflexivity.
    - intros l Hl. cbn in Hl. injection Hl as <-. vm_compute. eauto. }
  assert (H4 : pool_reachable no_codecs (w4, l2 ∖ {[1%positive]})).
  { eapply reach_step; [exact H3|].
    apply (step_put no_codecs w3 l2 1%positive w4); [unfold l2, l1; set_solver|].
    unfold PutPacket. cbn [heap w3]. rewrite lookup_insert_eq. reflexivity. }
  assert (E : (used_pool, ({[2%positive]} : gset loc)) = (w4, l2 ∖ {[1%positive]}))
    by (vm_compute; reflexivity).
  rewrite E. exact H4.
Qed.

(** The next [GetPacket] hands out the first packet again - not the one
    the other caller holds - and it reads blank, its header zero where it
    held [ping]. *)
Lemma pool_correct_witness :
  pool_reachable no_codecs (used_pool, {[2%positive]})
  /\ exists p w' pk,
       GetPacket no_codecs None [] used_pool = Ok (p, w')
       /\ (p ∉ ({[2%positive]} : gset loc)) /\ heap w' !! p = Some pk
       /\ reads_blank no_codecs pk (hdrs w').
Proof.
  split; [exact used_pool_reachable|].
  destruct (proj1 (proj2 (pool_correct no_codecs (used_pool, {[2%positive]})
                            used_pool_reachable)) None) as [H|[H _]].
  - exact H.
  - exfalso. vm_compute in H. discriminate H.
Defined.

(** C8.  On an empty free list [GetPacket] allocates with
    [NewPacket(bodyGetting)] and the settings are not run: asked for gzip
    level 5 it hands out a packet whose header has gzip level 0, where the
    same call on a recycled packet gives 5. *)
Theorem GetPacket_fresh_ignores_settings :
  (exists p w' pk l h,
     GetPacket no_codecs None [WithBodyGzip (V:=nat) 5] pool_empty = Ok (p, w')
     /\ heap w' !! p = Some pk /\ PHeader pk = Some l /\ hdrs w' !! l = Some h
     /\ Gzip h = 0)
  /\ (exists p0 w0 w1 p w' pk l h,
        GetPacket no_codecs None [] (@pool_empty nat) = Ok (p0, w0)
        /\ PutPacket p0 w0 = Ok w1
        /\ GetPacket no_codecs None [WithBodyGzip 5] w1 = Ok (p, w')
        /\ heap w' !! p = Some pk /\ PHeader pk = Some l /\ hdrs w' !! l = Some h
        /\ Gzip h = 5).
Proof.
  split.
  - exists 1%positive,
      (mkPool {[1%positive := blank (V:=nat) no_codecs None 1%positive]}
              {[1%positive := Header_zero]} None),
      (blank (V:=nat) no_codecs None 1%positive), 1%positive, Header_zero.
    split; [vm_compute; reflexivity|]. split; [vm_compute; reflexivity|].
    split; [reflexivity|]. split; [vm_compute; reflexivity|reflexivity].
  - exists 1%positive,
      (mkPool {[1%positive := blank (V:=nat) no_codecs None 1%positive]}
              {[1%positive := Header_zero]} None),
      (mkPool {[1%positive := blank (V:=nat) no_codecs None 1%positive]}
              {[1%positive := Header_zero]} (Some 1%positive)),
      1%positive,
      (mkPool {[1%positive := blank (V:=nat) no_codecs None 1%positive]}
              {[1%positive := set_Gzip Header_zero 5]} None),
      (blank (V:=nat) no_codecs None 1%positive), 1%positive, (set_Gzip Header_zero 5).
    split; [vm_compute; reflexivity|]. split; [vm_compute; reflexivity|].
    split; [vm_compute; reflexivity|]. split; [vm_compute; reflexivity|].
    split; [reflexivity|]. split; [vm_compute; reflexivity|reflexivity].
Qed.

(** C9 as amended.  After [loadBody] the body of the packet is the value
    the call returns: the result of the body getter applied to the packet's
    header pointer when a getter is set, and nil when none is set, whatever
    the body was before.  The call ends as the getter does; without a
    getter it always returns, and writes no header. *)
Theorem loadBody_spec {V : Type} (p : Packet V) (hs : headers) :
  match bodyGetting p with
  | Some g =>
      match g (PHeader p) hs with
      | Ok (b, hs') =>
          exists p', loadBody p hs = Ok (p', hs', b)
                     /\ Body p' = b /\ PHeader p' = PHeader p
      | Err e => loadBody p hs = Err e
      | Panic x => loadBody p hs = Panic x
      | OutOfFuel => loadBody p hs = OutOfFuel
      end
  | None =>
      exists p', loadBody p hs = Ok (p', hs, None)
                 /\ Body p' = None /\ PHeader p' = PHeader p
  end.
Proof.
  unfold loadBody. destruct (bodyGetting p) as [g|].
  - destruct (g (PHeader p) hs) as [[b hs']| | |]; cbn [mbind outcome_bind];
      try reflexivity.
    eexists. split; [reflexivity|]. split; reflexivity.
  - eexists. split; [reflexivity|]. split; reflexivity.
Qed.

(** A body assigned directly is gone after [loadBody] when no getter is
    set. *)
Lemma loadBody_drops_body :
  bodyGetting with_body = None /\ Body with_body = Some 1%nat
  /\ exists p', loadBody with_body ∅ = Ok (p', ∅, None)
                /\ Body p' = None /\ Body p' <> Body with_body.
Proof.
  split; [reflexivity|]. split; [reflexivity|].
  exists (set_Body with_body None). split; [reflexivity|].
  split; [reflexivity|discriminate].
Qed.

(* ===================================================================== *)
(** * Further properties of the encoder *)

(** X1.  [Size] is the length of what [Marshal] returns. *)
Theorem Size_is_Marshal_length (h : Header) :
  Header_wf h ->
  exists dAtA, Marshal h = Ok dAtA /\ Size h = Ok (len dAtA).
Proof.
  intros Hwf. exists (wire_bytes h).
  split; [apply Marshal_spec|apply Size_spec]; apply (wf_size h Hwf).
Qed.

Lemma Size_is_Marshal_length_witness :
  Header_wf ping /\ exists dAtA, Marshal ping = Ok dAtA /\ Size ping = Ok (len dAtA).
Proof. split; [exact ping_wf|exact (Size_is_Marshal_length ping ping_wf)]. Defined.

Lemma varint_bytes_bounds (n : nat) :
  forall v, 0 <= v < 2 ^ (7 * (Z.of_nat n + 1)) ->
  2 ^ (7 * (len (varint_bytes n v) - 1)) <= Z.max v 1
  /\ v < 2 ^ (7 * len (varint_bytes n v)).
Proof.
  induction n as [|n IH]; intros v Hv.
  - assert (E : (2 ^ 7 <=? v) = false) by (apply Z.leb_gt; simpl in Hv; lia).
    simpl. rewrite E. change (len [uint8 v]) with 1. simpl. lia.
  - cbn [varint_bytes]. destruct (2 ^ 7 <=? v) eqn:E.
    + destruct (IH (Z.shiftr v 7) (shiftr7_bound v n Hv)) as [Hlo Hhi].
      rewrite len_cons.
      set (k := len (varint_bytes n (Z.shiftr v 7))) in *.
      assert (Hk : 1 <= k).
      { unfold k, len. pose proof (varint_bytes_nonempty n (Z.shiftr v 7)). lia. }
      rewrite Z.shiftr_div_pow2 in Hlo, Hhi by lia.
      apply Z.leb_le in E.
      assert (Hq : 1 <= v / 2 ^ 7) by (apply Z.div_le_lower_bound; lia).
      rewrite Z.max_l in Hlo by lia. rewrite Z.max_l by lia.
      replace (7 * (1 + k - 1)) with (7 + 7 * (k - 1)) by lia.
      replace (7 * (1 + k)) with (7 + 7 * k) by lia.
      rewrite !Z.pow_add_r by lia.
      pose proof (Z.div_mod v (2 ^ 7) ltac:(lia)) as Hdm.
      pose proof (Z.mod_pos_bound v (2 ^ 7) ltac:(lia)) as Hmb.
      split; nia.
    + apply Z.leb_gt in E. change (len [uint8 v]) with 1. simpl. lia.
Qed.

(** X2.  [sovHeader] counts between one and ten bytes, the fewest 7-bit
    groups that hold the value, and [encodeVarintHeader] advances the
    offset by exactly that count, leaving the buffer outside those bytes as
    it was. *)
Theorem sovHeader_encodeVarintHeader (v : Z) (done junk : list byte) :
  0 <= v < 2 ^ 64 -> (10 <= length junk)%nat ->
  exists n buf,
    sovHeader v = Ok n /\ 1 <= n <= 10
    /\ 2 ^ (7 * (n - 1)) <= Z.max v 1 /\ v < 2 ^ (7 * n)
    /\ encodeVarintHeader (done ++ junk) (len done) v = Ok (buf, len done + n)
    /\ take (length done) buf = done
    /\ drop (length done + Z.to_nat n) buf = drop (Z.to_nat n) junk
    /\ length buf = length (done ++ junk).
Proof.
  intros Hv Hroom.
  assert (H70 : 0 <= v < 2 ^ (7 * (Z.of_nat 9 + 1)))
    by (change (7 * (Z.of_nat 9 + 1)) with 70; lia).
  pose proof (varint_bytes_length 9 v H70) as Hlen.
  pose proof (varint_bytes_nonempty 9 v) as Hne.
  destruct (varint_bytes_bounds 9 v H70) as [Hlo Hhi].
  fold (varint v) in *.
  exists (len (varint v)), (done ++ varint v ++ drop (length (varint v)) junk).
  replace (Z.to_nat (len (varint v))) with (length (varint v)) by (unfold len; lia).
  split; [apply sovHeader_spec; assumption|].
  split; [unfold len; lia|].
  split; [assumption|]. split; [assumption|].
  split; [apply encodeVarintHeader_spec; [assumption|lia]|].
  split; [apply take_app_length|].
  split.
  - rewrite drop_app_ge by lia.
    replace (length done + length (varint v) - length done)%nat
      with (length (varint v)) by lia.
    apply drop_app_length.
  - rewrite !length_app, length_drop. lia.
Qed.

Lemma sovHeader_encodeVarintHeader_witness :
  0 <= 300 < 2 ^ 64
  /\ exists n buf, sovHeader 300 = Ok n
       /\ encodeVarintHeader ([x08] ++ replicate 10 x00) (len [x08]) 300
          = Ok (buf, len [x08] + n).
Proof.
  split; [lia|].
  destruct (sovHeader_encodeVarintHeader 300 [x08] (replicate 10 x00) ltac:(lia)
              ltac:(simpl; lia)) as (n & buf & H1 & _ & _ & _ & H2 & _).
  exists n, buf. split; [exact H1|exact H2].
Defined.

(** X3.  What [encodeVarintHeader] writes, the varint loop of the decoder
    reads back: the same value, and the same end offset. *)
Theorem encodeVarintHeader_decoded (v : Z) (done junk buf : list byte) (off : Z) :
  0 <= v < 2 ^ 64 -> (10 <= length junk)%nat ->
  encodeVarintHeader (done ++ junk) (len done) v = Ok (buf, off) ->
  varint_uint64 buf (len done) = Ok (v, off).
Proof.
  intros Hv Hroom Henc.
  assert (H70 : 0 <= v < 2 ^ (7 * (Z.of_nat 9 + 1)))
    by (change (7 * (Z.of_nat 9 + 1)) with 70; lia).
  pose proof (varint_bytes_length 9 v H70) as Hlen. fold (varint v) in Hlen.
  rewrite encodeVarintHeader_spec in Henc by (assumption || lia).
  injection Henc as <- <-. apply varint_uint64_varint. assumption.
Qed.

Lemma encodeVarintHeader_decoded_witness :
  0 <= 300 < 2 ^ 64
  /\ varint_uint64 [x08; xac; x02; x00; x00; x00; x00; x00; x00; x00; x00] (len [x08])
     = Ok (300, 3).
Proof.
  split; [lia|].
  apply (encodeVarintHeader_decoded 300 [x08] (replicate 10 x00)); [lia|simpl; lia|].
  vm_compute. reflexivity.
Defined.

(** X4.  [MarshalTo] writes the bytes [Marshal] returns at the front of the
    buffer it is given, returns their count, and leaves the rest of the
    buffer as it was. *)
Theorem MarshalTo_front (h : Header) (bs junk : list byte) :
  Header_wf h -> Marshal h = Ok bs ->
  (length bs <= length junk)%nat -> len junk <= MaxInt ->
  MarshalTo h junk = Ok (bs ++ drop (length bs) junk, len bs).
Proof.
  intros Hwf Hm Hroom Hmax. rewrite Marshal_spec in Hm by apply (wf_size h Hwf).
  injection Hm as <-. apply MarshalTo_spec; assumption.
Qed.

Lemma MarshalTo_front_witness :
  Header_wf ping /\ Marshal ping = Ok (wire_bytes ping)
  /\ MarshalTo ping (wire_bytes ping ++ [xff; xff])
     = Ok (wire_bytes ping ++ drop (length (wire_bytes ping)) (wire_bytes ping ++ [xff; xff]),
           len (wire_bytes ping)).
Proof.
  assert (Hm : Marshal ping = Ok (wire_bytes ping)) by (vm_compute; reflexivity).
  split; [exact ping_wf|]. split; [exact Hm|].
  apply (MarshalTo_front ping _ _ ping_wf Hm).
  - vm_compute. lia.
  - apply Z.leb_le. vm_compute. reflexivity.
Defined.

(* ===================================================================== *)
(** * Further properties of the decoder *)

Ltac step_if :=
  match goal with
  | |- (if ?c then _ else _) = _ =>
      let E := fresh "E" in destruct c eqn:E; try (exfalso; lia)
  end.

(** After a run of well-formed fields the loop is at the next byte. *)
Lemma Unmarshal_after_fields (fs : list field) (bad : list byte) (m : Header) :
  forallb field_ok fs = true -> len (fields_bytes fs ++ bad) <= MaxInt ->
  bad <> [] ->
  Unmarshal m (fields_bytes fs ++ bad)
  = ('(m', i) ← Unmarshal_field (fields_bytes fs ++ bad)
                  (fold_left apply_field fs m) (len (fields_bytes fs));
     Unmarshal_loop (length (fields_bytes fs ++ bad) - length fs - 1)
       (fields_bytes fs ++ bad) m' i).
Proof.
  intros Hok Hmax Hbad. unfold Unmarshal.
  pose proof (Unmarshal_loop_fields fs [] bad m (length (fields_bytes fs ++ bad)) Hok) as H.
  cbn [app] in H. rewrite len_nil, Z.add_0_l in H.
  pose proof (fields_bytes_length fs) as Hfl.
  assert (Hb : (1 <= length bad)%nat) by (destruct bad; [congruence|simpl; lia]).
  rewrite H by (assumption || (rewrite length_app; lia)).
  destruct (length (fields_bytes fs ++ bad) - length fs)%nat as [|k] eqn:Ek;
    [rewrite length_app in Ek; lia|].
  cbn [Unmarshal_loop].
  pose proof (len_nonneg (fields_bytes fs)).
  assert (0 < len bad) by (unfold len; lia).
  rewrite len_app at 1. if_true.
  replace (S k - 1)%nat with k by lia. reflexivity.
Qed.

Lemma Unmarshal_stops (fs : list field) (bad : list byte) (m : Header)
    (r : outcome Header) :
  forallb field_ok fs = true -> len (fields_bytes fs ++ bad) <= MaxInt ->
  bad <> [] ->
  (forall m', (exists e, Unmarshal_field (fields_bytes fs ++ bad) m'
                           (len (fields_bytes fs)) = Err e /\ r = Err e)
              \/ (exists x, Unmarshal_field (fields_bytes fs ++ bad) m'
                              (len (fields_bytes fs)) = Panic x /\ r = Panic x)) ->
  Unmarshal m (fields_bytes fs ++ bad) = r.
Proof.
  intros Hok Hmax Hbad Hf. rewrite Unmarshal_after_fields by assumption.
  destruct (Hf (fold_left apply_field fs m)) as [(e & -> & ->)|(x & -> & ->)];
    reflexivity.
Qed.

(** The turn of the loop after a tag has been read, for a tag of a field
    number the switch does not know. *)
Lemma Unmarshal_field_default (fn wt : Z) (pre rest : list byte) (m : Header) :
  7 <= fn < 2 ^ 31 -> 0 <= wt < 8 -> wt <> 4 ->
  Unmarshal_field (pre ++ tag_bytes fn wt ++ rest) m (len pre)
  = (skippy ← skipHeader (tag_bytes fn wt ++ rest);
     if skippy <? 0 then Err ErrInvalidLengthHeader
     else if int (len pre + skippy) >? len (pre ++ tag_bytes fn wt ++ rest)
          then Err ErrUnexpectedEOF
          else Ok (m, int (len pre + skippy))).
Proof.
  intros Hfn Hwt Hwt4.
  assert (Hok : fieldNum_ok fn = true) by (unfold fieldNum_ok; lia).
  unfold Unmarshal_field.
  rewrite tag_bytes_decode by assumption. cbn [mbind outcome_bind].
  destruct (tag_split fn wt ltac:(lia) Hwt) as [-> ->].
  rewrite (int_small wt) by (unfold MaxInt; lia).
  rewrite (int32_small fn) by lia.
  do 8 if_false. rewrite slice_from_middle. reflexivity.
Qed.

(** The turn of the loop after the tag of a string field. *)
Lemma Unmarshal_field_string (fn : Z) (pre rest : list byte) (m : Header) :
  fn = 3 \/ fn = 6 ->
  Unmarshal_field (pre ++ tag_bytes fn 2 ++ rest) m (len pre)
  = ('(s, i) ← read_string (pre ++ tag_bytes fn 2 ++ rest) (len pre + 1);
     Ok ((if fn =? 3 then set_Uri m s else set_Status m s), i)).
Proof.
  intros Hfn. unfold Unmarshal_field.
  rewrite tag_bytes_decode by (destruct Hfn; subst; (reflexivity || lia)).
  cbn [mbind outcome_bind]. destruct Hfn; subst; reflexivity.
Qed.

(** X5.  Decoding a run of well-formed fields, in any order, with repeated
    field numbers and with unknown fields among them, applies them to the
    receiver from left to right: the last occurrence of a field number wins
    and unknown fields change nothing. *)
Theorem Unmarshal_applies_fields (fs : list field) (m : Header) :
  forallb field_ok fs = true -> len (fields_bytes fs) <= MaxInt ->
  Unmarshal m (fields_bytes fs) = Ok (fold_left apply_field fs m).
Proof. apply Unmarshal_fields. Qed.

Lemma Unmarshal_applies_fields_witness :
  forallb field_ok [FSeq 1; FUnknown sample_group; FSeq 2; FUri [x61]] = true
  /\ Unmarshal ping (fields_bytes [FSeq 1; FUnknown sample_group; FSeq 2; FUri [x61]])
     = Ok (mkHeader 2 1 [x61] 0 200 [x4f; x4b]).
Proof.
  assert (H : forallb field_ok [FSeq 1; FUnknown sample_group; FSeq 2; FUri [x61]] = true)
    by (vm_compute; reflexivity).
  split; [exact H|].
  apply (Unmarshal_applies_fields _ ping H). apply Z.leb_le. vm_compute. reflexivity.
Defined.

Lemma header_fields_merge (m h : Header) :
  fold_left apply_field (header_fields h) m = merge m h.
Proof.
  destruct m as [seq' ty' uri' gz' sc' st']. destruct h as [seq ty uri gz sc st].
  unfold header_fields, merge. cbn [Seq Type_ Uri Gzip StatusCode Status].
  rewrite !fold_left_app.
  destruct (seq =? 0), (ty =? 0), (len uri >? 0), (gz =? 0), (sc =? 0), (len st >? 0);
    reflexivity.
Qed.

(** X6.  [Unmarshal] does not reset its receiver: decoding the encoding of
    [h] into a header [m] overwrites the fields that are not zero in [h]
    and keeps what [m] held in the others; decoding the empty buffer
    changes nothing. *)
Theorem Unmarshal_merges (m h : Header) :
  Header_wf h ->
  (dAtA ← Marshal h; Unmarshal m dAtA) = Ok (merge m h)
  /\ Unmarshal m [] = Ok m.
Proof.
  intros Hwf. split; [|reflexivity].
  rewrite Marshal_spec by apply (wf_size h Hwf). cbn [mbind outcome_bind].
  rewrite wire_bytes_fields, Unmarshal_fields.
  - rewrite header_fields_merge. reflexivity.
  - apply header_fields_ok. assumption.
  - rewrite <- wire_bytes_fields. apply (wf_size h Hwf).
Qed.

Lemma Unmarshal_merges_witness :
  Header_wf (mkHeader 0 5 [] 0 0 [])
  /\ (dAtA ← Marshal (mkHeader 0 5 [] 0 0 []); Unmarshal ping dAtA)
     = Ok (mkHeader 7 5 [x2f; x70; x69; x6e; x67] 0 200 [x4f; x4b]).
Proof.
  assert (H : Header_wf (mkHeader 0 5 [] 0 0 [])).
  { constructor; cbn; try lia. apply Z.leb_le. vm_compute. reflexivity. }
  split; [exact H|]. exact (proj1 (Unmarshal_merges ping _ H)).
Defined.

Lemma Unmarshal_field_known_tag (fn wt : Z) (pre rest : list byte) (m : Header) :
  1 <= fn <= 6 -> 0 <= wt < 8 -> wt <> 4 -> wt <> field_wire_type fn ->
  Unmarshal_field (pre ++ tag_bytes fn wt ++ rest) m (len pre)
  = Err (ErrWrongWireType wt (field_name fn)).
Proof.
  intros Hfn Hwt Hwt4 Hty.
  assert (Hok : fieldNum_ok fn = true) by (unfold fieldNum_ok; lia).
  unfold Unmarshal_field.
  rewrite tag_bytes_decode by assumption. cbn [mbind outcome_bind].
  destruct (tag_split fn wt ltac:(lia) Hwt) as [-> ->].
  rewrite (int_small wt) by (unfold MaxInt; lia).
  rewrite (int32_small fn) by lia.
  assert (Hc : fn = 1 \/ fn = 2 \/ fn = 3 \/ fn = 4 \/ fn = 5 \/ fn = 6) by lia.
  destruct Hc as [->|[->|[->|[->|[->| ->]]]]];
    cbn in Hty; if_false; cbn [Z.leb Z.eqb Z.compare Pos.eqb Pos.compare];
    match goal with
    | |- (if negb ?c then _ else _) = _ =>
        let E := fresh "E" in destruct c eqn:E; [exfalso; lia|reflexivity]
    end.
Qed.

(** X7.  A field number from 1 to 6 that arrives with another wire type
    than the one of its field (2 for the strings, 0 for the integers) makes
    [Unmarshal] return the wrong-wire-type error naming the field, wherever
    in a run of well-formed fields it stands. *)
Theorem Unmarshal_wrong_wire_type (fs : list field) (fn wt : Z)
    (rest : list byte) (m : Header) :
  forallb field_ok fs = true ->
  1 <= fn <= 6 -> 0 <= wt < 8 -> wt <> 4 -> wt <> field_wire_type fn ->
  len (fields_bytes fs ++ tag_bytes fn wt ++ rest) <= MaxInt ->
  Unmarshal m (fields_bytes fs ++ tag_bytes fn wt ++ rest)
  = Err (ErrWrongWireType wt (field_name fn)).
Proof.
  intros Hok Hfn Hwt Hwt4 Hty Hmax.
  apply Unmarshal_stops; try assumption.
  - pose proof (tag_bytes_length fn wt). destruct (tag_bytes fn wt); [simpl in *; lia|discriminate].
  - intros m'. left. eexists. split; [|reflexivity].
    apply Unmarshal_field_known_tag; assumption.
Qed.

Lemma Unmarshal_wrong_wire_type_witness :
  forallb field_ok [FSeq 7] = true
  /\ Unmarshal Header_zero (fields_bytes [FSeq 7] ++ tag_bytes 3 0 ++ [x05])
     = Err (ErrWrongWireType 0 "Uri").
Proof.
  split; [reflexivity|].
  apply (Unmarshal_wrong_wire_type [FSeq 7] 3 0 [x05] Header_zero);
    try reflexivity; try lia; try (cbn; lia).
  apply Z.leb_le. vm_compute. reflexivity.
Defined.

(** X8.  A tag of wire type 4 is rejected as an end-group outside a group,
    whatever its field number; a tag of another wire type whose field
    number reads as zero or negative in 32 bits is rejected as an illegal
    tag. *)
Theorem Unmarshal_bad_tag (fs : list field) (fn wt : Z) (rest : list byte)
    (m : Header) :
  forallb field_ok fs = true ->
  0 <= fn < 2 ^ 61 -> 0 <= wt < 8 ->
  len (fields_bytes fs ++ tag_bytes fn wt ++ rest) <= MaxInt ->
  (wt = 4 ->
   Unmarshal m (fields_bytes fs ++ tag_bytes fn wt ++ rest) = Err ErrEndGroup)
  /\ (wt <> 4 -> int32 fn <= 0 ->
      Unmarshal m (fields_bytes fs ++ tag_bytes fn wt ++ rest)
      = Err (ErrIllegalTag (int32 fn) (8 * fn + wt))).
Proof.
  intros Hok Hfn Hwt Hmax.
  assert (Hfok : fieldNum_ok fn = true) by (unfold fieldNum_ok; lia).
  assert (Hne : tag_bytes fn wt ++ rest <> []).
  { pose proof (tag_bytes_length fn wt).
    destruct (tag_bytes fn wt); [simpl in *; lia|discriminate]. }
  assert (Hf : forall m',
    Unmarshal_field (fields_bytes fs ++ tag_bytes fn wt ++ rest) m' (len (fields_bytes fs))
    = if wt =? 4 then Err ErrEndGroup
      else if int32 fn <=? 0 then Err (ErrIllegalTag (int32 fn) (8 * fn + wt))
      else Unmarshal_field (fields_bytes fs ++ tag_bytes fn wt ++ rest) m'
             (len (fields_bytes fs))).
  { intros m'. unfold Unmarshal_field.
    rewrite tag_bytes_decode by assumption. cbn [mbind outcome_bind].
    destruct (tag_split fn wt ltac:(lia) Hwt) as [-> ->].
    rewrite (int_small wt) by (unfold MaxInt; lia).
    destruct (wt =? 4); [reflexivity|].
    destruct (int32 fn <=? 0); reflexivity. }
  split.
  - intros ->. apply Unmarshal_stops; try assumption.
    intros m'. left. eexists. split; [|reflexivity]. rewrite Hf. reflexivity.
  - intros Hwt4 Hneg. apply Unmarshal_stops; try assumption.
    intros m'. left. eexists. split; [|reflexivity]. rewrite Hf.
    destruct (wt =? 4) eqn:E; [lia|].
    destruct (int32 fn <=? 0) eqn:E2; [reflexivity|lia].
Qed.

Lemma Unmarshal_bad_tag_witness :
  forallb field_ok [FSeq 7] = true
  /\ Unmarshal Header_zero (fields_bytes [FSeq 7] ++ tag_bytes 0 2 ++ [x00])
     = Err (ErrIllegalTag 0 2).
Proof.
  split; [reflexivity|].
  apply (proj2 (Unmarshal_bad_tag [FSeq 7] 0 2 [x00] Header_zero eq_refl
                  ltac:(lia) ltac:(lia) ltac:(apply Z.leb_le; vm_compute; reflexivity)));
    [lia|vm_compute; discriminate].
Defined.

Lemma tag_nonempty (fn wt : Z) (rest : list byte) : tag_bytes fn wt ++ rest <> [].
Proof.
  pose proof (tag_bytes_length fn wt).
  destruct (tag_bytes fn wt); [simpl in *; lia|discriminate].
Qed.

(** X9.  A field of an unknown number with wire type 6 or 7 makes
    [skipHeader], and with it [Unmarshal], return the illegal-wire-type
    error. *)
Theorem Unmarshal_illegal_wire_type (fs : list field) (fn wt : Z)
    (rest : list byte) (m : Header) :
  forallb field_ok fs = true ->
  7 <= fn < 2 ^ 31 -> wt = 6 \/ wt = 7 ->
  len (fields_bytes fs ++ tag_bytes fn wt ++ rest) <= MaxInt ->
  skipHeader (tag_bytes fn wt ++ rest) = Err (ErrIllegalWireType wt)
  /\ Unmarshal m (fields_bytes fs ++ tag_bytes fn wt ++ rest)
     = Err (ErrIllegalWireType wt).
Proof.
  intros Hok Hfn Hwt Hmax.
  assert (Hfok : fieldNum_ok fn = true) by (unfold fieldNum_ok; lia).
  assert (Hs : skipHeader (tag_bytes fn wt ++ rest) = Err (ErrIllegalWireType wt)).
  { unfold skipHeader.
    replace (2 * length (tag_bytes fn wt ++ rest) + 1)%nat
      with (S (2 * length (tag_bytes fn wt ++ rest))) by lia.
    rewrite skipHeader_fuel_tag by (assumption || lia).
    destruct Hwt; subst; reflexivity. }
  split; [exact Hs|].
  apply Unmarshal_stops; try assumption; [apply tag_nonempty|].
  intros m'. left. eexists. split; [|reflexivity].
  rewrite Unmarshal_field_default by lia. rewrite Hs. reflexivity.
Qed.

Lemma Unmarshal_illegal_wire_type_witness :
  forallb field_ok [FSeq 7] = true
  /\ Unmarshal Header_zero (fields_bytes [FSeq 7] ++ tag_bytes 9 7 ++ [])
     = Err (ErrIllegalWireType 7).
Proof.
  split; [reflexivity|].
  apply (Unmarshal_illegal_wire_type [FSeq 7] 9 7 [] Header_zero eq_refl);
    [lia|right; reflexivity|apply Z.leb_le; vm_compute; reflexivity].
Defined.

(** The three ways a string field's declared length can be wrong. *)
Lemma read_string_bad_length (L : Z) (pre rest : list byte) :
  0 <= L < 2 ^ 64 -> len (pre ++ varint L ++ rest) <= MaxInt ->
  (2 ^ 63 <= L ->
   read_string (pre ++ varint L ++ rest) (len pre) = Err ErrInvalidLengthHeader)
  /\ (L < 2 ^ 63 -> len pre + len (varint L) + L <= MaxInt -> len rest < L ->
      read_string (pre ++ varint L ++ rest) (len pre) = Err ErrUnexpectedEOF)
  /\ (L < 2 ^ 63 -> MaxInt < len pre + len (varint L) + L ->
      read_string (pre ++ varint L ++ rest) (len pre) = Panic PanicSlice).
Proof.
  intros HL Hmax.
  pose proof (len_nonneg pre). pose proof (len_nonneg rest).
  pose proof (len_nonneg (varint L)).
  assert (Hsum : len pre + len (varint L) + len rest <= MaxInt)
    by (revert Hmax; len_tac).
  unfold read_string. rewrite varint_uint64_varint by assumption.
  cbn [mbind outcome_bind]. rewrite !len_app.
  split; [|split].
  - intros Hbig.
    assert (Hi : int L = L - 2 ^ 64).
    { unfold int. replace (L + 2 ^ 63) with (L - 2 ^ 63 + 1 * 2 ^ 64) by lia.
      rewrite Z_mod_plus_full. rewrite Z.mod_small; lia. }
    rewrite Hi. if_true. reflexivity.
  - intros Hsmall Hfit Hshort.
    rewrite (int_small L) by (unfold MaxInt; lia). if_false.
    rewrite int_small by (unfold MaxInt in *; lia). if_true. reflexivity.
  - intros Hsmall Hover.
    rewrite (int_small L) by (unfold MaxInt; lia). if_false.
    assert (Hi : int (len pre + len (varint L) + L)
                 = len pre + len (varint L) + L - 2 ^ 64).
    { unfold int, MaxInt in *.
      replace (len pre + len (varint L) + L + 2 ^ 63)
        with (len pre + len (varint L) + L - 2 ^ 63 + 1 * 2 ^ 64) by lia.
      rewrite Z_mod_plus_full. rewrite Z.mod_small; lia. }
    rewrite Hi. unfold MaxInt in *. if_false.
    unfold slice.
    destruct (len pre + len (varint L) <? 0) eqn:E1; [lia|].
    destruct (len pre + len (varint L) + L - 2 ^ 64 <? len pre + len (varint L)) eqn:E2;
      [|lia].
    reflexivity.
Qed.

Lemma string_tag_offset (fn : Z) (pre rest : list byte) :
  fn = 3 \/ fn = 6 ->
  pre ++ tag_bytes fn 2 ++ rest = (pre ++ tag_bytes fn 2) ++ rest
  /\ len pre + 1 = len (pre ++ tag_bytes fn 2).
Proof.
  intros Hfn. split; [rewrite <- app_assoc; reflexivity|].
  rewrite len_app. destruct Hfn; subst; reflexivity.
Qed.

(** X10.  A string field (Uri, Status) whose length varint has bit 63 set
    makes [Unmarshal] return the negative-length error. *)
Theorem Unmarshal_negative_length (fs : list field) (fn L : Z)
    (rest : list byte) (m : Header) :
  forallb field_ok fs = true -> fn = 3 \/ fn = 6 ->
  2 ^ 63 <= L < 2 ^ 64 ->
  len (fields_bytes fs ++ tag_bytes fn 2 ++ varint L ++ rest) <= MaxInt ->
  Unmarshal m (fields_bytes fs ++ tag_bytes fn 2 ++ varint L ++ rest)
  = Err ErrInvalidLengthHeader.
Proof.
  intros Hok Hfn HL Hmax.
  apply Unmarshal_stops; try assumption; [apply tag_nonempty|].
  intros m'. left. eexists. split; [|reflexivity].
  rewrite Unmarshal_field_string by assumption.
  destruct (string_tag_offset fn (fields_bytes fs) (varint L ++ rest) Hfn) as [He Hi].
  rewrite He, Hi in *.
  rewrite (proj1 (read_string_bad_length L _ rest ltac:(lia) Hmax)) by lia.
  reflexivity.
Qed.

Lemma Unmarshal_negative_length_witness :
  forallb field_ok [FSeq 7] = true
  /\ Unmarshal Header_zero
       (fields_bytes [FSeq 7] ++ tag_bytes 3 2 ++ varint (2 ^ 63) ++ [x61])
     = Err ErrInvalidLengthHeader.
Proof.
  split; [reflexivity|].
  apply (Unmarshal_negative_length [FSeq 7] 3 (2 ^ 63) [x61] Header_zero eq_refl);
    [left; reflexivity|lia|apply Z.leb_le; vm_compute; reflexivity].
Defined.

(** X11.  A string field that declares more bytes than the buffer holds
    behind the length makes [Unmarshal] return the unexpected-end-of-input
    error, as long as the declared end still fits an [int]. *)
Theorem Unmarshal_length_beyond_buffer (fs : list field) (fn L : Z)
    (rest : list byte) (m : Header) :
  forallb field_ok fs = true -> fn = 3 \/ fn = 6 ->
  len rest < L ->
  len (fields_bytes fs) + 1 + len (varint L) + L <= MaxInt ->
  Unmarshal m (fields_bytes fs ++ tag_bytes fn 2 ++ varint L ++ rest)
  = Err ErrUnexpectedEOF.
Proof.
  intros Hok Hfn Hshort Hfit.
  pose proof (len_nonneg rest). pose proof (len_nonneg (fields_bytes fs)).
  pose proof (len_nonneg (varint L)).
  destruct (string_tag_offset fn (fields_bytes fs) (varint L ++ rest) Hfn) as [He Hi].
  assert (Hmax : len (fields_bytes fs ++ tag_bytes fn 2 ++ varint L ++ rest) <= MaxInt).
  { rewrite He, len_app, <- Hi, !len_app. lia. }
  apply Unmarshal_stops; try assumption; [apply tag_nonempty|].
  intros m'. left. eexists. split; [|reflexivity].
  rewrite Unmarshal_field_string by assumption.
  rewrite He, Hi in *.
  rewrite (proj1 (proj2 (read_string_bad_length L _ rest
             ltac:(unfold MaxInt in *; lia) Hmax))) by (unfold MaxInt in *; lia).
  reflexivity.
Qed.

Lemma Unmarshal_length_beyond_buffer_witness :
  forallb field_ok [FSeq 7] = true
  /\ Unmarshal Header_zero (fields_bytes [FSeq 7] ++ tag_bytes 6 2 ++ varint 3 ++ [x61; x62])
     = Err ErrUnexpectedEOF.
Proof.
  split; [reflexivity|].
  apply (Unmarshal_length_beyond_buffer [FSeq 7] 6 3 [x61; x62] Header_zero eq_refl);
    [right; reflexivity|vm_compute; reflexivity|].
  apply Z.leb_le. vm_compute. reflexivity.
Defined.

(** X12.  A string field whose declared length, added to the offset behind
    the length varint, exceeds the largest [int] is not rejected: the sum
    wraps to a negative end, the bounds test [postIndex > l] passes, and
    the slice expression panics. *)
Theorem Unmarshal_length_overflow_panics (fs : list field) (fn L : Z)
    (rest : list byte) (m : Header) :
  forallb field_ok fs = true -> fn = 3 \/ fn = 6 ->
  0 <= L < 2 ^ 63 ->
  MaxInt < len (fields_bytes fs) + 1 + len (varint L) + L ->
  len (fields_bytes fs ++ tag_bytes fn 2 ++ varint L ++ rest) <= MaxInt ->
  Unmarshal m (fields_bytes fs ++ tag_bytes fn 2 ++ varint L ++ rest)
  = Panic PanicSlice.
Proof.
  intros Hok Hfn HL Hover Hmax.
  apply Unmarshal_stops; try assumption; [apply tag_nonempty|].
  intros m'. right. eexists. split; [|reflexivity].
  rewrite Unmarshal_field_string by assumption.
  destruct (string_tag_offset fn (fields_bytes fs) (varint L ++ rest) Hfn) as [He Hi].
  rewrite He, Hi in *.
  rewrite (proj2 (proj2 (read_string_bad_length L _ rest ltac:(lia) Hmax))) by lia.
  reflexivity.
Qed.

Lemma Unmarshal_length_overflow_panics_witness :
  0 <= MaxInt < 2 ^ 63
  /\ Unmarshal Header_zero (fields_bytes [] ++ tag_bytes 3 2 ++ varint MaxInt ++ [x61])
     = Panic PanicSlice.
Proof.
  split; [unfold MaxInt; lia|].
  apply (Unmarshal_length_overflow_panics [] 3 MaxInt [x61] Header_zero eq_refl);
    [left; reflexivity|unfold MaxInt; lia| |apply Z.leb_le; vm_compute; reflexivity].
  apply Z.ltb_lt. vm_compute. reflexivity.
Defined.

(** X13.  [skipHeader] on a buffer that starts with a well-formed field (of
    wire type 0, 1, 2, 3 or 5, groups nested to any depth) returns the
    number of bytes of that field, whatever follows it. *)
Theorem skipHeader_field_length (u : wire_field) (post : list byte) :
  wire_field_ok u = true ->
  len (wire_field_bytes u ++ post) <= MaxInt ->
  skipHeader (wire_field_bytes u ++ post) = Ok (len (wire_field_bytes u)).
Proof. apply skipHeader_field. Qed.

Lemma skipHeader_field_length_witness :
  wire_field_ok sample_group = true
  /\ skipHeader (wire_field_bytes sample_group ++ [x08; x01]) = Ok 10.
Proof.
  split; [reflexivity|].
  apply (skipHeader_field_length sample_group [x08; x01] eq_refl).
  apply Z.leb_le. vm_compute. reflexivity.
Defined.

Lemma skipHeader_fixed (fn wt : Z) (rest : list byte) :
  fieldNum_ok fn = true -> wt = 1 \/ wt = 5 ->
  len (tag_bytes fn wt ++ rest) + 8 <= MaxInt ->
  skipHeader (tag_bytes fn wt ++ rest)
  = Ok (len (tag_bytes fn wt) + (if wt =? 1 then 8 else 4)).
Proof.
  intros Hfn Hwt Hmax. unfold skipHeader.
  replace (2 * length (tag_bytes fn wt ++ rest) + 1)%nat
    with (S (2 * length (tag_bytes fn wt ++ rest))) by lia.
  rewrite skipHeader_fuel_tag by (assumption || lia).
  pose proof (len_nonneg (tag_bytes fn wt)). pose proof (len_nonneg rest).
  rewrite len_app in Hmax.
  destruct Hwt; subst; cbv zeta; cbn [Z.eqb Pos.eqb];
    rewrite int_small by (unfold MaxInt in *; lia); reflexivity.
Qed.

(** X14.  [skipHeader] does not look at the payload of a fixed-size field:
    for wire type 1 (or 5) it returns the offset eight (or four) bytes
    behind the tag even when the buffer ends before that.  [Unmarshal]
    checks the offset itself and returns the unexpected-end-of-input
    error for a fixed-size field of an unknown number that is cut short. *)
Theorem Unmarshal_fixed_cut_short (fs : list field) (fn wt : Z)
    (rest : list byte) (m : Header) :
  forallb field_ok fs = true ->
  7 <= fn < 2 ^ 31 -> wt = 1 \/ wt = 5 ->
  len rest < (if wt =? 1 then 8 else 4) ->
  len (fields_bytes fs ++ tag_bytes fn wt ++ rest) + 8 <= MaxInt ->
  skipHeader (tag_bytes fn wt ++ rest)
  = Ok (len (tag_bytes fn wt) + (if wt =? 1 then 8 else 4))
  /\ Unmarshal m (fields_bytes fs ++ tag_bytes fn wt ++ rest) = Err ErrUnexpectedEOF.
Proof.
  intros Hok Hfn Hwt Hshort Hmax.
  assert (Hfok : fieldNum_ok fn = true) by (unfold fieldNum_ok; lia).
  pose proof (len_nonneg (fields_bytes fs)). pose proof (len_nonneg rest).
  pose proof (len_nonneg (tag_bytes fn wt)).
  assert (Hs : skipHeader (tag_bytes fn wt ++ rest)
               = Ok (len (tag_bytes fn wt) + (if wt =? 1 then 8 else 4))).
  { apply skipHeader_fixed; try assumption. revert Hmax. rewrite !len_app. lia. }
  split; [exact Hs|].
  apply Unmarshal_stops; try assumption; [lia|apply tag_nonempty|].
  intros m'. left. eexists. split; [|reflexivity].
  rewrite Unmarshal_field_default by (destruct Hwt; subst; lia).
  rewrite Hs. cbn [mbind outcome_bind]. rewrite !len_app in *.
  assert (Hk : 0 < (if wt =? 1 then 8 else 4) <= 8) by (destruct Hwt; subst; simpl; lia).
  if_false. rewrite int_small by (unfold MaxInt in *; lia). if_true. reflexivity.
Qed.

Lemma Unmarshal_fixed_cut_short_witness :
  forallb field_ok [FSeq 7] = true
  /\ Unmarshal Header_zero (fields_bytes [FSeq 7] ++ tag_bytes 9 1 ++ [x01; x02; x03])
     = Err ErrUnexpectedEOF.
Proof.
  split; [reflexivity|].
  apply (Unmarshal_fixed_cut_short [FSeq 7] 9 1 [x01; x02; x03] Header_zero eq_refl);
    [lia|left; reflexivity|vm_compute; reflexivity|].
  apply Z.leb_le. vm_compute. reflexivity.
Defined.

Lemma skipHeader_bytes (fn L : Z) (rest : list byte) :
  fieldNum_ok fn = true -> 0 <= L <= MaxInt ->
  skipHeader (tag_bytes fn 2 ++ varint L ++ rest)
  = Ok (int (len (tag_bytes fn 2) + len (varint L) + L)).
Proof.
  intros Hfn HL. unfold skipHeader.
  replace (2 * length (tag_bytes fn 2 ++ varint L ++ rest) + 1)%nat
    with (S (2 * length (tag_bytes fn 2 ++ varint L ++ rest))) by lia.
  rewrite skipHeader_fuel_tag by (assumption || lia).
  cbv zeta. cbn [Z.eqb Pos.eqb].
  rewrite varint_int_varint by assumption. cbn [mbind outcome_bind].
  if_false. reflexivity.
Qed.

Lemma varint_loop_negative (conv : Z -> Z) (fuel : nat) (dAtA : list byte)
    (shift i acc : Z) :
  i < 0 -> shift < 64 ->
  varint_loop conv (S fuel) dAtA shift i acc = Panic PanicIndex.
Proof.
  intros Hi Hs. cbn [varint_loop]. pose proof (len_nonneg dAtA).
  if_false. if_false. unfold index.
  destruct (i <? 0) eqn:E; [reflexivity|lia].
Qed.

Lemma Unmarshal_field_negative (dAtA : list byte) (m : Header) (i : Z) :
  i < 0 -> Unmarshal_field dAtA m i = Panic PanicIndex.
Proof.
  intros Hi. unfold Unmarshal_field, varint_uint64.
  rewrite varint_loop_negative by lia. reflexivity.
Qed.

Lemma int_wrap_neg (z : Z) : MaxInt < z < 2 ^ 64 -> int z = z - 2 ^ 64.
Proof.
  unfold int, MaxInt. intros Hz.
  replace (z + 2 ^ 63) with (z - 2 ^ 63 + 1 * 2 ^ 64) by lia.
  rewrite Z_mod_plus_full. rewrite Z.mod_small; lia.
Qed.

(** X15.  A length-prefixed field of an unknown number whose declared
    length overflows: when the offset inside [skipHeader] wraps, the skip
    count is negative and [Unmarshal] returns the negative-length error;
    when the count itself fits an [int] but its sum with the offset of the
    field in the buffer does not, the bounds test in [Unmarshal] passes on
    the wrapped sum, the loop goes on at a negative index and the next read
    panics. *)
Theorem Unmarshal_skip_overflow (fs : list field) (fn L : Z)
    (rest : list byte) (m : Header) :
  forallb field_ok fs = true ->
  7 <= fn < 2 ^ 31 -> 0 <= L <= MaxInt ->
  len (fields_bytes fs ++ tag_bytes fn 2 ++ varint L ++ rest) <= MaxInt ->
  let k := len (tag_bytes fn 2) + len (varint L) + L in
  (MaxInt < k ->
   Unmarshal m (fields_bytes fs ++ tag_bytes fn 2 ++ varint L ++ rest)
   = Err ErrInvalidLengthHeader)
  /\ (k <= MaxInt -> MaxInt < len (fields_bytes fs) + k ->
      Unmarshal m (fields_bytes fs ++ tag_bytes fn 2 ++ varint L ++ rest)
      = Panic PanicIndex).
Proof.
  intros Hok Hfn HL Hmax k.
  assert (Hfok : fieldNum_ok fn = true) by (unfold fieldNum_ok; lia).
  pose proof (len_nonneg (fields_bytes fs)). pose proof (len_nonneg rest).
  pose proof (len_nonneg (varint L)). pose proof (tag_bytes_nonempty fn 2).
  assert (Hsum : len (fields_bytes fs) + len (tag_bytes fn 2) + len (varint L)
                 + len rest <= MaxInt) by (revert Hmax; rewrite !len_app; lia).
  pose proof (skipHeader_bytes fn L rest Hfok HL) as Hs. fold k in Hs.
  split.
  - intros Hk. apply Unmarshal_stops; try assumption; [apply tag_nonempty|].
    intros m'. left. eexists. split; [|reflexivity].
    rewrite Unmarshal_field_default by lia. rewrite Hs. cbn [mbind outcome_bind].
    rewrite int_wrap_neg by (unfold k, MaxInt in *; lia).
    unfold MaxInt in *. if_true. reflexivity.
  - intros Hk Hover. rewrite Unmarshal_after_fields by (assumption || apply tag_nonempty).
    rewrite Unmarshal_field_default by lia. rewrite Hs. cbn [mbind outcome_bind].
    rewrite (int_small k) by (unfold k, MaxInt in *; lia).
    assert (Hk0 : 0 <= k) by (unfold k; lia).
    destruct (k <? 0) eqn:Ek; [lia|].
    rewrite int_wrap_neg by (unfold k, MaxInt in *; lia).
    rewrite !len_app. unfold MaxInt in *.
    destruct (len (fields_bytes fs) + k - 2 ^ 64
              >? len (fields_bytes fs) + (len (tag_bytes fn 2) + (len (varint L) + len rest)))
      eqn:Eg; [lia|].
    cbn [mbind outcome_bind].
    pose proof (fields_bytes_length fs) as Hfl.
    assert (Hvl : (1 <= length (varint L))%nat) by apply varint_bytes_nonempty.
    pose proof (tag_bytes_length fn 2) as Htl.
    destruct (length (fields_bytes fs ++ tag_bytes fn 2 ++ varint L ++ rest)
              - length fs - 1)%nat as [|n] eqn:En;
      [rewrite !length_app in En; lia|].
    cbn [Unmarshal_loop]. rewrite !len_app. if_true.
    rewrite Unmarshal_field_negative by lia. reflexivity.
Qed.

Lemma Unmarshal_skip_overflow_witness :
  forallb field_ok [FSeq 7] = true
  /\ Unmarshal Header_zero
       (fields_bytes [FSeq 7] ++ tag_bytes 9 2 ++ varint (MaxInt - 10) ++ [])
     = Panic PanicIndex.
Proof.
  split; [reflexivity|].
  apply (proj2 (Unmarshal_skip_overflow [FSeq 7] 9 (MaxInt - 10) [] Header_zero eq_refl
                  ltac:(lia) ltac:(unfold MaxInt; lia)
                  ltac:(apply Z.leb_le; vm_compute; reflexivity))).
  - apply Z.leb_le. vm_compute. reflexivity.
  - apply Z.ltb_lt. vm_compute. reflexivity.
Defined.

(** X16.  A negative [int32] field is converted to [uint64] with its sign
    extended, so its varint always takes ten bytes: a header that holds
    only a negative Type encodes to eleven bytes. *)
Theorem negative_int32_takes_ten_bytes (v : Z) :
  - 2 ^ 31 <= v < 0 ->
  sovHeader (uint64 v) = Ok 10
  /\ exists bs, Marshal (mkHeader 0 v [] 0 0 []) = Ok bs /\ len bs = 11.
Proof.
  intros Hv.
  assert (Hu : uint64 v = v + 2 ^ 64).
  { unfold uint64. replace v with (v + 2 ^ 64 + (-1) * 2 ^ 64) at 1 by lia.
    rewrite Z_mod_plus_full. apply Z.mod_small. lia. }
  assert (H70 : 0 <= uint64 v < 2 ^ (7 * (Z.of_nat 9 + 1)))
    by (change (7 * (Z.of_nat 9 + 1)) with 70; lia).
  pose proof (varint_bytes_length 9 _ H70) as Hlen.
  destruct (varint_bytes_bounds 9 _ H70) as [_ Hhi].
  fold (varint (uint64 v)) in *.
  assert (Hn : len (varint (uint64 v)) = 10).
  { destruct (Z_lt_le_dec (len (varint (uint64 v))) 10) as [Hlt|Hge];
      [|unfold len in *; lia].
    exfalso. pose proof (len_nonneg (varint (uint64 v))).
    assert (2 ^ (7 * len (varint (uint64 v))) <= 2 ^ 63)
      by (apply Z.pow_le_mono_r; lia).
    lia. }
  split; [rewrite sovHeader_spec by lia; rewrite Hn; reflexivity|].
  assert (Hw : wire_bytes (mkHeader 0 v [] 0 0 []) = x10 :: varint (uint64 v)).
  { unfold wire_bytes, varint_field, string_field. cbn [Seq Type_ Uri Gzip StatusCode Status].
    destruct (v =? 0) eqn:E; [lia|]. cbn. rewrite app_nil_r. reflexivity. }
  exists (x10 :: varint (uint64 v)). rewrite <- Hw. split.
  - apply Marshal_spec. rewrite Hw, len_cons, Hn. unfold MaxInt. lia.
  - rewrite Hw, len_cons, Hn. reflexivity.
Qed.

Lemma negative_int32_takes_ten_bytes_witness :
  - 2 ^ 31 <= -1 < 0 /\ sovHeader (uint64 (-1)) = Ok 10.
Proof.
  split; [lia|]. exact (proj1 (negative_int32_takes_ten_bytes (-1) ltac:(lia))).
Defined.

(* ===================================================================== *)
(** * Further properties of packets and the pool *)



(** X18.  Putting the same packet back twice ties the free list into a
    loop on it: when the packet has a header, the next two calls of
    [GetPacket] both return that packet, so two callers hold one
    instance. *)
Theorem double_PutPacket_aliases {V : Type} (codec : codec_pkg) (w : pool V)
    (p : loc) (pk : Packet V) (l : loc) (h : Header) bg1 bg2 :
  heap w !! p = Some pk -> PHeader pk = Some l -> hdrs w !! l = Some h ->
  exists w1 w2 w3 w4,
    PutPacket p w = Ok w1 /\ PutPacket p w1 = Ok w2
    /\ GetPacket codec bg1 [] w2 = Ok (p, w3)
    /\ GetPacket codec bg2 [] w3 = Ok (p, w4).
Proof.
  intros Hp Hl Hh. unfold PutPacket at 1. rewrite Hp. eexists _, _, _, _.
  split; [reflexivity|].
  unfold PutPacket. cbn [heap hdrs freePacket]. rewrite lookup_insert_eq.
  split; [reflexivity|].
  unfold GetPacket at 1. cbn [heap hdrs freePacket]. rewrite lookup_insert_eq.
  rewrite (Packet_Reset_blank codec _ bg1 [] (hdrs w) l h) by assumption.
  cbn [apply_settings mbind outcome_bind].
  split; [reflexivity|].
  unfold GetPacket. cbn [heap hdrs freePacket next set_next].
  rewrite lookup_insert_eq.
  rewrite (Packet_Reset_blank codec _ bg2 [] _ l Header_zero)
    by (reflexivity || apply lookup_insert_eq).
  cbn [apply_settings mbind outcome_bind]. reflexivity.
Qed.

Lemma double_PutPacket_aliases_witness :
  heap held_pool !! 1%positive = Some held
  /\ exists w1 w2 w3 w4,
       PutPacket 1%positive held_pool = Ok w1
       /\ PutPacket 1%positive w1 = Ok w2
       /\ GetPacket no_codecs None [] w2 = Ok (1%positive, w3)
       /\ GetPacket no_codecs None [] w3 = Ok (1%positive, w4).
Proof.
  assert (H : heap held_pool !! 1%positive = Some held) by reflexivity.
  split; [exact H|].
  exact (double_PutPacket_aliases no_codecs held_pool 1%positive held 1%positive ping
           None None H eq_refl eq_refl).
Defined.

(** X19.  On an empty free list [GetPacket] allocates: it returns an
    address that held no packet, stores there a blank packet with a new
    zero header, whatever settings it was given, and leaves the free list
    empty and every other packet and header alone. *)
Theorem GetPacket_allocates {V : Type} (codec : codec_pkg) (w : pool V)
    bodyGetting settings :
  freePacket w = None ->
  exists p l,
    GetPacket codec bodyGetting settings w
    = Ok (p, mkPool (<[p := blank codec bodyGetting l]> (heap w))
                    (<[l := Header_zero]> (hdrs w)) None)
    /\ heap w !! p = None /\ hdrs w !! l = None.
Proof.
  intros Hf. unfold GetPacket. rewrite Hf. eexists _, _. split; [reflexivity|].
  split; apply not_elem_of_dom; apply is_fresh.
Qed.

Lemma GetPacket_allocates_witness :
  freePacket (@pool_empty nat) = None
  /\ exists p l, GetPacket no_codecs None [WithBodyGzip 5] (@pool_empty nat)
                 = Ok (p, mkPool (<[p := blank no_codecs None l]> ∅)
                                 (<[l := Header_zero]> ∅) None)
                 /\ heap (@pool_empty nat) !! p = None
                 /\ hdrs (@pool_empty nat) !! l = None.
Proof.
  split; [reflexivity|].
  exact (GetPacket_allocates no_codecs pool_empty None [WithBodyGzip 5] eq_refl).
Defined.

(** X20.  With a name whose lookup returns an error and no codec,
    [WithHeaderCodec] drops the error and panics on the nil codec, while
    [WithBodyCodec] panics with the error itself; neither returns a
    setting. *)
Theorem with_codec_unknown_name {V : Type} (codec : codec_pkg)
    (codecName : string) (e : error) :
  GetByName codec codecName = (None, Some e) ->
  WithHeaderCodec (V:=V) codec codecName = Panic PanicNilDeref
  /\ WithBodyCodec (V:=V) codec codecName = Panic (PanicError e).
Proof.
  intros H. unfold WithHeaderCodec, WithBodyCodec, getCodecByName. rewrite H.
  split; reflexivity.
Qed.

Lemma with_codec_unknown_name_witness :
  GetByName no_codecs "xml" = (None, Some (ErrCodecNotFound "xml"))
  /\ WithHeaderCodec (V:=nat) no_codecs "xml" = Panic PanicNilDeref.
Proof.
  split; [reflexivity|].
  exact (proj1 (with_codec_unknown_name no_codecs "xml" _ eq_refl)).
Defined.

(** X21.  Setting a codec by a registered name stores the id of that codec
    and changes nothing else; when the registry finds the same codec under
    that id, the codec name read back from the packet is the codec's
    name. *)
Theorem set_codec_then_name {V : Type} (codec : codec_pkg) (p : Packet V)
    (codecName : string) (c : Codec) :
  GetByName codec codecName = (Some c, None) ->
  GetById codec (Codec_Id c) = (Some c, None) ->
  SetHeaderCodecByName codec p codecName = (set_HeaderCodec p (Codec_Id c), Ok tt)
  /\ SetBodyCodecByName codec p codecName = (set_BodyCodec p (Codec_Id c), Ok tt)
  /\ HeaderCodecName codec (fst (SetHeaderCodecByName codec p codecName))
     = Ok (Codec_Name c)
  /\ BodyCodecName codec (fst (SetBodyCodecByName codec p codecName))
     = Ok (Codec_Name c)
  /\ BodyCodec (fst (SetHeaderCodecByName codec p codecName)) = BodyCodec p
  /\ HeaderCodec (fst (SetBodyCodecByName codec p codecName)) = HeaderCodec p.
Proof.
  intros Hn Hi.
  unfold SetHeaderCodecByName, SetBodyCodecByName, getCodecByName,
    HeaderCodecName, BodyCodecName, codec_name_by_id.
  rewrite Hn. cbn. rewrite Hi. repeat split.
Qed.

Lemma set_codec_then_name_witness :
  GetByName json_only "json" = (Some json_codec, None)
  /\ GetById json_only (Codec_Id json_codec) = (Some json_codec, None)
  /\ HeaderCodecName json_only (fst (SetHeaderCodecByName json_only with_body "json"))
     = Ok "json"%string.
Proof.
  split; [reflexivity|]. split; [reflexivity|].
  exact (proj1 (proj2 (proj2 (set_codec_then_name json_only with_body "json"
                                json_codec eq_refl eq_refl)))).
Defined.

(* ===================================================================== *)
(** * The fixed-width and zigzag helpers *)

Lemma store_ok (dAtA : list byte) (i : Z) (b : byte) :
  0 <= i < len dAtA -> store dAtA i b = Ok (<[Z.to_nat i := b]> dAtA).
Proof.
  intros Hi. unfold store.
  destruct (i <? 0) eqn:E1; [lia|]. destruct (len dAtA <=? i) eqn:E2; [lia|].
  reflexivity.
Qed.

Lemma store_out_of_range (dAtA : list byte) (i : Z) (b : byte) :
  len dAtA <= i -> store dAtA i b = Panic PanicIndex.
Proof.
  intros Hi. unfold store. destruct (len dAtA <=? i) eqn:E2; [|lia].
  rewrite orb_true_r. reflexivity.
Qed.

Lemma len_insert (l : list byte) (i : nat) (b : byte) : len (<[i := b]> l) = len l.
Proof. unfold len. rewrite length_insert. reflexivity. Qed.

Lemma le_value_le_bytes (n : nat) :
  forall v, 0 <= v < 2 ^ (8 * Z.of_nat n) -> le_value (le_bytes n v) = v.
Proof.
  induction n as [|n IH]; intros v Hv.
  - simpl in *. lia.
  - cbn [le_bytes le_value]. rewrite u8_uint8.
    rewrite Z.shiftr_div_pow2 by lia. change (2 ^ 8) with 256.
    rewrite IH.
    + pose proof (Z.div_mod v 256 ltac:(lia)). lia.
    + split; [apply Z.div_pos; lia|].
      apply Z.div_lt_upper_bound; [lia|].
      change 256 with (2 ^ 8). rewrite <- Z.pow_add_r by lia.
      replace (8 + 8 * Z.of_nat n) with (8 * Z.of_nat (S n)) by lia. lia.
Qed.

Ltac store_steps :=
  repeat (rewrite store_ok by (rewrite ?len_insert, len_app; unfold len; cbn [length]; lia);
          cbn [mbind outcome_bind]).

(** X22.  [encodeFixed64Header] overwrites eight bytes at the offset with
    the value in little-endian order and returns the offset behind them,
    the rest of the buffer left as it was; with fewer than eight bytes of
    room it panics with an index out of range. *)
Theorem encodeFixed64Header_spec (v : Z) (done junk : list byte) :
  0 <= v < 2 ^ 64 ->
  ((8 <= length junk)%nat ->
   encodeFixed64Header (done ++ junk) (len done) v
   = Ok (done ++ le_bytes 8 v ++ drop 8 junk, len done + 8))
  /\ ((length junk < 8)%nat ->
      encodeFixed64Header (done ++ junk) (len done) v = Panic PanicIndex)
  /\ le_value (le_bytes 8 v) = v.
Proof.
  intros Hv. pose proof (len_nonneg done) as Hd.
  split; [|split].
  - intros Hroom.
    do 8 (destruct junk as [|? junk]; [simpl in Hroom; lia|]).
    pose proof (len_nonneg junk).
    unfold encodeFixed64Header. store_steps.
    repeat (match goal with
            | |- context [Z.to_nat (len done + ?k)] =>
                replace (Z.to_nat (len done + k)) with (length done + Z.to_nat k)%nat
                  by (unfold len; lia)
            end).
    replace (Z.to_nat (len done)) with (length done + 0)%nat by (unfold len; lia).
    rewrite !insert_app_r. reflexivity.
  - intros Hshort. unfold encodeFixed64Header.
    do 8 (destruct junk as [|? junk];
          [store_steps;
           rewrite store_out_of_range
             by (rewrite ?len_insert, len_app; unfold len; cbn [length]; lia);
           reflexivity|]).
    simpl in Hshort. lia.
  - apply (le_value_le_bytes 8). change (8 * Z.of_nat 8) with 64. assumption.
Qed.

Lemma encodeFixed64Header_spec_witness :
  0 <= 258 < 2 ^ 64
  /\ encodeFixed64Header ([x09] ++ replicate 8 xff) (len [x09]) 258
     = Ok ([x09] ++ le_bytes 8 258 ++ drop 8 (replicate 8 xff), len [x09] + 8).
Proof.
  split; [lia|].
  apply (proj1 (encodeFixed64Header_spec 258 [x09] (replicate 8 xff) ltac:(lia))).
  simpl. lia.
Defined.

(** X23.  [encodeFixed32Header] does the same with four bytes. *)
Theorem encodeFixed32Header_spec (v : Z) (done junk : list byte) :
  0 <= v < 2 ^ 32 ->
  ((4 <= length junk)%nat ->
   encodeFixed32Header (done ++ junk) (len done) v
   = Ok (done ++ le_bytes 4 v ++ drop 4 junk, len done + 4))
  /\ ((length junk < 4)%nat ->
      encodeFixed32Header (done ++ junk) (len done) v = Panic PanicIndex)
  /\ le_value (le_bytes 4 v) = v.
Proof.
  intros Hv. pose proof (len_nonneg done) as Hd.
  split; [|split].
  - intros Hroom.
    do 4 (destruct junk as [|? junk]; [simpl in Hroom; lia|]).
    pose proof (len_nonneg junk).
    unfold encodeFixed32Header. store_steps.
    repeat (match goal with
            | |- context [Z.to_nat (len done + ?k)] =>
                replace (Z.to_nat (len done + k)) with (length done + Z.to_nat k)%nat
                  by (unfold len; lia)
            end).
    replace (Z.to_nat (len done)) with (length done + 0)%nat by (unfold len; lia).
    rewrite !insert_app_r. reflexivity.
  - intros Hshort. unfold encodeFixed32Header.
    do 4 (destruct junk as [|? junk];
          [store_steps;
           rewrite store_out_of_range
             by (rewrite ?len_insert, len_app; unfold len; cbn [length]; lia);
           reflexivity|]).
    simpl in Hshort. lia.
  - apply (le_value_le_bytes 4). change (8 * Z.of_nat 4) with 32. assumption.
Qed.

Lemma encodeFixed32Header_spec_witness :
  0 <= 258 < 2 ^ 32
  /\ encodeFixed32Header ([x09] ++ [xff; xff]) (len [x09]) 258 = Panic PanicIndex.
Proof.
  split; [lia|].
  apply (proj1 (proj2 (encodeFixed32Header_spec 258 [x09] [xff; xff] ltac:(lia)))).
  simpl. lia.
Defined.

Lemma lxor_ones64 (a : Z) :
  0 <= a < 2 ^ 64 -> Z.lxor a (2 ^ 64 - 1) = 2 ^ 64 - 1 - a.
Proof.
  intros Ha.
  assert (Hc : 2 ^ 64 - 1 - a = Z.land (Z.lnot a) (Z.ones 64)).
  { rewrite Z.land_ones by lia. unfold Z.lnot.
    replace (Z.pred (- a)) with (2 ^ 64 - 1 - a + (-1) * 2 ^ 64) by lia.
    rewrite Z_mod_plus_full. symmetry. apply Z.mod_small. lia. }
  rewrite Hc. change (2 ^ 64 - 1) with (Z.ones 64).
  apply Z.bits_inj'. intros i Hi.
  rewrite Z.lxor_spec, Z.land_spec, Z.lnot_spec by lia.
  destruct (Z_lt_le_dec i 64) as [Hlt|Hge].
  - rewrite Z.ones_spec_low by lia. rewrite andb_true_r. apply xorb_true_r.
  - rewrite Z.ones_spec_high by lia. rewrite andb_false_r.
    rewrite (testbit_top_false 65 a) by lia. reflexivity.
Qed.

(** X24.  [sozHeader] sizes the zigzag form of a signed number given as its
    64-bit pattern: 2n for n >= 0 and -2n-1 for n < 0, so that numbers
    close to zero of either sign take one byte. *)
Theorem sozHeader_zigzag (n : Z) :
  - 2 ^ 63 <= n < 2 ^ 63 ->
  sozHeader (uint64 n) = sovHeader (if 0 <=? n then 2 * n else - 2 * n - 1)
  /\ (- 64 <= n < 64 -> sozHeader (uint64 n) = Ok 1).
Proof.
  intros Hn.
  assert (Hz : uint64 (Z.lxor (uint64 (Z.shiftl (uint64 n) 1))
                              (uint64 (Z.shiftr (int64 (uint64 n)) 63)))
               = if 0 <=? n then 2 * n else - 2 * n - 1).
  { destruct (0 <=? n) eqn:E.
    - rewrite (uint64_small n) by lia.
      rewrite Z.shiftl_mul_pow2 by lia. change (2 ^ 1) with 2.
      rewrite (uint64_small (n * 2)) by lia.
      assert (Hi : int64 n = n) by (unfold int64; rewrite Z.mod_small; lia).
      rewrite Hi. rewrite Z.shiftr_div_pow2 by lia.
      rewrite Z.div_small by lia. change (uint64 0) with 0.
      rewrite Z.lxor_0_r. rewrite uint64_small by lia. lia.
    - assert (Hu : uint64 n = n + 2 ^ 64).
      { unfold uint64. replace n with (n + 2 ^ 64 + (-1) * 2 ^ 64) at 1 by lia.
        rewrite Z_mod_plus_full. apply Z.mod_small. lia. }
      rewrite Hu. rewrite Z.shiftl_mul_pow2 by lia. change (2 ^ 1) with 2.
      assert (Hs : uint64 ((n + 2 ^ 64) * 2) = 2 * n + 2 ^ 64).
      { unfold uint64.
        replace ((n + 2 ^ 64) * 2) with (2 * n + 2 ^ 64 + 1 * 2 ^ 64) by lia.
        rewrite Z_mod_plus_full. apply Z.mod_small. lia. }
      rewrite Hs.
      assert (Hi : int64 (n + 2 ^ 64) = n).
      { unfold int64. replace (n + 2 ^ 64 + 2 ^ 63) with (n + 2 ^ 63 + 1 * 2 ^ 64) by lia.
        rewrite Z_mod_plus_full. rewrite Z.mod_small; lia. }
      rewrite Hi. rewrite Z.shiftr_div_pow2 by lia.
      assert (Hd : n / 2 ^ 63 = -1).
      { symmetry. apply (Z.div_unique n (2 ^ 63) (-1) (n + 2 ^ 63)); lia. }
      rewrite Hd. change (uint64 (-1)) with (2 ^ 64 - 1).
      rewrite lxor_ones64 by lia. rewrite uint64_small by lia. lia. }
  unfold sozHeader. rewrite Hz. split; [reflexivity|].
  intros Hsmall.
  assert (Hr : 0 <= (if 0 <=? n then 2 * n else - 2 * n - 1) < 128)
    by (destruct (0 <=? n) eqn:E; lia).
  rewrite sovHeader_spec by lia. unfold varint. cbn [varint_bytes].
  destruct (2 ^ 7 <=? (if 0 <=? n then 2 * n else - 2 * n - 1)) eqn:E; [lia|].
  reflexivity.
Qed.

Lemma sozHeader_zigzag_witness :
  - 2 ^ 63 <= -3 < 2 ^ 63 /\ sozHeader (uint64 (-3)) = sovHeader 5.
Proof.
  split; [lia|]. exact (proj1 (sozHeader_zigzag (-3) ltac:(lia))).
Defined.

(* ===================================================================== *)
(** * [MarshalTo] on a buffer that is too short *)

Lemma encodeVarintHeader_loop_short (n : nat) :
  forall (fuel : nat) (done junk : list byte) (v : Z),
    0 <= v < 2 ^ (7 * (Z.of_nat n + 1)) -> (n <= fuel)%nat ->
    (length junk < length (varint_bytes n v))%nat ->
    encodeVarintHeader_loop fuel (done ++ junk) (len done) v = Panic PanicIndex.
Proof.
  assert (Hlast : forall fuel done v, (2 ^ 7 <=? v) = false ->
            encodeVarintHeader_loop fuel (done ++ []) (len done) v = Panic PanicIndex).
  { intros fuel done v E. rewrite app_nil_r.
    destruct fuel; cbn [encodeVarintHeader_loop]; rewrite E;
      rewrite store_out_of_range by lia; reflexivity. }
  induction n as [|n IH]; intros fuel done junk v Hv Hfuel Hlen.
  - assert (E : (2 ^ 7 <=? v) = false) by (apply Z.leb_gt; simpl in Hv; lia).
    cbn [varint_bytes] in Hlen. rewrite E in Hlen.
    destruct junk; [|simpl in Hlen; lia]. apply Hlast. assumption.
  - cbn [varint_bytes] in Hlen. destruct (2 ^ 7 <=? v) eqn:E.
    + destruct fuel as [|fuel]; [lia|]. cbn [encodeVarintHeader_loop]. rewrite E.
      destruct junk as [|j junk].
      * rewrite app_nil_r. rewrite store_out_of_range by lia. reflexivity.
      * rewrite store_middle. cbn [mbind outcome_bind].
        destruct (after_tag (uint8 (Z.lor (Z.land v 127) 128)) done junk) as [-> ->].
        apply IH; [apply shiftr7_bound; assumption|lia|simpl in Hlen; lia].
    + destruct junk; [|simpl in Hlen; lia]. apply Hlast. assumption.
Qed.

Lemma panics_short_varint_field (tag : byte) (v : Z) :
  panics_short (put_varint_field tag v) (varint_field tag v).
Proof.
  unfold put_varint_field, varint_field, panics_short.
  intros done junk Hlen Hmax. destruct (v =? 0); [simpl in Hlen; lia|].
  destruct junk as [|j junk].
  - rewrite app_nil_r. rewrite store_out_of_range by lia. reflexivity.
  - rewrite store_middle. cbn [mbind outcome_bind].
    destruct (after_tag tag done junk) as [-> ->].
    assert (H70 : 0 <= uint64 v < 2 ^ (7 * (Z.of_nat 9 + 1))).
    { change (7 * (Z.of_nat 9 + 1)) with 70. pose proof (uint64_range v). lia. }
    cbn [length] in Hlen. unfold varint in Hlen.
    exact (encodeVarintHeader_loop_short 9 10 (done ++ [tag]) junk (uint64 v) H70
             ltac:(lia) ltac:(lia)).
Qed.

Lemma panics_short_nil (f : list byte * Z -> outcome (list byte * Z)) :
  panics_short f [].
Proof. intros done junk Hlen. simpl in Hlen. lia. Qed.

Lemma panics_short_seq f g a b :
  writes f a -> panics_short f a -> panics_short g b ->
  panics_short (fun st => st' ← f st; g st') (a ++ b).
Proof.
  intros Hw Hf Hg done junk Hlen Hmax. rewrite length_app in Hlen.
  destruct (Nat.lt_ge_cases (length junk) (length a)) as [Hlt|Hge].
  - rewrite Hf by assumption. reflexivity.
  - rewrite Hw by assumption. cbn [mbind outcome_bind].
    replace (done ++ a ++ drop (length a) junk)
      with ((done ++ a) ++ drop (length a) junk) by (rewrite <- app_assoc; reflexivity).
    replace (len done + len a) with (len (done ++ a)) by len_tac.
    apply Hg.
    + rewrite length_drop. lia.
    + revert Hmax. rewrite !len_app. unfold len. rewrite length_drop. lia.
Qed.

(** X25.  [MarshalTo] on a buffer shorter than the encoding of a header
    that holds no strings panics with an index out of range; it returns no
    error. *)
Theorem MarshalTo_short_buffer_panics (h : Header) (junk : list byte) :
  Uri h = [] -> Status h = [] ->
  (length junk < length (wire_bytes h))%nat -> len junk <= MaxInt ->
  MarshalTo h junk = Panic PanicIndex.
Proof.
  intros Hu Hs Hlen Hmax.
  assert (Hstr : forall tag, writes (put_string_field tag []) []
                             /\ panics_short (put_string_field tag []) []).
  { intros tag. split; [apply (writes_string_field tag [])|apply panics_short_nil]. }
  pose proof (panics_short_seq _ _ _ _ (writes_varint_field x08 (Seq h))
                (panics_short_varint_field x08 (Seq h))
    (panics_short_seq _ _ _ _ (writes_varint_field x10 (Type_ h))
                (panics_short_varint_field x10 (Type_ h))
    (panics_short_seq _ _ _ _ (proj1 (Hstr x1a)) (proj2 (Hstr x1a))
    (panics_short_seq _ _ _ _ (writes_varint_field x20 (Gzip h))
                (panics_short_varint_field x20 (Gzip h))
    (panics_short_seq _ _ _ _ (writes_varint_field x28 (StatusCode h))
                (panics_short_varint_field x28 (StatusCode h))
    (panics_short_seq _ _ _ _ (proj1 (Hstr x32)) (proj2 (Hstr x32))
       (panics_short_nil (fun st => Ok st)))))))) as H.
  unfold wire_bytes in Hlen. rewrite Hu, Hs in Hlen.
  change (string_field x1a []) with (@nil byte) in Hlen.
  change (string_field x32 []) with (@nil byte) in Hlen.
  specialize (H [] junk Hlen Hmax). unfold MarshalTo. rewrite Hu, Hs. exact H.
Qed.

Lemma MarshalTo_short_buffer_panics_witness :
  Uri (mkHeader 300 (-1) [] 0 0 []) = []
  /\ MarshalTo (mkHeader 300 (-1) [] 0 0 []) (replicate 5 x00) = Panic PanicIndex.
Proof.
  split; [reflexivity|].
  apply (MarshalTo_short_buffer_panics (mkHeader 300 (-1) [] 0 0 []) (replicate 5 x00)
           eq_refl eq_refl).
  - vm_compute. lia.
  - apply Z.leb_le. vm_compute. reflexivity.
Defined.

Lemma writes_then (f g : list byte * Z -> outcome (list byte * Z)) (a : list byte)
    (done junk : list byte) :
  writes f a -> (length a <= length junk)%nat -> len (done ++ junk) <= MaxInt ->
  (st ← f (done ++ junk, len done); g st)
  = g ((done ++ a) ++ drop (length a) junk, len (done ++ a)).
Proof.
  intros Hw Hlen Hmax. rewrite Hw by assumption. cbn [mbind outcome_bind].
  rewrite <- app_assoc, len_app. reflexivity.
Qed.

Lemma copy_at_short (done junk s : list byte) :
  (length junk <= length s)%nat ->
  copy_at (done ++ junk) (len done) s = Ok (done ++ take (length junk) s, len junk).
Proof.
  intros Hlen. unfold copy_at. rewrite slice_from_middle. cbn [mbind outcome_bind].
  replace (Z.to_nat (len done)) with (length done) by (unfold len; lia).
  rewrite take_app_length, Nat.min_l by lia.
  rewrite drop_all, app_nil_r. reflexivity.
Qed.

Lemma put_string_field_truncated (tag : byte) (s done junk : list byte) :
  (1 + length (varint (len s)) <= length junk)%nat ->
  (length junk < 1 + length (varint (len s)) + length s)%nat ->
  len (done ++ junk) <= MaxInt -> len s <= MaxInt ->
  put_string_field tag s (done ++ junk, len done)
  = Ok (done ++ take (length junk) (tag :: varint (len s) ++ s), len done + len junk).
Proof.
  intros Hlo Hhi Hmax Hs. unfold put_string_field.
  pose proof (len_nonneg s). pose proof (len_nonneg done).
  assert (Hpos : 0 < len s) by (unfold len; lia).
  destruct (len s >? 0) eqn:E; [|lia].
  destruct junk as [|j junk]; [simpl in Hlo; lia|]. cbn [length] in Hlo, Hhi.
  rewrite store_middle. cbn [mbind outcome_bind].
  destruct (after_tag tag done junk) as [-> ->].
  rewrite uint64_small by (unfold MaxInt in *; lia).
  rewrite encodeVarintHeader_spec by (unfold MaxInt in *; lia).
  cbn [mbind outcome_bind].
  replace ((done ++ [tag]) ++ varint (len s) ++ drop (length (varint (len s))) junk)
    with ((done ++ [tag] ++ varint (len s)) ++ drop (length (varint (len s))) junk)
    by (rewrite <- !app_assoc; reflexivity).
  replace (len (done ++ [tag]) + len (varint (len s)))
    with (len (done ++ [tag] ++ varint (len s))) by len_tac.
  rewrite copy_at_short by (rewrite length_drop; lia).
  cbn [mbind outcome_bind].
  rewrite int_small.
  - f_equal. f_equal.
    + rewrite <- !app_assoc. f_equal. cbn [app length].
      rewrite firstn_cons. f_equal. rewrite length_drop.
      rewrite take_app_ge by lia. reflexivity.
    + rewrite !len_app, !len_cons, len_nil. unfold len in *.
      rewrite length_drop. lia.
  - revert Hmax. rewrite !len_app, !len_cons, len_nil. unfold len in *.
    unfold MaxInt. rewrite length_drop. lia.
Qed.

(** X26.  [MarshalTo] does not check the buffer before copying a string:
    on a buffer that has room for everything up to the bytes of the Status
    string but not for all of them, it copies what fits and returns the
    length of the buffer as the count, with no error and no panic - the
    buffer then holds a cut-off encoding. *)
Theorem MarshalTo_truncates_status (h : Header) (junk : list byte) :
  Status h <> [] -> len (wire_bytes h) <= MaxInt ->
  (length (wire_bytes h) - length (Status h) <= length junk)%nat ->
  (length junk < length (wire_bytes h))%nat ->
  MarshalTo h junk = Ok (take (length junk) (wire_bytes h), len junk).
Proof.
  intros Hne Hmax Hlo Hhi.
  set (a1 := varint_field x08 (Seq h)). set (a2 := varint_field x10 (Type_ h)).
  set (a3 := string_field x1a (Uri h)). set (a4 := varint_field x20 (Gzip h)).
  set (a5 := varint_field x28 (StatusCode h)).
  assert (Hs6 : string_field x32 (Status h)
                = x32 :: varint (len (Status h)) ++ Status h).
  { unfold string_field. destruct (Status h) as [|b s]; [congruence|].
    rewrite len_cons. pose proof (len_nonneg s).
    destruct (1 + len s >? 0) eqn:E; [reflexivity|lia]. }
  assert (Hw : wire_bytes h
               = ((((([] ++ a1) ++ a2) ++ a3) ++ a4) ++ a5)
                 ++ (x32 :: varint (len (Status h)) ++ Status h)).
  { unfold wire_bytes. rewrite Hs6. fold a1 a2 a3 a4 a5.
    cbn [app]. rewrite <- !app_assoc. reflexivity. }
  assert (Hl : length (wire_bytes h)
               = (length a1 + length a2 + length a3 + length a4 + length a5
                  + (1 + length (varint (len (Status h))) + length (Status h)))%nat).
  { rewrite Hw. rewrite !length_app. cbn [length]. rewrite length_app. lia. }
  assert (Hj : len junk <= MaxInt) by (unfold len in *; lia).
  assert (Hsl : len (Status h) <= MaxInt) by (unfold len in *; lia).
  unfold MarshalTo. fold a1 a2 a3 a4 a5.
  change (put_varint_field x08 (Seq h) (junk, 0))
    with (put_varint_field x08 (Seq h) ([] ++ junk, len (@nil byte))).
  rewrite (writes_then _ _ a1 [] junk (writes_varint_field x08 (Seq h)))
    by (try assumption; lia).
  rewrite (writes_then _ _ a2 _ _ (writes_varint_field x10 (Type_ h)))
    by (unfold len in *; rewrite ?length_app, ?length_drop; cbn [length]; lia).
  rewrite (writes_then _ _ a3 _ _ (writes_string_field x1a (Uri h)))
    by (unfold len in *; rewrite ?length_app, ?length_drop; cbn [length]; lia).
  rewrite (writes_then _ _ a4 _ _ (writes_varint_field x20 (Gzip h)))
    by (unfold len in *; rewrite ?length_app, ?length_drop; cbn [length]; lia).
  rewrite (writes_then _ _ a5 _ _ (writes_varint_field x28 (StatusCode h)))
    by (unfold len in *; rewrite ?length_app, ?length_drop; cbn [length]; lia).
  rewrite put_string_field_truncated
    by (try assumption; unfold len in *; rewrite ?length_app, ?length_drop; cbn [length]; lia).
  cbn [mbind outcome_bind]. rewrite !drop_drop, !length_drop. f_equal. f_equal.
  - rewrite Hw. symmetry.
    rewrite take_app_ge by (rewrite !length_app; cbn [length]; lia).
    f_equal. f_equal. rewrite !length_app. cbn [length]. lia.
  - unfold len in *. rewrite !length_app, !length_drop. cbn [length]. lia.
Qed.

Lemma MarshalTo_truncates_status_witness :
  Status ping <> []
  /\ MarshalTo ping (replicate 17 x00) = Ok (take 17 (wire_bytes ping), 17).
Proof.
  split; [discriminate|].
  apply (MarshalTo_truncates_status ping (replicate 17 x00)).
  - discriminate.
  - apply Z.leb_le. vm_compute. reflexivity.
  - vm_compute. lia.
  - vm_compute. lia.
Defined.

(** ** Termination of the decoder *)

Lemma int_range (z : Z) : - 2 ^ 63 <= int z <= MaxInt.
Proof.
  unfold int, MaxInt. pose proof (Z.mod_pos_bound (z + 2 ^ 63) (2 ^ 64) ltac:(lia)).
  lia.
Qed.

Lemma int_lor_closed (a b : Z) : int a = a -> int (Z.lor a (int b)) = Z.lor a (int b).
Proof.
  intros Ha. rewrite int_lor_hom, Ha. f_equal.
  apply int_small. apply int_range.
Qed.

(** A varint loop whose shift and fuel together reach 64 ends, and a
    value comes with an index moved forward inside the buffer. *)
Lemma varint_loop_progress (conv : Z -> Z) (Q : Z -> Prop)
    (HQ : forall a b, Q a -> Q (Z.lor a (conv b))) :
  forall (fuel : nat) (dAtA : list byte) (shift i acc : Z),
    64 <= shift + 7 * Z.of_nat fuel -> Q acc ->
    match varint_loop conv fuel dAtA shift i acc with
    | Ok (v, i') => Q v /\ 0 <= i < i' /\ i' <= len dAtA
    | OutOfFuel => False
    | _ => True
    end.
Proof.
  induction fuel as [|fuel IH]; intros dAtA shift i acc Hf Hacc.
  - cbn [varint_loop]. destruct (64 <=? shift) eqn:E; [exact I|lia].
  - cbn [varint_loop]. destruct (64 <=? shift) eqn:E; [exact I|].
    destruct (len dAtA <=? i) eqn:El; [exact I|].
    unfold index. destruct (i <? 0) eqn:Ei; [exact I|]. rewrite El. cbn [orb].
    destruct (dAtA !! Z.to_nat i) as [b|]; [|exact I]. cbn [mbind outcome_bind].
    destruct (u8 b <? 128) eqn:Eb.
    + split; [apply HQ, Hacc|lia].
    + specialize (IH dAtA (shift + 7) (i + 1)
                    (Z.lor acc (conv (Z.shiftl (Z.land (u8 b) 127) shift)))
                    ltac:(lia) (HQ _ _ Hacc)).
      destruct (varint_loop conv fuel dAtA (shift + 7) (i + 1) _)
        as [[v i']| | |]; try exact IH.
      destruct IH as (Hv & Hi & Hl). split; [exact Hv|lia].
Qed.

Lemma varint_uint64_progress (dAtA : list byte) (i : Z) :
  match varint_uint64 dAtA i with
  | Ok (_, i') => 0 <= i < i' /\ i' <= len dAtA
  | OutOfFuel => False
  | _ => True
  end.
Proof.
  pose proof (varint_loop_progress uint64 (fun _ => True) (fun _ _ _ => I)
                10 dAtA 0 i 0 ltac:(lia) I) as H.
  unfold varint_uint64.
  destruct (varint_loop uint64 10 dAtA 0 i 0) as [[v i']| | |]; try exact H.
  exact (proj2 H).
Qed.

Lemma varint_int32_progress (dAtA : list byte) (i : Z) :
  match varint_int32 dAtA i with
  | Ok (_, i') => 0 <= i < i' /\ i' <= len dAtA
  | OutOfFuel => False
  | _ => True
  end.
Proof.
  pose proof (varint_loop_progress int32 (fun _ => True) (fun _ _ _ => I)
                10 dAtA 0 i 0 ltac:(lia) I) as H.
  unfold varint_int32.
  destruct (varint_loop int32 10 dAtA 0 i 0) as [[v i']| | |]; try exact H.
  exact (proj2 H).
Qed.

Lemma varint_int_progress (dAtA : list byte) (i : Z) :
  match varint_int dAtA i with
  | Ok (v, i') => - 2 ^ 63 <= v <= MaxInt /\ 0 <= i < i' /\ i' <= len dAtA
  | OutOfFuel => False
  | _ => True
  end.
Proof.
  pose proof (varint_loop_progress int (fun z => int z = z)
                (fun a b Ha => int_lor_closed a b Ha)
                10 dAtA 0 i 0 ltac:(lia) eq_refl) as H.
  unfold varint_int.
  destruct (varint_loop int 10 dAtA 0 i 0) as [[v i']| | |]; try exact H.
  destruct H as (Hv & Hi). split; [|exact Hi].
  rewrite <- Hv. apply int_range.
Qed.

Lemma skip_varint_loop_progress :
  forall (fuel : nat) (dAtA : list byte) (shift i : Z),
    64 <= shift + 7 * Z.of_nat fuel ->
    match skip_varint_loop fuel dAtA shift i with
    | Ok i' => 0 <= i < i' /\ i' <= len dAtA
    | OutOfFuel => False
    | _ => True
    end.
Proof.
  induction fuel as [|fuel IH]; intros dAtA shift i Hf.
  - cbn [skip_varint_loop]. destruct (64 <=? shift) eqn:E; [exact I|lia].
  - cbn [skip_varint_loop]. destruct (64 <=? shift) eqn:E; [exact I|].
    destruct (len dAtA <=? i) eqn:El; [exact I|].
    replace (i + 1 - 1) with i by lia.
    unfold index. destruct (i <? 0) eqn:Ei; [exact I|]. rewrite El. cbn [orb].
    destruct (dAtA !! Z.to_nat i) as [b|]; [|exact I]. cbn [mbind outcome_bind].
    destruct (u8 b <? 128) eqn:Eb; [lia|].
    specialize (IH dAtA (shift + 7) (i + 1) ltac:(lia)).
    destruct (skip_varint_loop fuel dAtA (shift + 7) (i + 1)); try exact IH. lia.
Qed.

Lemma slice_from_ok (dAtA : list byte) (i : Z) :
  0 <= i <= len dAtA -> slice_from dAtA i = Ok (drop (Z.to_nat i) dAtA).
Proof.
  intros Hi. unfold slice_from.
  destruct (i <? 0) eqn:E1; [lia|]. destruct (len dAtA <? i) eqn:E2; [lia|].
  reflexivity.
Qed.

Lemma len_drop (dAtA : list byte) (i : Z) :
  0 <= i <= len dAtA -> len (drop (Z.to_nat i) dAtA) = len dAtA - i.
Proof. intros Hi. unfold len in *. rewrite length_drop. lia. Qed.

(** The fuel of [skipHeader]: a call on [l] bytes needs [2 l + 1], the
    group loop at offset [i] needs [2 (l - i) + 2].  A count that is
    returned is positive, or negative after a wrap-around of the offset. *)
Lemma skipHeader_fuel_progress :
  forall (fuel : nat) (dAtA : list byte),
    len dAtA <= 2 ^ 62 ->
    (2 * len dAtA + 1 <= Z.of_nat fuel ->
     match skipHeader_fuel fuel dAtA with
     | Ok n => 1 <= n <= len dAtA + 8
               \/ (2 <= len dAtA /\ (1 <= n <= MaxInt \/ - 2 ^ 63 <= n < - 2 ^ 62))
     | OutOfFuel => False
     | _ => True
     end)
    /\ (forall i : Z,
          (0 <= i < len dAtA -> 2 * (len dAtA - i) + 2 <= Z.of_nat fuel) ->
          (1 <= fuel)%nat ->
          match skipGroup fuel dAtA i with
          | Ok n => 0 <= i < n /\ n <= len dAtA
          | OutOfFuel => False
          | _ => True
          end).
Proof.
  induction fuel as [|fuel IH]; intros dAtA Hd; pose proof (len_nonneg dAtA) as Hl.
  - split; [lia|]. intros i _ H1. lia.
  - split.
    + intros Hf. cbn [skipHeader_fuel].
      destruct (0 <? len dAtA) eqn:E0; [|exact I].
      pose proof (varint_uint64_progress dAtA 0) as Hv.
      destruct (varint_uint64 dAtA 0) as [[wire i1]| | |]; try exact Hv.
      cbn [mbind outcome_bind].
      destruct (int (Z.land wire 7) =? 0).
      { pose proof (skip_varint_loop_progress 10 dAtA 0 i1 ltac:(lia)) as Hs.
        unfold skip_varint.
        destruct (skip_varint_loop 10 dAtA 0 i1); try exact Hs. left. lia. }
      destruct (int (Z.land wire 7) =? 1).
      { rewrite int_small by (unfold MaxInt; lia). left. lia. }
      destruct (int (Z.land wire 7) =? 2).
      { pose proof (varint_int_progress dAtA i1) as Hn.
        destruct (varint_int dAtA i1) as [[n i2]| | |]; try exact Hn.
        cbn [mbind outcome_bind].
        destruct (n <? 0) eqn:En; [exact I|]. right. split; [lia|].
        destruct (Z_le_gt_dec (i2 + n) MaxInt) as [Hle|Hgt].
        - rewrite int_small by (unfold MaxInt in *; lia). left. lia.
        - rewrite int_wrap_neg by (unfold MaxInt in *; lia).
          right. unfold MaxInt in *. lia. }
      destruct (int (Z.land wire 7) =? 3).
      { pose proof (proj2 (IH dAtA Hd) i1 ltac:(lia) ltac:(lia)) as Hg.
        destruct (skipGroup fuel dAtA i1); try exact Hg. left. lia. }
      destruct (int (Z.land wire 7) =? 4); [left; lia|].
      destruct (int (Z.land wire 7) =? 5); [|exact I].
      rewrite int_small by (unfold MaxInt; lia). left. lia.
    + intros i Hf _. cbn [skipGroup].
      pose proof (varint_uint64_progress dAtA i) as Hv.
      destruct (varint_uint64 dAtA i) as [[wire i1]| | |]; try exact Hv.
      cbn [mbind outcome_bind].
      destruct (int (Z.land wire 7) =? 4); [lia|].
      rewrite slice_from_ok by lia. cbn [mbind outcome_bind].
      pose proof (len_drop dAtA i ltac:(lia)) as Hsub.
      pose proof (proj1 (IH (drop (Z.to_nat i) dAtA) ltac:(lia)) ltac:(lia)) as Hn.
      destruct (skipHeader_fuel fuel (drop (Z.to_nat i) dAtA)) as [n| | |];
        try exact Hn.
      cbn [mbind outcome_bind].
      assert (Hi2 : int (i + n) < 0 \/ i < int (i + n)).
      { assert (Hcases : 1 <= n <= MaxInt \/ - 2 ^ 63 <= n < - 2 ^ 62)
          by (unfold MaxInt in *; lia).
        destruct Hcases as [Hpos|Hneg].
        - destruct (Z_le_gt_dec (i + n) MaxInt) as [Hle|Hgt].
          + rewrite int_small by (unfold MaxInt in *; lia). lia.
          + rewrite int_wrap_neg by (unfold MaxInt in *; lia).
            unfold MaxInt in *. lia.
        - rewrite int_small by (unfold MaxInt in *; lia). lia. }
      pose proof (proj2 (IH dAtA Hd) (int (i + n)) ltac:(lia) ltac:(lia)) as Hg.
      destruct (skipGroup fuel dAtA (int (i + n))); try exact Hg. lia.
Qed.

Lemma read_string_progress (dAtA : list byte) (i : Z) :
  match read_string dAtA i with
  | Ok (_, i') => 0 <= i < i' /\ i' <= len dAtA
  | OutOfFuel => False
  | _ => True
  end.
Proof.
  unfold read_string.
  pose proof (varint_uint64_progress dAtA i) as Hv.
  destruct (varint_uint64 dAtA i) as [[n i1]| | |]; try exact Hv.
  cbn [mbind outcome_bind].
  destruct (int n <? 0) eqn:En; [exact I|].
  destruct (int (i1 + int n) >? len dAtA) eqn:Ep; [exact I|].
  unfold slice.
  destruct ((i1 <? 0) || (int (i1 + int n) <? i1) || (len dAtA <? int (i1 + int n)))
    eqn:Es; [exact I|].
  cbn [mbind outcome_bind].
  apply orb_false_iff in Es. destruct Es as [Es _].
  apply orb_false_iff in Es. destruct Es as [_ Es]. lia.
Qed.

(** One turn of the loop of [Unmarshal] ends, and when it goes on the index
    has moved forward - or is negative, after a wrap-around, with at least
    two bytes of the buffer behind the old index. *)
Lemma Unmarshal_field_progress (dAtA : list byte) (m : Header) (i : Z) :
  len dAtA <= 2 ^ 62 ->
  match Unmarshal_field dAtA m i with
  | Ok (_, i') => (0 <= i < i' /\ i' <= len dAtA)
                  \/ (i' < 0 /\ 0 <= i /\ i + 2 <= len dAtA)
  | OutOfFuel => False
  | _ => True
  end.
Proof.
  intros Hd. unfold Unmarshal_field.
  pose proof (varint_uint64_progress dAtA i) as Hv.
  destruct (varint_uint64 dAtA i) as [[wire i1]| | |]; try exact Hv.
  cbn [mbind outcome_bind].
  pose proof (varint_uint64_progress dAtA i1) as Hu.
  pose proof (varint_int32_progress dAtA i1) as H32.
  pose proof (read_string_progress dAtA i1) as Hs.
  destruct (int (Z.land wire 7) =? 4); [exact I|].
  destruct (int32 (Z.shiftr wire 3) <=? 0); [exact I|].
  destruct (int32 (Z.shiftr wire 3) =? 1).
  { destruct (negb (int (Z.land wire 7) =? 0)); [exact I|].
    destruct (varint_uint64 dAtA i1) as [[v i2]| | |]; try exact Hu. left. lia. }
  destruct (int32 (Z.shiftr wire 3) =? 2).
  { destruct (negb (int (Z.land wire 7) =? 0)); [exact I|].
    destruct (varint_int32 dAtA i1) as [[v i2]| | |]; try exact H32. left. lia. }
  destruct (int32 (Z.shiftr wire 3) =? 3).
  { destruct (negb (int (Z.land wire 7) =? 2)); [exact I|].
    destruct (read_string dAtA i1) as [[v i2]| | |]; try exact Hs. left. lia. }
  destruct (int32 (Z.shiftr wire 3) =? 4).
  { destruct (negb (int (Z.land wire 7) =? 0)); [exact I|].
    destruct (varint_int32 dAtA i1) as [[v i2]| | |]; try exact H32. left. lia. }
  destruct (int32 (Z.shiftr wire 3) =? 5).
  { destruct (negb (int (Z.land wire 7) =? 0)); [exact I|].
    destruct (varint_int32 dAtA i1) as [[v i2]| | |]; try exact H32. left. lia. }
  destruct (int32 (Z.shiftr wire 3) =? 6).
  { destruct (negb (int (Z.land wire 7) =? 2)); [exact I|].
    destruct (read_string dAtA i1) as [[v i2]| | |]; try exact Hs. left. lia. }
  rewrite slice_from_ok by lia. cbn [mbind outcome_bind].
  pose proof (len_drop dAtA i ltac:(lia)) as Hsub.
  pose proof (len_nonneg dAtA) as Hl.
  pose proof (proj1 (skipHeader_fuel_progress
                       (2 * length (drop (Z.to_nat i) dAtA) + 1)
                       (drop (Z.to_nat i) dAtA) ltac:(lia))
                ltac:(unfold len; lia)) as Hn.
  unfold skipHeader.
  destruct (skipHeader_fuel _ (drop (Z.to_nat i) dAtA)) as [n| | |]; try exact Hn.
  cbn [mbind outcome_bind].
  destruct (n <? 0) eqn:En; [exact I|].
  destruct (int (i + n) >? len dAtA) eqn:Ep; [exact I|].
  destruct (Z_le_gt_dec (i + n) MaxInt) as [Hle|Hgt].
  - rewrite int_small in * by (unfold MaxInt in *; lia). left. lia.
  - rewrite int_wrap_neg by (unfold MaxInt in *; lia).
    right. unfold MaxInt in *. lia.
Qed.

Lemma Unmarshal_loop_progress :
  forall (fuel : nat) (dAtA : list byte) (m : Header) (i : Z),
    len dAtA <= 2 ^ 62 ->
    (0 <= i < len dAtA -> len dAtA - i <= Z.of_nat fuel) ->
    (i < 0 -> (1 <= fuel)%nat) ->
    Unmarshal_loop fuel dAtA m i <> OutOfFuel.
Proof.
  induction fuel as [|fuel IH]; intros dAtA m i Hd Hf Hneg;
    pose proof (len_nonneg dAtA) as Hl.
  - cbn [Unmarshal_loop]. destruct (i <? len dAtA) eqn:E; [lia|].
    destruct (i >? len dAtA); discriminate.
  - cbn [Unmarshal_loop]. destruct (i <? len dAtA) eqn:E;
      [|destruct (i >? len dAtA); discriminate].
    pose proof (Unmarshal_field_progress dAtA m i Hd) as Hp.
    destruct (Unmarshal_field dAtA m i) as [[m' i']| | |];
      cbn [mbind outcome_bind]; try discriminate; [|contradiction].
    apply IH; [exact Hd|lia|lia].
Qed.

(** X27.  [Unmarshal] ends on every buffer (of at most 2^62 bytes, which
    every Go slice of bytes is): each turn of its loop moves the index
    forward by at least one byte, or leaves it negative so that the next
    read panics.  The result is a header, an error or a panic. *)
Theorem Unmarshal_terminates (m : Header) (dAtA : list byte) :
  len dAtA <= 2 ^ 62 -> Unmarshal m dAtA <> OutOfFuel.
Proof.
  intros Hd. unfold Unmarshal.
  apply Unmarshal_loop_progress; [exact Hd|unfold len; lia|lia].
Qed.

Lemma Unmarshal_terminates_witness :
  len [x08; x96; x01] <= 2 ^ 62 /\ Unmarshal Header_zero [x08; x96; x01] <> OutOfFuel.
Proof.
  assert (H : len [x08; x96; x01] <= 2 ^ 62) by (vm_compute; discriminate).
  split; [exact H|]. exact (Unmarshal_terminates Header_zero [x08; x96; x01] H).
Defined.

(** X28.  [skipHeader] ends on every buffer (of at most 2^62 bytes): a
    nested call works on a shorter slice and each turn of the group loop
    consumes a tag.  The count it returns is never zero: it is positive,
    or negative when the offset of a length-prefixed field wrapped around. *)
Theorem skipHeader_terminates (dAtA : list byte) :
  len dAtA <= 2 ^ 62 ->
  skipHeader dAtA <> OutOfFuel
  /\ forall n, skipHeader dAtA = Ok n -> 1 <= n \/ n < - 2 ^ 62.
Proof.
  intros Hd. pose proof (len_nonneg dAtA) as Hl.
  pose proof (proj1 (skipHeader_fuel_progress (2 * length dAtA + 1) dAtA Hd)
                ltac:(unfold len; lia)) as Hn.
  unfold skipHeader.
  destruct (skipHeader_fuel (2 * length dAtA + 1) dAtA) as [n| | |];
    try contradiction; (split; [discriminate|]); intros k Hk; try discriminate.
  injection Hk as <-. lia.
Qed.

Lemma skipHeader_terminates_witness :
  len [x3b; x08; x01; x3c] <= 2 ^ 62
  /\ skipHeader [x3b; x08; x01; x3c] <> OutOfFuel
  /\ forall n, skipHeader [x3b; x08; x01; x3c] = Ok n -> 1 <= n \/ n < - 2 ^ 62.
Proof.
  assert (H : len [x3b; x08; x01; x3c] <= 2 ^ 62) by (vm_compute; discriminate).
  split; [exact H|]. exact (skipHeader_terminates [x3b; x08; x01; x3c] H).
Defined.
